(** * Almanca-Turkce-Oyun: the scheduling and answer-grading engine

    A shallow embedding of [germanturkce.py]: the Leitner scheduler
    ([schedule_next], [update_after_answer]), the normalizers
    ([de_normalize], [tr_normalize]), the similarity scorer ([similarity],
    i.e. difflib's [SequenceMatcher(None, a, b).ratio()]), the grader
    ([is_close_enough] and the candidate loop of [play_question]), the
    translation-list parser ([parse_translations]) and the translation
    store behind [add_translation].

    Python strings are sequences of Unicode code points: a [str] is a
    [list N].  Integers are [Z].  The similarity ratio, a float in the
    source, is the exact rational [2*M / L]; the threshold literal 0.88 is
    the rational 22/25. *)

From Stdlib Require Import ZArith NArith QArith Qreduction Lia String Ascii.
From stdpp Require Import gmap list sorting.

Local Open Scope Z_scope.

Abbreviation char := N (only parsing).
Abbreviation str := (list N) (only parsing).

(** ** String literals

    Literals of this file are UTF-8 byte strings; [py] decodes them into
    code points. *)

Module Utf8.

Definition cont (b : N) : N := N.land b 63.

Fixpoint decode_bytes (fuel : nat) (bs : list N) : str :=
  match fuel with
  | O => []
  | S fuel =>
    match bs with
    | [] => []
    | b0 :: r0 =>
      if (b0 <? 128)%N then b0 :: decode_bytes fuel r0
      else if (b0 <? 224)%N then
        match r0 with
        | b1 :: r1 =>
            (N.shiftl (N.land b0 31) 6 + cont b1)%N :: decode_bytes fuel r1
        | _ => []
        end
      else if (b0 <? 240)%N then
        match r0 with
        | b1 :: b2 :: r2 =>
            (N.shiftl (N.land b0 15) 12 + N.shiftl (cont b1) 6 + cont b2)%N
              :: decode_bytes fuel r2
        | _ => []
        end
      else
        match r0 with
        | b1 :: b2 :: b3 :: r3 =>
            (N.shiftl (N.land b0 7) 18 + N.shiftl (cont b1) 12
             + N.shiftl (cont b2) 6 + cont b3)%N :: decode_bytes fuel r3
        | _ => []
        end
    end
  end.

Definition bytes_of (s : string) : list N :=
  List.map N_of_ascii (list_ascii_of_string s).

Definition py (s : string) : str :=
  let bs := bytes_of s in decode_bytes (List.length bs) bs.

End Utf8.

Abbreviation py := Utf8.py.

(** ** Text primitives of the Python runtime *)

(** [str.isspace] on one code point; [str.strip] and the regular
    expression class [\s] both use this set. *)
Definition is_space (c : char) : bool :=
  ((9 <=? c) && (c <=? 13) || (28 <=? c) && (c <=? 32)
   || (c =? 133) || (c =? 160) || (c =? 5760)
   || (8192 <=? c) && (c <=? 8202)
   || (c =? 8232) || (c =? 8233) || (c =? 8239) || (c =? 8287)
   || (c =? 12288))%N.

Fixpoint lstrip (s : str) : str :=
  match s with
  | [] => []
  | c :: s' => if is_space c then lstrip s' else s
  end.

Fixpoint rstrip (s : str) : str :=
  match s with
  | [] => []
  | c :: s' =>
    match rstrip s' with
    | [] => if is_space c then [] else [c]
    | r => c :: r
    end
  end.

(** [s.strip()] *)
Definition strip (s : str) : str := rstrip (lstrip s).

(** [re.sub(r"\s+", " ", s)]: [in_run] tells whether the previous
    character belonged to a whitespace run already replaced. *)
Fixpoint sub_ws (in_run : bool) (s : str) : str :=
  match s with
  | [] => []
  | c :: s' =>
    if is_space c
    then (if in_run then sub_ws true s' else 32%N :: sub_ws true s')
    else c :: sub_ws false s'
  end.

Definition collapse_ws (s : str) : str := sub_ws false s.

(** [s.replace(old, new)] for a one-character [old]. *)
Definition replace1 (old : char) (new : str) (s : str) : str :=
  flat_map (fun c => if (c =? old)%N then new else [c]) s.

(** ** Similarity scorer

    [similarity(a, b)] is [SequenceMatcher(None, a, b).ratio()] of the
    runtime's difflib: no junk predicate, [autojunk] left at its default. *)

Module Difflib.

(** [Match(a, b, size)] *)
Abbreviation Match := (Z * Z * Z)%type.

Definition at_ (s : str) (i : Z) : option N := s !! Z.to_nat i.

Fixpoint enumerate_from (i : Z) (b : str) : list (Z * N) :=
  match b with
  | [] => []
  | elt :: b' => (i, elt) :: enumerate_from (i + 1) b'
  end.

(** [indices = b2j.setdefault(elt, []); indices.append(i)] *)
Definition setdefault_append (b2j : gmap N (list Z)) (ie : Z * N)
    : gmap N (list Z) :=
  <[ie.2 := default [] (b2j !! ie.2) ++ [ie.1]]> b2j.

Definition autojunk : bool := true.

(** [isjunk] is [None]: the junk set stays empty. *)
Definition bjunk : gset N := ∅.
Definition isbjunk (elt : char) : bool := bool_decide (elt ∈ bjunk).

(** [__chain_b]: for each element of [b] the ascending list of its
    positions, the popular elements of a long [b] purged. *)
Definition chain_b (b : str) : gmap N (list Z) :=
  let b2j := foldl setdefault_append ∅ (enumerate_from 0 b) in
  let n := Z.of_nat (length b) in
  if autojunk && (200 <=? n) then
    let ntest := n / 100 + 1 in
    filter (fun kv => Z.of_nat (length kv.2) <= ntest) b2j
  else b2j.

(** The inner loop of [find_longest_match], over the positions [js] of
    [a[i]] in [b]; [continue] below [blo], [break] from [bhi] on. *)
Fixpoint scan_row (i blo bhi : Z) (j2len : gmap Z Z) (js : list Z)
    (st : Match * gmap Z Z) : Match * gmap Z Z :=
  match js with
  | [] => st
  | j :: js' =>
    if j <? blo then scan_row i blo bhi j2len js' st
    else if bhi <=? j then st
    else
      let k := default 0 (j2len !! (j - 1)) + 1 in
      let bst := if st.1.2 <? k then (i - k + 1, j - k + 1, k) else st.1 in
      scan_row i blo bhi j2len js' (bst, <[j := k]> st.2)
  end.

(** One turn of the outer loop: [st] holds the best match so far and
    [j2len]; the turn ends with [j2len = newj2len]. *)
Definition scan_rows (a : str) (b2j : gmap N (list Z)) (blo bhi : Z)
    (st : Match * gmap Z Z) (i : Z) : Match * gmap Z Z :=
  let js := match at_ a i with
            | Some elt => default [] (b2j !! elt)
            | None => []
            end in
  scan_row i blo bhi st.2 js (st.1, ∅).

(** The two pairs of [while] loops that extend the best match, first over
    elements that are not junk ([junk = false]), then over junk.  A loop
    that moves the start down runs at most [besti - alo] times, one that
    moves the end up at most [ahi - (besti + bestsize)] times: [n] is that
    bound, and the guard is false when it is used up. *)
Definition same_at (junk : bool) (a b : str) (i j : Z) : bool :=
  match at_ a i, at_ b j with
  | Some x, Some y => eqb (isbjunk y) junk && (x =? y)%N
  | _, _ => false
  end.

Fixpoint extend_down (n : nat) (junk : bool) (a b : str) (alo blo : Z)
    (m : Match) : Match :=
  match n with
  | O => m
  | S n' =>
    let '(besti, bestj, bestsize) := m in
    if (alo <? besti) && (blo <? bestj)
       && same_at junk a b (besti - 1) (bestj - 1)
    then extend_down n' junk a b alo blo (besti - 1, bestj - 1, bestsize + 1)
    else m
  end.

Fixpoint extend_up (n : nat) (junk : bool) (a b : str) (ahi bhi : Z)
    (m : Match) : Match :=
  match n with
  | O => m
  | S n' =>
    let '(besti, bestj, bestsize) := m in
    if (besti + bestsize <? ahi) && (bestj + bestsize <? bhi)
       && same_at junk a b (besti + bestsize) (bestj + bestsize)
    then extend_up n' junk a b ahi bhi (besti, bestj, bestsize + 1)
    else m
  end.

Definition extend (junk : bool) (a b : str) (alo ahi blo bhi : Z)
    (m : Match) : Match :=
  let m := extend_down (Z.to_nat (m.1.1 - alo)) junk a b alo blo m in
  extend_up (Z.to_nat (ahi - (m.1.1 + m.2))) junk a b ahi bhi m.

Definition find_longest_match (a b : str) (b2j : gmap N (list Z))
    (alo ahi blo bhi : Z) : Match :=
  let st := foldl (scan_rows a b2j blo bhi) ((alo, blo, 0), ∅)
                  (seqZ alo (ahi - alo)) in
  extend true a b alo ahi blo bhi (extend false a b alo ahi blo bhi st.1).

(** The work list of [get_matching_blocks].  The source pops from and
    appends to the end of a Python list; here the end of that list is the
    head of [queue].  [None]: [fuel] turns were not enough. *)
Fixpoint blocks_loop (fuel : nat) (a b : str) (b2j : gmap N (list Z))
    (queue : list (Z * Z * Z * Z)) (matching_blocks : list Match)
    : option (list Match) :=
  match queue with
  | [] => Some matching_blocks
  | (alo, ahi, blo, bhi) :: queue =>
    match fuel with
    | O => None
    | S fuel =>
      let x := find_longest_match a b b2j alo ahi blo bhi in
      let '(i, j, k) := x in
      if k =? 0 then blocks_loop fuel a b b2j queue matching_blocks
      else
        let queue := if (alo <? i) && (blo <? j)
                     then (alo, i, blo, j) :: queue else queue in
        let queue := if (i + k <? ahi) && (j + k <? bhi)
                     then (i + k, ahi, j + k, bhi) :: queue else queue in
        blocks_loop fuel a b b2j queue (matching_blocks ++ [x])
    end
  end.

(** Tuples compare lexicographically. *)
Definition tuple_le (x y : Match) : Prop :=
  x.1.1 < y.1.1
  ∨ (x.1.1 = y.1.1 ∧ (x.1.2 < y.1.2 ∨ (x.1.2 = y.1.2 ∧ x.2 <= y.2))).

#[global] Instance tuple_le_dec : RelDecision tuple_le.
Proof. intros x y. unfold tuple_le. apply _. Defined.

(** One turn of the loop that merges adjacent blocks. *)
Definition collapse_step (st : Match * list Match) (m : Match)
    : Match * list Match :=
  let '((i1, j1, k1), non_adjacent) := st in
  let '(i2, j2, k2) := m in
  if (i1 + k1 =? i2) && (j1 + k1 =? j2)
  then ((i1, j1, k1 + k2), non_adjacent)
  else ((i2, j2, k2),
        if k1 =? 0 then non_adjacent else non_adjacent ++ [(i1, j1, k1)]).

Definition collapse_blocks (la lb : Z) (matching_blocks : list Match)
    : list Match :=
  let '((i1, j1, k1), non_adjacent) :=
    foldl collapse_step ((0, 0, 0), []) matching_blocks in
  (if k1 =? 0 then non_adjacent else non_adjacent ++ [(i1, j1, k1)])
    ++ [(la, lb, 0)].

(** Every turn of the work list takes one range off it and puts back
    ranges that are shorter by at least the match between them, so
    [2 * len(a) + 1] turns are enough ([blocks_loop_terminates]). *)
Definition blocks_fuel (a : str) : nat := S (2 * length a).

Definition raw_blocks (a b : str) : option (list Match) :=
  let la := Z.of_nat (length a) in
  let lb := Z.of_nat (length b) in
  blocks_loop (blocks_fuel a) a b (chain_b b) [(0, la, 0, lb)] [].

Definition get_matching_blocks (a b : str) : list Match :=
  let la := Z.of_nat (length a) in
  let lb := Z.of_nat (length b) in
  collapse_blocks la lb (merge_sort tuple_le (default [] (raw_blocks a b))).

Definition sum_sizes (l : list Match) : Z := foldr (fun m s => m.2 + s) 0 l.

Definition calculate_ratio (matches length : Z) : Q :=
  if length =? 0 then 1%Q else Qred (2 * matches # Z.to_pos length).

Definition ratio (a b : str) : Q :=
  let matches := sum_sizes (get_matching_blocks a b) in
  calculate_ratio matches (Z.of_nat (length a) + Z.of_nat (length b)).

End Difflib.

Definition similarity (a b : str) : Q := Difflib.ratio a b.

(** ** Leitner scheduler *)

Definition LEITNER_INTERVALS_DAYS : gmap Z Z :=
  list_to_map [(1, 0); (2, 1); (3, 3); (4, 7); (5, 14)].

Definition FUZZY_THRESHOLD : Q := (88 # 100)%Q.

(** Timestamps are whole seconds of the UTC clock; [now] is the reading of
    the clock ([utcnow] with the microseconds dropped). *)
Definition add_days_iso (now days : Z) : Z := now + days * 86400.

Definition schedule_next (now box : Z) : Z :=
  let days := default 0 (LEITNER_INTERVALS_DAYS !! box) in
  add_days_iso now days.

(** ** The store: the tables [words] and [translations] *)

Record word := {
  german : str;
  example : option str;
  notes : option str;
  box : Z;
  correct_count : Z;
  wrong_count : Z;
  created_at : Z;
  updated_at : Z;
  last_seen_at : option Z;
  next_due_at : Z }.

(** A row of [translations]; the rows are kept in the order of their
    [AUTOINCREMENT] ids. *)
Record translation := {
  word_id : Z;
  turkish : str;
  tr_created_at : Z }.

Record db := {
  words : gmap Z word;
  translations : list translation }.

(** [UPDATE words SET box = ?, ..._count = ..._count + 1, updated_at = ?,
    last_seen_at = ?, next_due_at = ? WHERE id = ?] *)
Definition review_row (was_correct : bool) (new_box ts due : Z) (w : word)
    : word :=
  {| german := german w; example := example w; notes := notes w;
     box := new_box;
     correct_count := if was_correct then correct_count w + 1
                      else correct_count w;
     wrong_count := if was_correct then wrong_count w
                    else wrong_count w + 1;
     created_at := created_at w;
     updated_at := ts; last_seen_at := Some ts; next_due_at := due |}.

(** [update_after_answer]: [now_ts] is the clock read by [now_utc_iso],
    [now_due] the later reading inside [schedule_next]. *)
Definition update_after_answer (now_ts now_due : Z) (d : db) (id : Z)
    (was_correct : bool) (current_box : Z) : db * (Z * Z) :=
  let new_box := if was_correct then Z.min 5 (current_box + 1) else 1 in
  let ts := now_ts in
  let due := schedule_next now_due new_box in
  ({| words := alter (review_row was_correct new_box ts due) id (words d);
      translations := translations d |},
   (new_box, due)).

(** [get_translations]: [SELECT turkish ... WHERE word_id = ? ORDER BY id] *)
Definition get_translations (d : db) (id : Z) : list str :=
  turkish <$> filter (fun t => word_id t = id) (translations d).

(** An exception that leaves the function, or its result. *)
Inductive exn := OverflowError | UnicodeEncodeError.

Inductive outcome (A : Type) :=
| Done (a : A)
| Raised (e : exn).
Arguments Done {A} a.
Arguments Raised {A} e.

(** Binding the parameters of a statement: an integer must fit SQLite's
    64-bit INTEGER, a text must be encodable as UTF-8, which a lone
    surrogate is not.  The parameters are bound in order. *)
Definition fits_int64 (z : Z) : bool :=
  (-9223372036854775808 <=? z) && (z <=? 9223372036854775807).

Definition is_surrogate (c : char) : bool := ((55296 <=? c) && (c <=? 57343))%N.

Definition bind_error (id : Z) (t : str) : option exn :=
  if negb (fits_int64 id) then Some OverflowError
  else if existsb is_surrogate t then Some UnicodeEncodeError
  else None.

(** One [INSERT INTO translations] inside [try: ... except IntegrityError:
    pass].  The insert fails, silently, on the foreign key (no such word)
    and on the unique index [uniq_word_tr] over [(word_id, turkish)],
    which compares the stored text as it is; an error of the binding is
    not an [IntegrityError] and leaves the function. *)
Definition insert_translation (ts id : Z) (d : db) (t : str) : outcome db :=
  match bind_error id t with
  | Some e => Raised e
  | None =>
    Done (if bool_decide (is_Some (words d !! id))
             && bool_decide
                  (Forall (fun r => ¬ (word_id r = id ∧ turkish r = t))
                          (translations d))
          then {| words := words d;
                  translations := translations d
                    ++ [{| word_id := id; turkish := t;
                           tr_created_at := ts |}] |}
          else d)
  end.

(** [for t in trs: try: INSERT ...]: an exception ends the loop before
    [conn.commit()], and nothing of this call is stored. *)
Fixpoint insert_all (ts id : Z) (d : db) (trs : list str) : outcome db :=
  match trs with
  | [] => Done d
  | t :: trs' =>
    match insert_translation ts id d t with
    | Done d' => insert_all ts id d' trs'
    | Raised e => Raised e
    end
  end.

(** What the table can hold: a stored id is a 64-bit integer and a stored
    text is valid UTF-8. *)
Definition db_ok (d : db) : Prop :=
  Forall (fun r => fits_int64 (word_id r) = true
                   ∧ Forall (fun c => is_surrogate c = false) (turkish r))
         (translations d).

(** ** Normalizer, grader, parser and the play handler *)

(** [re.split(r"[;,/]+", s)]: [cur] is the part being read, [in_run]
    tells whether the previous character was a separator. *)
Definition is_sep (c : char) : bool := ((c =? 59) || (c =? 44) || (c =? 47))%N.

Fixpoint re_split (in_run : bool) (cur : str) (s : str) : list str :=
  match s with
  | [] => [cur]
  | c :: s' =>
    if is_sep c
    then (if in_run then re_split true [] s' else cur :: re_split true [] s')
    else re_split false (cur ++ [c]) s'
  end.

(** The kind and the text of a feedback record; of the text, the parts
    that vary. *)
Inductive feedback_kind := warn | ok | bad.

Inductive feedback_msg :=
| Pas (correct_list : list str) (new_box : Z)
| Dogru (exact : bool) (best_sim : Q) (correct_list : list str) (new_box : Z)
| Yanlis (user_answer : str) (correct_list : list str) (new_box : Z)
         (best_sim : Q).

Record game := {
  mode : str;
  pool : str;
  queue : list Z;
  idx : Z;
  score : Z;
  total : Z;
  last_feedback : option (feedback_kind * feedback_msg) }.

Definition set_feedback (g : game) (f : feedback_kind * feedback_msg) : game :=
  {| mode := mode g; pool := pool g; queue := queue g; idx := idx g;
     score := score g; total := total g; last_feedback := Some f |}.

Definition advance_game (g : game) (was_correct : bool) : game :=
  {| mode := mode g; pool := pool g; queue := queue g;
     idx := idx g + 1;
     score := if was_correct then score g + 1 else score g;
     total := total g; last_feedback := last_feedback g |}.

(** [get_current_word].  [idx] is written by [start_game] (0) and by
    [advance_game] (one more) only, so it is never negative; for a
    negative [idx], which Python would count from the end of the queue,
    this definition reads the head of the queue. *)
Definition get_current_word (d : db) (g : game) : option (Z * word) :=
  if Z.of_nat (length (queue g)) <=? idx g then None
  else match queue g !! Z.to_nat (idx g) with
       | Some id => (fun w => (id, w)) <$> words d !! id
       | None => None
       end.

(** What a [POST] to [/play/q] answers. *)
Inductive response :=
| to_play_setup
| to_play_done
| to_play_question (d : db) (g : game).

(** The tables of the runtime behind [str.lower]: the full lower-case
    mapping of one code point (one code point may become several, as
    U+0130 does) and the properties Cased and Case_Ignorable. *)
Record case_tables := {
  to_lower_full : char -> str;
  is_cased : char -> bool;
  is_case_ignorable : char -> bool }.

Section Program.

(** ** Normalizer *)

Variable tables : case_tables.

(** After U+03A3: is the next character that is not case-ignorable a
    cased one? *)
Fixpoint cased_follows (s : str) : bool :=
  match s with
  | [] => false
  | c :: s' =>
    if is_case_ignorable tables c then cased_follows s'
    else is_cased tables c
  end.

(** [s.lower()]: every code point goes through the table, except U+03A3,
    which becomes U+03C2 when a cased character comes before it and none
    after it, case-ignorable characters skipped on both sides, and U+03C3
    otherwise (the runtime's [final_sigma]).  [cased_before] tells whether
    the last character read that is not case-ignorable is cased. *)
Fixpoint lower_from (cased_before : bool) (s : str) : str :=
  match s with
  | [] => []
  | c :: s' =>
    (if (c =? 931)%N
     then [if cased_before && negb (cased_follows s') then 962%N else 963%N]
     else to_lower_full tables c)
    ++ lower_from (if is_case_ignorable tables c then cased_before
                   else is_cased tables c) s'
  end.

Definition lower (s : str) : str := lower_from false s.

Definition de_normalize (s : str) : str :=
  let s := lower (strip s) in
  let s := collapse_ws s in
  replace1 252 (py "ue")
    (replace1 246 (py "oe")
      (replace1 228 (py "ae")
        (replace1 223 (py "ss") s))).

Definition tr_normalize (s : str) : str :=
  let s := lower (strip s) in
  collapse_ws s.


(** [is_close_enough] *)
Definition is_close_enough (user correct lang : str) : bool * Q :=
  let '(u, c) :=
    if bool_decide (lang = py "de")
    then (de_normalize user, de_normalize correct)
    else (tr_normalize user, tr_normalize correct) in
  if bool_decide (u = []) || bool_decide (c = []) then (false, 0%Q)
  else if bool_decide (u = c) then (true, 1%Q)
  else if (Z.of_nat (length u) <=? 3) || (Z.of_nat (length c) <=? 3)
  then (false, similarity u c)
  else
    let sim := similarity u c in
    (Qle_bool FUZZY_THRESHOLD sim, sim).

(** [parse_translations]; [raw] is [None] for Python's [None]. *)
Definition keep_part (out : list str) (p : str) : list str :=
  let p := strip p in
  if bool_decide (p = []) then out else out ++ [p].

Definition keep_new (st : gset (list N) * list str) (t : str)
    : gset (list N) * list str :=
  let key := tr_normalize t in
  if bool_decide (key ∈ st.1) then st else ({[key]} ∪ st.1, st.2 ++ [t]).

Definition parse_translations (raw : option str) : list str :=
  let parts := re_split false [] (default [] raw) in
  let out := foldl keep_part [] parts in
  (foldl keep_new (∅, []) out).2.

(** [add_translation] *)
Definition add_translation (now : Z) (d : db) (id : Z) (turkish : option str)
    : outcome db :=
  let trs := parse_translations turkish in
  if bool_decide (trs = []) then Done d
  else
    let ts := now in
    insert_all ts id d trs.

(** The candidate loop of [play_question]; the state is
    [(best_sim, best_target)], the result adds [matched]. *)
Fixpoint grade_loop (user_answer answer_lang : str) (correct_list : list str)
    (st : Q * option str) : bool * (Q * option str) :=
  match correct_list with
  | [] => (false, st)
  | target :: rest =>
    let '(ok_, sim) := is_close_enough user_answer target answer_lang in
    let st := if Qlt_le_dec st.1 sim then (sim, Some target) else st in
    if ok_ then (true, st) else grade_loop user_answer answer_lang rest st
  end.

Definition is_exact (user_answer answer_lang : str) (best_target : option str)
    : bool :=
  bool_decide (answer_lang = py "de")
    && bool_decide (de_normalize user_answer
                    = de_normalize (default [] best_target))
  || bool_decide (answer_lang = py "tr")
    && bool_decide (tr_normalize user_answer
                    = tr_normalize (default [] best_target)).

(** The question asked for a word: the acceptable answers and their
    language.  [rnd_mode] is what [random.choice] picks in mixed mode. *)
Definition question_of (g : game) (rnd_mode : str) (w : word)
    (trs : list str) : list str * str :=
  let mode := if bool_decide (mode g = py "mixed") then rnd_mode
              else mode g in
  if bool_decide (mode = py "de->tr") then (trs, py "tr")
  else ([german w], py "de").

(** [play_question] on a [POST]: [session_game] is [session.get("game")],
    [answer] the form field, [now1] to [now2] the clock readings of
    [update_after_answer]. *)
Definition play_question (now1 now2 : Z) (rnd_mode : str) (d : db)
    (session_game : option game) (answer : option str) : response :=
  match session_game with
  | None => to_play_setup
  | Some g =>
    match get_current_word d g with
    | None => to_play_done
    | Some (id, w) =>
      let trs := get_translations d id in
      let '(correct_list, answer_lang) := question_of g rnd_mode w trs in
      let user_answer := strip (default [] answer) in
      if bool_decide (user_answer = []) then
        let '(d, (new_box, due)) :=
          update_after_answer now1 now2 d id false (box w) in
        let g := set_feedback g (warn, Pas correct_list new_box) in
        to_play_question d (advance_game g false)
      else
        let '(matched, (best_sim, best_target)) :=
          grade_loop user_answer answer_lang correct_list (0%Q, None) in
        if matched then
          let '(d, (new_box, due)) :=
            update_after_answer now1 now2 d id true (box w) in
          let exact := is_exact user_answer answer_lang best_target in
          let g := set_feedback g
                     (ok, Dogru exact best_sim correct_list new_box) in
          to_play_question d (advance_game g true)
        else
          let '(d, (new_box, due)) :=
            update_after_answer now1 now2 d id false (box w) in
          let g := set_feedback g
                     (bad, Yanlis user_answer correct_list new_box best_sim) in
          to_play_question d (advance_game g false)
    end
  end.

End Program.

(** The tables on the letters this program is used with, and on the Greek
    letters: the code points below U+0180 (Basic Latin, Latin-1, Latin
    Extended-A), U+0307, U+0391 to U+03A9, U+03B1 to U+03C9 and U+1E9E.
    Outside this alphabet the three functions below are not the
    runtime's; the closed examples of this file stay inside it. *)
Definition latin_lower_char (c : char) : str :=
  (if (65 <=? c) && (c <=? 90) then [c + 32]
   else if (192 <=? c) && (c <=? 222) && negb (c =? 215) then [c + 32]
   else if c =? 304 then [105; 775]
   else if c =? 376 then [255]
   else if ((256 <=? c) && (c <=? 303) || (306 <=? c) && (c <=? 311)
            || (330 <=? c) && (c <=? 375)) && N.even c then [c + 1]
   else if ((313 <=? c) && (c <=? 328) || (377 <=? c) && (c <=? 382))
           && N.odd c then [c + 1]
   else if (913 <=? c) && (c <=? 937) && negb (c =? 930) then [c + 32]
   else if c =? 7838 then [223]
   else [c])%N.

Definition latin_cased (c : char) : bool :=
  ((65 <=? c) && (c <=? 90) || (97 <=? c) && (c <=? 122)
   || (c =? 170) || (c =? 181) || (c =? 186)
   || (192 <=? c) && (c <=? 214) || (216 <=? c) && (c <=? 246)
   || (248 <=? c) && (c <=? 383)
   || (913 <=? c) && (c <=? 937) && negb (c =? 930)
   || (945 <=? c) && (c <=? 969)
   || (c =? 7838))%N.

Definition latin_case_ignorable (c : char) : bool :=
  ((c =? 39) || (c =? 46) || (c =? 58) || (c =? 94) || (c =? 96)
   || (c =? 168) || (c =? 173) || (c =? 175) || (c =? 180)
   || (c =? 183) || (c =? 184) || (c =? 775))%N.

Definition latin_tables : case_tables :=
  {| to_lower_full := latin_lower_char;
     is_cased := latin_cased;
     is_case_ignorable := latin_case_ignorable |}.

(** [normalize(text, language)]: the normalizer [is_close_enough] picks
    for [lang]. *)
Definition normalize (tables : case_tables) (lang : str) (s : str) : str :=
  if bool_decide (lang = py "de") then de_normalize tables s
  else tr_normalize tables s.

(** * Properties *)

(** ** Scheduler *)

Lemma intervals_lookup_outside (box : Z) :
  ¬ (1 <= box <= 5) -> LEITNER_INTERVALS_DAYS !! box = None.
Proof.
  intros Hout. unfold LEITNER_INTERVALS_DAYS. cbn [list_to_map foldr uncurry].
  cbn. repeat (rewrite lookup_insert_ne by lia). apply lookup_empty.
Qed.

Lemma intervals_lookup_inside (box : Z) :
  1 <= box <= 5 ->
  ∃ days, In (box, days) [(1, 0); (2, 1); (3, 3); (4, 7); (5, 14)]
          ∧ LEITNER_INTERVALS_DAYS !! box = Some days.
Proof.
  intros Hin.
  assert (box = 1 ∨ box = 2 ∨ box = 3 ∨ box = 4 ∨ box = 5) as Hb by lia.
  destruct Hb as [->|[->|[->|[->| ->]]]]; eexists; (split; [|reflexivity]);
    cbn; tauto.
Qed.

(** C1: for a box in 1..5 the update moves the word to [min(5, b+1)] on a
    correct answer and to 1 on a wrong one, and makes it due at the clock
    reading plus the days the table gives for the new box; the stored row
    gets that box and that due time. *)
Theorem update_after_answer_transition
    (now_ts now_due : Z) (d : db) (id : Z) (was_correct : bool) (b : Z) :
  1 <= b <= 5 ->
  let new_box := if was_correct then Z.min 5 (b + 1) else 1 in
  let r := update_after_answer now_ts now_due d id was_correct b in
  ∃ days,
    In (new_box, days) [(1, 0); (2, 1); (3, 3); (4, 7); (5, 14)]
    ∧ r.2 = (new_box, now_due + days * 86400)
    ∧ ∀ w, words d !! id = Some w ->
        ∃ w', words r.1 !! id = Some w'
              ∧ box w' = new_box
              ∧ next_due_at w' = now_due + days * 86400.
Proof.
  intros Hb new_box r.
  assert (1 <= new_box <= 5) as Hnew by (subst new_box; destruct was_correct; lia).
  destruct (intervals_lookup_inside new_box Hnew) as (days & Hin & Hlk).
  exists days. split; [exact Hin|].
  assert (schedule_next now_due new_box = now_due + days * 86400) as Hdue.
  { unfold schedule_next, add_days_iso. rewrite Hlk. reflexivity. }
  split.
  - subst r. unfold update_after_answer. cbn [snd]. fold new_box.
    rewrite Hdue. reflexivity.
  - intros w Hw. subst r. unfold update_after_answer. cbn [fst words].
    fold new_box. rewrite Hdue.
    eexists. split.
    + rewrite lookup_alter_eq, Hw. reflexivity.
    + split; reflexivity.
Qed.

Lemma update_after_answer_transition_witness :
  ∃ days,
    In (4, days) [(1, 0); (2, 1); (3, 3); (4, 7); (5, 14)]
    ∧ (update_after_answer 1000 1000 {| words := ∅; translations := [] |}
         1 true 3).2 = (4, 1000 + days * 86400)
    ∧ ∀ w, (∅ : gmap Z word) !! 1 = Some w ->
        ∃ w', words (update_after_answer 1000 1000
                       {| words := ∅; translations := [] |} 1 true 3).1 !! 1
              = Some w'
              ∧ box w' = 4
              ∧ next_due_at w' = 1000 + days * 86400.
Proof.
  apply (update_after_answer_transition 1000 1000
           {| words := ∅; translations := [] |} 1 true 3).
  lia.
Defined.

(** C10: the due time is defined for every integer box; outside 1..5 the
    table has no entry, the interval is 0 days and the word is due at the
    clock reading itself. *)
Theorem schedule_next_outside_table (now box : Z) :
  ¬ (1 <= box <= 5) -> schedule_next now box = now.
Proof.
  intros Hout. unfold schedule_next, add_days_iso.
  rewrite (intervals_lookup_outside box Hout). cbn. lia.
Qed.

Lemma schedule_next_outside_table_witness :
  schedule_next 1000 9 = 1000 ∧ schedule_next 1000 (-2) = 1000.
Proof.
  split; apply schedule_next_outside_table; lia.
Defined.

(** ** Grader: one candidate *)

Section Grader.

Context (tables : case_tables).

Local Abbreviation normalize_lc := (normalize tables).
Local Abbreviation is_close_enough_lc := (is_close_enough tables).

Lemma is_close_enough_eq (user correct lang : str) :
  is_close_enough_lc user correct lang =
    let u := normalize_lc lang user in
    let c := normalize_lc lang correct in
    if bool_decide (u = []) || bool_decide (c = []) then (false, 0%Q)
    else if bool_decide (u = c) then (true, 1%Q)
    else if (Z.of_nat (length u) <=? 3) || (Z.of_nat (length c) <=? 3)
    then (false, similarity u c)
    else (Qle_bool FUZZY_THRESHOLD (similarity u c), similarity u c).
Proof.
  unfold is_close_enough, normalize.
  destruct (bool_decide (lang = py "de")); reflexivity.
Qed.

Ltac close_enough_cases :=
  rewrite is_close_enough_eq; cbn zeta;
  repeat case_bool_decide; cbn [orb];
  repeat match goal with
         | |- context [Z.leb ?x ?y] => destruct (Z.leb_spec x y)
         end; cbn [orb].

Lemma is_close_enough_fuzzy (user correct lang : str) :
  let u := normalize_lc lang user in
  let c := normalize_lc lang correct in
  u ≠ c -> (3 < length u)%nat -> (3 < length c)%nat ->
  is_close_enough_lc user correct lang
  = (Qle_bool FUZZY_THRESHOLD (similarity u c), similarity u c).
Proof.
  intros u c Hne Hu Hc. subst u c. close_enough_cases;
    try reflexivity; try congruence; try lia;
    match goal with E : _ = [] |- _ => rewrite E in *; cbn in *; lia end.
Qed.

Lemma is_close_enough_exact (user correct lang : str) :
  let u := normalize_lc lang user in
  let c := normalize_lc lang correct in
  u ≠ [] -> u = c -> is_close_enough_lc user correct lang = (true, 1%Q).
Proof.
  intros u c Hu Huc. subst u c. close_enough_cases;
    try reflexivity; congruence.
Qed.

Lemma is_close_enough_short (user correct lang : str) :
  let u := normalize_lc lang user in
  let c := normalize_lc lang correct in
  u ≠ [] -> c ≠ [] -> u ≠ c ->
  (length u <= 3)%nat ∨ (length c <= 3)%nat ->
  is_close_enough_lc user correct lang = (false, similarity u c).
Proof.
  intros u c Hu Hc Hne Hlen. subst u c. close_enough_cases;
    try reflexivity; try congruence; lia.
Qed.

Lemma is_close_enough_empty (user correct lang : str) :
  normalize_lc lang user = [] ∨ normalize_lc lang correct = [] ->
  is_close_enough_lc user correct lang = (false, 0%Q).
Proof.
  intros H. close_enough_cases; try reflexivity; tauto.
Qed.

End Grader.

(** C2: when the two normalized strings differ and both are longer than 3,
    the candidate is accepted exactly when the similarity is at least
    0.88, and the reported confidence is that similarity; 0.87 is below
    the threshold; "gehn" for "gehen" in German is accepted with
    similarity 8/9 although the normalized strings differ. *)
Theorem fuzzy_acceptance_threshold :
  (∀ (tables : case_tables) (user correct lang : str),
     let u := normalize tables lang user in
     let c := normalize tables lang correct in
     u ≠ c -> (3 < length u)%nat -> (3 < length c)%nat ->
     let r := is_close_enough tables user correct lang in
     (r.1 = true <-> (88 # 100 <= similarity u c)%Q)
     ∧ r.2 = similarity u c)
  ∧ Qle_bool FUZZY_THRESHOLD (87 # 100) = false
  ∧ is_close_enough latin_tables (py "gehn") (py "gehen") (py "de")
    = (true, (8 # 9)%Q)
  ∧ de_normalize latin_tables (py "gehn")
    ≠ de_normalize latin_tables (py "gehen").
Proof.
  split; [|split; [reflexivity|split; [vm_compute; reflexivity|]]].
  - intros tables user correct lang u c Hne Hu Hc r.
    subst r. rewrite (is_close_enough_fuzzy tables user correct lang Hne Hu Hc).
    fold u c. cbn [fst snd]. split; [|reflexivity].
    apply Qle_bool_iff.
  - vm_compute. discriminate.
Qed.

Lemma fuzzy_acceptance_threshold_witness :
  let u := normalize latin_tables (py "de") (py "gehn") in
  let c := normalize latin_tables (py "de") (py "gehen") in
  let r := is_close_enough latin_tables (py "gehn") (py "gehen") (py "de") in
  (r.1 = true <-> (88 # 100 <= similarity u c)%Q) ∧ r.2 = similarity u c.
Proof.
  apply (proj1 fuzzy_acceptance_threshold latin_tables
           (py "gehn") (py "gehen") (py "de")).
  - vm_compute. discriminate.
  - vm_compute. lia.
  - vm_compute. lia.
Defined.

(** C3: when neither normalized string is empty and one of them has at
    most 3 characters, the candidate is accepted exactly when the two are
    equal; an equal pair is accepted with confidence 1 whatever its
    length, an unequal short pair is refused and its similarity returned;
    "zu" for "du" in Turkish is refused. *)
Theorem short_pair_exact_only :
  (∀ (tables : case_tables) (user correct lang : str),
     let u := normalize tables lang user in
     let c := normalize tables lang correct in
     u ≠ [] -> c ≠ [] ->
     let r := is_close_enough tables user correct lang in
     (u = c -> r = (true, 1%Q))
     ∧ ((length u <= 3)%nat ∨ (length c <= 3)%nat ->
        (r.1 = true <-> u = c)
        ∧ (u ≠ c -> r = (false, similarity u c))))
  ∧ is_close_enough latin_tables (py "zu") (py "du") (py "tr")
    = (false, (1 # 2)%Q).
Proof.
  split; [|vm_compute; reflexivity].
  intros tables user correct lang u c Hu Hc r. subst r. split.
  - intros Huc. apply is_close_enough_exact; assumption.
  - intros Hlen. split.
    + split.
      * intros Hacc. destruct (decide (u = c)) as [E|Hne]; [exact E|].
        rewrite (is_close_enough_short tables user correct lang
                   Hu Hc Hne Hlen) in Hacc.
        discriminate Hacc.
      * intros Huc.
        rewrite (is_close_enough_exact tables user correct lang Hu Huc).
        reflexivity.
    + intros Hne. apply is_close_enough_short; assumption.
Qed.

Lemma short_pair_exact_only_witness :
  let u := normalize latin_tables (py "tr") (py "zu") in
  let c := normalize latin_tables (py "tr") (py "du") in
  let r := is_close_enough latin_tables (py "zu") (py "du") (py "tr") in
  (u = c -> r = (true, 1%Q))
  ∧ ((length u <= 3)%nat ∨ (length c <= 3)%nat ->
     (r.1 = true <-> u = c) ∧ (u ≠ c -> r = (false, similarity u c))).
Proof.
  apply (proj1 short_pair_exact_only latin_tables
           (py "zu") (py "du") (py "tr")).
  - vm_compute. discriminate.
  - vm_compute. discriminate.
Defined.

(** ** Normalizer *)

(** A character-wise rewriting [f] keeps the whitespace of a string when
    it leaves whitespace alone and turns every other character into a
    non-empty string without whitespace. *)
Definition keeps_space (f : char -> str) : Prop :=
  (∀ c, is_space c = true -> f c = [c])
  ∧ (∀ c, is_space c = false ->
       f c ≠ [] ∧ Forall (fun d => is_space d = false) (f c)).

Lemma rstrip_cons_nonspace (c : char) (s : str) :
  is_space c = false -> rstrip (c :: s) = c :: rstrip s.
Proof. intros Hc. cbn. rewrite Hc. destruct (rstrip s); reflexivity. Qed.

Lemma rstrip_cons_space (c : char) (s : str) :
  is_space c = true ->
  rstrip (c :: s) = if bool_decide (rstrip s = []) then [] else c :: rstrip s.
Proof. intros Hc. cbn. rewrite Hc. destruct (rstrip s); reflexivity. Qed.

Lemma lstrip_app_nonspace (l r : str) :
  l ≠ [] -> Forall (fun d => is_space d = false) l -> lstrip (l ++ r) = l ++ r.
Proof.
  intros Hl Hall. destruct l as [|c l]; [congruence|].
  inversion Hall as [|? ? Hc _]; subst. cbn. rewrite Hc. reflexivity.
Qed.

Lemma rstrip_app_nonspace (l r : str) :
  Forall (fun d => is_space d = false) l -> rstrip (l ++ r) = l ++ rstrip r.
Proof.
  induction 1 as [|c l Hc _ IH]; [reflexivity|].
  cbn [app]. rewrite rstrip_cons_nonspace by exact Hc. rewrite IH. reflexivity.
Qed.

Lemma sub_ws_app_nonspace (b : bool) (l r : str) :
  l ≠ [] -> Forall (fun d => is_space d = false) l ->
  sub_ws b (l ++ r) = l ++ sub_ws false r.
Proof.
  intros Hl Hall. revert b. induction Hall as [|c l Hc Hall IH]; [congruence|].
  intros b. cbn. rewrite Hc. f_equal.
  destruct l as [|c' l]; [reflexivity|]. apply IH. discriminate.
Qed.

Lemma rstrip_idemp (s : str) : rstrip (rstrip s) = rstrip s.
Proof.
  induction s as [|c s IH]; [reflexivity|].
  destruct (is_space c) eqn:Hc.
  - rewrite rstrip_cons_space by exact Hc. case_bool_decide as E; [reflexivity|].
    rewrite rstrip_cons_space by exact Hc. rewrite IH.
    rewrite bool_decide_eq_false_2 by exact E. reflexivity.
  - rewrite !rstrip_cons_nonspace by exact Hc. rewrite IH. reflexivity.
Qed.

Section FlatMapKeepsSpace.

Context (f : char -> str) (Hf : keeps_space f).

Lemma lstrip_flat_map (s : str) : lstrip (flat_map f s) = flat_map f (lstrip s).
Proof.
  destruct Hf as [Hsp Hns]. induction s as [|c s IH]; [reflexivity|].
  cbn. destruct (is_space c) eqn:Hc.
  - rewrite (Hsp c Hc). cbn. rewrite Hc. exact IH.
  - destruct (Hns c Hc) as [Hne Hall]. apply lstrip_app_nonspace; assumption.
Qed.

Lemma flat_map_nil_inv (s : str) : flat_map f s = [] -> rstrip s = [].
Proof.
  destruct Hf as [Hsp Hns]. induction s as [|c s IH]; [reflexivity|].
  cbn [flat_map]. intros H. apply app_eq_nil in H as [H1 H2].
  destruct (is_space c) eqn:Hc.
  - rewrite (Hsp c Hc) in H1. discriminate.
  - destruct (Hns c Hc) as [Hne _]. congruence.
Qed.

Lemma rstrip_flat_map (s : str) : rstrip (flat_map f s) = flat_map f (rstrip s).
Proof.
  destruct Hf as [Hsp Hns]. induction s as [|c s IH]; [reflexivity|].
  cbn [flat_map]. destruct (is_space c) eqn:Hc.
  - rewrite (Hsp c Hc). cbn [app]. rewrite !rstrip_cons_space by exact Hc.
    rewrite IH. case_bool_decide as E1; case_bool_decide as E2.
    + reflexivity.
    + exfalso. apply E2. rewrite <- rstrip_idemp.
      apply flat_map_nil_inv. exact E1.
    + exfalso. apply E1. rewrite E2. reflexivity.
    + cbn [flat_map]. rewrite (Hsp c Hc). reflexivity.
  - destruct (Hns c Hc) as [_ Hall].
    rewrite rstrip_app_nonspace by exact Hall.
    rewrite rstrip_cons_nonspace by exact Hc. rewrite IH. reflexivity.
Qed.

Lemma strip_flat_map (s : str) : strip (flat_map f s) = flat_map f (strip s).
Proof. unfold strip. rewrite lstrip_flat_map. apply rstrip_flat_map. Qed.

Lemma sub_ws_flat_map (b : bool) (s : str) :
  sub_ws b (flat_map f s) = flat_map f (sub_ws b s).
Proof.
  destruct Hf as [Hsp Hns]. revert b. induction s as [|c s IH]; [reflexivity|].
  intros b. cbn [flat_map]. destruct (is_space c) eqn:Hc.
  - rewrite (Hsp c Hc). cbn. rewrite Hc. destruct b.
    + apply IH.
    + cbn [flat_map]. rewrite (Hsp 32%N) by reflexivity. cbn. f_equal. apply IH.
  - destruct (Hns c Hc) as [Hne Hall].
    rewrite sub_ws_app_nonspace by assumption.
    cbn. rewrite Hc. cbn [flat_map]. f_equal. apply IH.
Qed.

End FlatMapKeepsSpace.

Lemma replace1_keeps_space (old : char) (new : str) :
  is_space old = false -> new ≠ [] ->
  Forall (fun d => is_space d = false) new ->
  keeps_space (fun c => if (c =? old)%N then new else [c]).
Proof.
  intros Hold Hne Hall. split; intros c Hc.
  - destruct (N.eqb_spec c old) as [->|_]; [congruence|reflexivity].
  - destruct (N.eqb_spec c old) as [->|_]; [split; assumption|].
    split; [discriminate|]. constructor; [exact Hc|constructor].
Qed.

(** Stripping and collapsing *)

Lemma lstrip_idemp (s : str) : lstrip (lstrip s) = lstrip s.
Proof.
  induction s as [|c s IH]; [reflexivity|].
  cbn. destruct (is_space c) eqn:Hc; [exact IH|]. cbn. rewrite Hc. reflexivity.
Qed.

Lemma lstrip_rstrip (s : str) : lstrip s = s -> lstrip (rstrip s) = rstrip s.
Proof.
  destruct s as [|c s]; [reflexivity|]. intros H.
  destruct (is_space c) eqn:Hc.
  - exfalso. cbn in H. rewrite Hc in H.
    assert (length (lstrip s) <= length s)%nat as Hlen.
    { clear. induction s as [|d s IH]; cbn; [lia|].
      destruct (is_space d); cbn; lia. }
    rewrite H in Hlen. cbn in Hlen. lia.
  - rewrite rstrip_cons_nonspace by exact Hc. cbn. rewrite Hc. reflexivity.
Qed.

Lemma lstrip_strip (s : str) : lstrip (strip s) = strip s.
Proof. unfold strip. apply lstrip_rstrip, lstrip_idemp. Qed.

Lemma rstrip_strip (s : str) : rstrip (strip s) = strip s.
Proof. unfold strip. apply rstrip_idemp. Qed.

Lemma strip_fixed (s : str) : lstrip s = s -> rstrip s = s -> strip s = s.
Proof. intros Hl Hr. unfold strip. rewrite Hl. exact Hr. Qed.

Lemma strip_idemp (s : str) : strip (strip s) = strip s.
Proof. apply strip_fixed; [apply lstrip_strip|apply rstrip_strip]. Qed.

Lemma sub_ws_nil_inv (b : bool) (s : str) : sub_ws b s = [] -> rstrip s = [].
Proof.
  revert b. induction s as [|c s IH]; [reflexivity|]. intros b H.
  cbn in H. destruct (is_space c) eqn:Hc; [|discriminate].
  destruct b; [|discriminate].
  rewrite rstrip_cons_space by exact Hc. rewrite (IH true H). reflexivity.
Qed.

Lemma lstrip_sub_ws (s : str) :
  lstrip s = s -> lstrip (sub_ws false s) = sub_ws false s.
Proof.
  destruct s as [|c s]; [reflexivity|]. intros H.
  destruct (is_space c) eqn:Hc.
  - exfalso. cbn in H. rewrite Hc in H.
    assert (length (lstrip s) <= length s)%nat as Hlen.
    { clear. induction s as [|d s IH]; cbn; [lia|].
      destruct (is_space d); cbn; lia. }
    rewrite H in Hlen. cbn in Hlen. lia.
  - cbn. rewrite Hc. cbn. rewrite Hc. reflexivity.
Qed.

Lemma rstrip_sub_ws (b : bool) (s : str) :
  rstrip s = s -> rstrip (sub_ws b s) = sub_ws b s.
Proof.
  revert b. induction s as [|c s IH]; [reflexivity|]. intros b H.
  destruct (is_space c) eqn:Hc.
  - rewrite rstrip_cons_space in H by exact Hc.
    case_bool_decide as E; [discriminate|].
    injection H as H. cbn. rewrite Hc. destruct b; [apply IH, H|].
    rewrite rstrip_cons_space by reflexivity. rewrite (IH true H).
    rewrite bool_decide_eq_false_2; [reflexivity|].
    intros E'. apply E. apply (sub_ws_nil_inv true). exact E'.
  - rewrite rstrip_cons_nonspace in H by exact Hc. injection H as H.
    cbn. rewrite Hc. rewrite rstrip_cons_nonspace by exact Hc.
    rewrite (IH false H). reflexivity.
Qed.

Lemma strip_collapse_strip (s : str) :
  strip (collapse_ws (strip s)) = collapse_ws (strip s).
Proof.
  unfold collapse_ws. apply strip_fixed.
  - apply lstrip_sub_ws, lstrip_strip.
  - apply rstrip_sub_ws, rstrip_strip.
Qed.

Lemma sub_ws_idemp (b b' : bool) (s : str) :
  implb b' b = true -> sub_ws b' (sub_ws b s) = sub_ws b s.
Proof.
  revert b b'. induction s as [|c s IH]; [reflexivity|]. intros b b' Hbb.
  cbn. destruct (is_space c) eqn:Hc.
  - destruct b.
    + apply IH. exact Hbb.
    + destruct b'; [discriminate|]. cbn. f_equal. apply IH. reflexivity.
  - cbn. rewrite Hc. f_equal. apply IH. reflexivity.
Qed.

Lemma collapse_ws_idemp (s : str) : collapse_ws (collapse_ws s) = collapse_ws s.
Proof. apply sub_ws_idemp. reflexivity. Qed.

(** Characters that a replacement removes *)

Lemma replace1_absent (old : char) (new s : str) :
  old ∉ s -> replace1 old new s = s.
Proof.
  induction s as [|c s IH]; [reflexivity|]. intros Hnot.
  apply not_elem_of_cons in Hnot as [Hne Hnot]. cbn.
  destruct (N.eqb_spec c old) as [->|_]; [congruence|].
  cbn. f_equal. apply IH, Hnot.
Qed.

Lemma replace1_not_elem (x old : char) (new s : str) :
  x ∉ new -> (x = old ∨ x ∉ s) -> x ∉ replace1 old new s.
Proof.
  intros Hnew Hs. induction s as [|c s IH]; [apply not_elem_of_nil|].
  cbn. apply not_elem_of_app. split.
  - destruct (N.eqb_spec c old) as [->|Hne]; [exact Hnew|].
    apply not_elem_of_cons. split; [|apply not_elem_of_nil].
    destruct Hs as [->|Hs]; [congruence|].
    apply not_elem_of_cons in Hs. tauto.
  - apply IH. destruct Hs as [->|Hs]; [left; reflexivity|].
    right. apply not_elem_of_cons in Hs. tauto.
Qed.

Lemma replace1_Forall (P : char -> Prop) (old : char) (new s : str) :
  Forall P new -> Forall P s -> Forall P (replace1 old new s).
Proof.
  intros Hnew. induction 1 as [|c s Hc _ IH]; [constructor|].
  cbn. apply Forall_app. split; [|exact IH].
  destruct (c =? old)%N; [exact Hnew|]. constructor; [exact Hc|constructor].
Qed.

Lemma lstrip_Forall (P : char -> Prop) (s : str) :
  Forall P s -> Forall P (lstrip s).
Proof.
  induction 1 as [|c s Hc Hs IH]; [constructor|].
  cbn. destruct (is_space c); [exact IH|]. constructor; assumption.
Qed.

Lemma rstrip_Forall (P : char -> Prop) (s : str) :
  Forall P s -> Forall P (rstrip s).
Proof.
  induction 1 as [|c s Hc Hs IH]; [constructor|].
  cbn. destruct (rstrip s).
  - destruct (is_space c); constructor; [exact Hc|constructor].
  - constructor; assumption.
Qed.

Lemma sub_ws_Forall (P : char -> Prop) (b : bool) (s : str) :
  P 32%N -> Forall P s -> Forall P (sub_ws b s).
Proof.
  intros H32 Hs. revert b. induction Hs as [|c s Hc Hs IH]; [constructor|].
  intros b. cbn. destruct (is_space c).
  - destruct b; [apply IH|]. constructor; [exact H32|apply IH].
  - constructor; [exact Hc|apply IH].
Qed.

Definition fold_umlauts (s : str) : str :=
  replace1 252 (py "ue")
    (replace1 246 (py "oe")
      (replace1 228 (py "ae")
        (replace1 223 (py "ss") s))).

(** A character that lowering leaves alone. *)
Definition lowered (tables : case_tables) (d : char) : Prop :=
  to_lower_full tables d = [d] ∧ d ≠ 931%N.

(** What the proofs take from the tables, all of it true of the
    runtime's: lowering leaves whitespace alone, turns any other
    character into a non-empty string without whitespace, and yields only
    characters that it leaves alone, as it does the two small sigmas and
    the letters of the four digraphs. *)
Definition tables_ok (tables : case_tables) : Prop :=
  keeps_space (to_lower_full tables)
  ∧ (∀ c d, d ∈ to_lower_full tables c -> lowered tables d)
  ∧ Forall (lowered tables) (py "aeosuσς").

Ltac eval_py :=
  repeat match goal with
         | |- context [Utf8.py ?x] =>
           let v := eval vm_compute in (Utf8.py x) in
           change (Utf8.py x) with v
         end.

Ltac eval_py_in H :=
  repeat match type of H with
         | context [Utf8.py ?x] =>
           let v := eval vm_compute in (Utf8.py x) in
           change (Utf8.py x) with v in H
         end.

Section LowerFacts.

Context (tables : case_tables).
Hypothesis Hspace : keeps_space (to_lower_full tables).

Definition lower_piece (cased_before : bool) (c : char) (rest : str) : str :=
  if (c =? 931)%N
  then [if cased_before && negb (cased_follows tables rest)
        then 962%N else 963%N]
  else to_lower_full tables c.

Lemma lower_from_cons (pc : bool) (c : char) (s : str) :
  lower_from tables pc (c :: s)
  = lower_piece pc c s
    ++ lower_from tables (if is_case_ignorable tables c then pc
                          else is_cased tables c) s.
Proof. reflexivity. Qed.

Lemma lower_piece_space (pc : bool) (c : char) (rest : str) :
  is_space c = true -> lower_piece pc c rest = [c].
Proof.
  intros Hc. unfold lower_piece.
  destruct (N.eqb_spec c 931) as [->|_]; [discriminate Hc|].
  apply Hspace. exact Hc.
Qed.

Lemma lower_piece_nonspace (pc : bool) (c : char) (rest : str) :
  is_space c = false ->
  lower_piece pc c rest ≠ []
  ∧ Forall (fun d => is_space d = false) (lower_piece pc c rest).
Proof.
  intros Hc. unfold lower_piece.
  destruct (N.eqb_spec c 931) as [->|_]; [|apply Hspace; exact Hc].
  split; [discriminate|]. destruct (_ && _); repeat constructor.
Qed.

Lemma lower_from_nil_inv (pc : bool) (s : str) :
  lower_from tables pc s = [] -> rstrip s = [].
Proof.
  revert pc. induction s as [|c s IH]; intros pc H; [reflexivity|].
  rewrite lower_from_cons in H. apply app_eq_nil in H as [H1 H2].
  destruct (is_space c) eqn:Hc.
  - rewrite rstrip_cons_space by exact Hc. rewrite (IH _ H2). reflexivity.
  - destruct (lower_piece_nonspace pc c s Hc) as [Hne _]. congruence.
Qed.

Lemma lstrip_lower_from (pc : bool) (s : str) :
  lstrip s = s -> lstrip (lower_from tables pc s) = lower_from tables pc s.
Proof.
  destruct s as [|c s]; [reflexivity|]. intros H.
  destruct (is_space c) eqn:Hc.
  - exfalso. cbn in H. rewrite Hc in H.
    assert (length (lstrip s) <= length s)%nat as Hlen.
    { clear. induction s as [|d s IH]; cbn; [lia|].
      destruct (is_space d); cbn; lia. }
    rewrite H in Hlen. cbn in Hlen. lia.
  - rewrite lower_from_cons.
    destruct (lower_piece_nonspace pc c s Hc) as [Hne Hall].
    apply lstrip_app_nonspace; assumption.
Qed.

Lemma rstrip_lower_from (pc : bool) (s : str) :
  rstrip s = s -> rstrip (lower_from tables pc s) = lower_from tables pc s.
Proof.
  revert pc. induction s as [|c s IH]; intros pc H; [reflexivity|].
  rewrite lower_from_cons. destruct (is_space c) eqn:Hc.
  - rewrite rstrip_cons_space in H by exact Hc.
    case_bool_decide as E; [discriminate|]. injection H as H.
    rewrite lower_piece_space by exact Hc. cbn [app].
    rewrite rstrip_cons_space by exact Hc. rewrite (IH _ H).
    rewrite bool_decide_eq_false_2; [reflexivity|].
    intros E'. apply E. apply (lower_from_nil_inv _ _ E').
  - rewrite rstrip_cons_nonspace in H by exact Hc. injection H as H.
    destruct (lower_piece_nonspace pc c s Hc) as [_ Hall].
    rewrite rstrip_app_nonspace by exact Hall. rewrite (IH _ H). reflexivity.
Qed.

Lemma strip_lower (s : str) :
  strip s = s -> strip (lower tables s) = lower tables s.
Proof.
  intros H. unfold lower.
  assert (lstrip s = s) as Hl by (rewrite <- H; apply lstrip_strip).
  assert (rstrip s = s) as Hr by (rewrite <- H; apply rstrip_strip).
  apply strip_fixed; [apply lstrip_lower_from|apply rstrip_lower_from];
    assumption.
Qed.

Lemma lower_from_fixed (pc : bool) (s : str) :
  Forall (lowered tables) s -> lower_from tables pc s = s.
Proof.
  intros Hs. revert pc. induction Hs as [|c s [Hc Hne] _ IH]; intros pc;
    [reflexivity|].
  rewrite lower_from_cons. unfold lower_piece.
  rewrite (proj2 (N.eqb_neq c 931) Hne). rewrite Hc, IH. reflexivity.
Qed.

Lemma tr_normalize_stripped (s : str) :
  strip (tr_normalize tables s) = tr_normalize tables s.
Proof.
  unfold tr_normalize. rewrite <- (strip_lower (strip s) (strip_idemp s)).
  apply strip_collapse_strip.
Qed.

Hypothesis Hlowered : ∀ c d, d ∈ to_lower_full tables c -> lowered tables d.
Hypothesis Hletters : Forall (lowered tables) (py "aeosuσς").

Lemma lowered_sigma : lowered tables 962%N ∧ lowered tables 963%N.
Proof.
  pose proof Hletters as H. eval_py_in H.
  repeat (apply Forall_cons in H as [? H]). split; assumption.
Qed.

Lemma lowered_space : lowered tables 32%N.
Proof.
  split; [|discriminate]. apply Hspace. reflexivity.
Qed.

Lemma lower_from_is_lowered (pc : bool) (s : str) :
  Forall (lowered tables) (lower_from tables pc s).
Proof.
  revert pc. induction s as [|c s IH]; intros pc; [constructor|].
  rewrite lower_from_cons. apply Forall_app. split; [|apply IH].
  unfold lower_piece. destruct (c =? 931)%N.
  - destruct lowered_sigma.
    destruct (_ && _); (constructor; [assumption|constructor]).
  - apply Forall_forall. intros d Hd. apply (Hlowered c). exact Hd.
Qed.

Lemma tr_normalize_is_lowered (s : str) :
  Forall (lowered tables) (tr_normalize tables s).
Proof.
  unfold tr_normalize, collapse_ws, lower.
  apply sub_ws_Forall; [apply lowered_space|apply lower_from_is_lowered].
Qed.

Lemma tr_normalize_idemp (s : str) :
  tr_normalize tables (tr_normalize tables s) = tr_normalize tables s.
Proof.
  unfold tr_normalize at 1.
  rewrite tr_normalize_stripped. unfold lower.
  rewrite (lower_from_fixed _ _ (tr_normalize_is_lowered s)).
  unfold tr_normalize. apply collapse_ws_idemp.
Qed.

Lemma de_normalize_eq (s : str) :
  de_normalize tables s = fold_umlauts (tr_normalize tables s).
Proof. reflexivity. Qed.

Lemma fold_umlauts_keeps (P : str -> str) (s : str) :
  (∀ f, keeps_space f -> ∀ t, P (flat_map f t) = flat_map f (P t)) ->
  P (fold_umlauts s) = fold_umlauts (P s).
Proof.
  intros HP. unfold fold_umlauts, replace1.
  rewrite !HP; [reflexivity| | | |];
    apply replace1_keeps_space; try reflexivity; try discriminate;
    vm_compute; repeat constructor.
Qed.

Ltac not_in_literal :=
  vm_compute; let H := fresh in
  intros H; repeat (apply elem_of_cons in H as [H|H]; [discriminate H|]);
  apply elem_of_nil in H; exact H.

Ltac not_in_replaced :=
  apply replace1_not_elem;
  [not_in_literal | first [left; reflexivity | right; not_in_replaced]].

Lemma fold_umlauts_clean (s : str) :
  Forall (fun x => x ∉ fold_umlauts s) [223; 228; 246; 252]%N.
Proof.
  unfold fold_umlauts.
  repeat (apply Forall_cons; split); [| | | |constructor]; not_in_replaced.
Qed.

Lemma fold_umlauts_idemp (s : str) :
  fold_umlauts (fold_umlauts s) = fold_umlauts s.
Proof.
  pose proof (fold_umlauts_clean s) as H.
  repeat (apply Forall_cons in H as [? H]).
  unfold fold_umlauts at 1.
  rewrite (replace1_absent 223 _ (fold_umlauts s)) by assumption.
  rewrite (replace1_absent 228 _ (fold_umlauts s)) by assumption.
  rewrite (replace1_absent 246 _ (fold_umlauts s)) by assumption.
  apply replace1_absent. assumption.
Qed.

Lemma de_normalize_idemp (s : str) :
  de_normalize tables (de_normalize tables s) = de_normalize tables s.
Proof.
  rewrite !de_normalize_eq.
  assert (tr_normalize tables (fold_umlauts (tr_normalize tables s))
          = fold_umlauts (tr_normalize tables s)) as ->;
    [|apply fold_umlauts_idemp].
  unfold tr_normalize at 1.
  rewrite (fold_umlauts_keeps strip) by (intros; apply strip_flat_map; assumption).
  rewrite tr_normalize_stripped. unfold lower.
  rewrite lower_from_fixed.
  - unfold collapse_ws.
    rewrite (fold_umlauts_keeps (sub_ws false))
      by (intros; apply sub_ws_flat_map; assumption).
    f_equal. apply collapse_ws_idemp.
  - unfold fold_umlauts.
    pose proof Hletters as Hd. eval_py_in Hd.
    repeat (apply Forall_cons in Hd as [? Hd]).
    repeat (apply replace1_Forall;
            [eval_py; repeat (apply List.Forall_cons; [assumption|]);
             apply List.Forall_nil|]).
    apply tr_normalize_is_lowered.
Qed.

End LowerFacts.

(** The Latin and Greek tables have what the proofs ask of the tables. *)

Lemma is_space_spec (c : char) :
  is_space c = true <->
  (9 <= c <= 13 ∨ 28 <= c <= 32 ∨ c = 133 ∨ c = 160 ∨ c = 5760
   ∨ 8192 <= c <= 8202 ∨ c = 8232 ∨ c = 8233 ∨ c = 8239 ∨ c = 8287
   ∨ c = 12288)%N.
Proof.
  unfold is_space.
  rewrite !orb_true_iff, !andb_true_iff, !N.leb_le, !N.eqb_eq. tauto.
Qed.

Lemma is_space_false_spec (c : char) :
  ¬ (9 <= c <= 13 ∨ 28 <= c <= 32 ∨ c = 133 ∨ c = 160 ∨ c = 5760
     ∨ 8192 <= c <= 8202 ∨ c = 8232 ∨ c = 8233 ∨ c = 8239 ∨ c = 8287
     ∨ c = 12288)%N ->
  is_space c = false.
Proof.
  intros H. destruct (is_space c) eqn:E; [|reflexivity].
  apply is_space_spec in E. contradiction.
Qed.

Lemma forall_below (P : char -> bool) (n : nat) :
  forallb P (N.of_nat <$> seq 0 n) = true ->
  ∀ c, (c < N.of_nat n)%N -> P c = true.
Proof.
  intros H c Hc. rewrite forallb_forall in H. apply H.
  apply list_elem_of_In, list_elem_of_fmap. exists (N.to_nat c).
  split; [lia|]. apply elem_of_seq. lia.
Qed.

Lemma latin_lower_char_high (c : char) :
  (384 <= c)%N ->
  latin_lower_char c
  = (if (913 <=? c) && (c <=? 937) && negb (c =? 930) then [c + 32]
     else if c =? 7838 then [223] else [c])%N.
Proof.
  intros Hc. unfold latin_lower_char.
  repeat match goal with
         | |- context [(c <=? ?k)%N] =>
           rewrite (proj2 (N.leb_gt c k)) by lia
         | |- context [(c =? ?k)%N] =>
           rewrite (proj2 (N.eqb_neq c k)) by lia
         end.
  rewrite ?andb_false_r. cbn [andb orb negb]. reflexivity.
Qed.

Definition low_space_ok (c : char) : bool :=
  implb (is_space c) (bool_decide (latin_lower_char c = [c])).

Definition low_nonspace_ok (c : char) : bool :=
  is_space c
  || bool_decide (latin_lower_char c ≠ [])
     && forallb (fun d => negb (is_space d)) (latin_lower_char c).

Definition low_lowered_ok (c : char) : bool :=
  forallb (fun d => bool_decide (latin_lower_char d = [d])
                    && negb (d =? 931)%N)
          (latin_lower_char c).

Lemma latin_low_checks :
  forallb (fun c => low_space_ok c && low_nonspace_ok c && low_lowered_ok c)
          (N.of_nat <$> seq 0 384) = true.
Proof. vm_compute. reflexivity. Qed.

Lemma latin_low (c : char) :
  (c < 384)%N ->
  low_space_ok c = true ∧ low_nonspace_ok c = true ∧ low_lowered_ok c = true.
Proof.
  intros Hc. pose proof (forall_below _ 384%nat latin_low_checks c Hc) as H.
  cbn beta in H. apply andb_true_iff in H as [H H3].
  apply andb_true_iff in H as [H1 H2]. tauto.
Qed.

Lemma latin_keeps_space : keeps_space latin_lower_char.
Proof.
  split; intros c Hc.
  - destruct (N.lt_ge_cases c 384) as [Hlow|Hhigh].
    + destruct (latin_low c Hlow) as (H & _ & _). unfold low_space_ok in H.
      rewrite Hc in H. apply bool_decide_eq_true in H. exact H.
    + rewrite latin_lower_char_high by exact Hhigh.
      apply is_space_spec in Hc.
      rewrite (proj2 (N.eqb_neq c 7838)) by lia.
      destruct (N.leb_spec 913 c), (N.leb_spec c 937); cbn [andb];
        try reflexivity. lia.
  - destruct (N.lt_ge_cases c 384) as [Hlow|Hhigh].
    + destruct (latin_low c Hlow) as (_ & H & _). unfold low_nonspace_ok in H.
      rewrite Hc in H. cbn [orb] in H.
      apply andb_true_iff in H as [H1 H2]. apply bool_decide_eq_true in H1.
      split; [exact H1|]. apply Forall_forall. intros d Hd.
      rewrite forallb_forall in H2. apply list_elem_of_In in Hd.
      apply negb_true_iff. apply H2. exact Hd.
    + rewrite latin_lower_char_high by exact Hhigh.
      destruct ((913 <=? c) && (c <=? 937) && negb (c =? 930))%N eqn:G.
      * apply andb_true_iff in G as [G _]. apply andb_true_iff in G as [G1 G2].
        apply N.leb_le in G1, G2. split; [discriminate|].
        constructor; [|constructor]. apply is_space_false_spec. lia.
      * destruct (N.eqb_spec c 7838).
        -- split; [discriminate|]. constructor; [reflexivity|constructor].
        -- split; [discriminate|]. constructor; [exact Hc|constructor].
Qed.

Lemma latin_lowered (c d : char) :
  d ∈ latin_lower_char c -> lowered latin_tables d.
Proof.
  unfold lowered. cbn [to_lower_full latin_tables].
  destruct (N.lt_ge_cases c 384) as [Hlow|Hhigh].
  - destruct (latin_low c Hlow) as (_ & _ & H). unfold low_lowered_ok in H.
    rewrite forallb_forall in H. intros Hd.
    apply list_elem_of_In in Hd. apply H in Hd.
    apply andb_true_iff in Hd as [H1 H2]. apply bool_decide_eq_true in H1.
    apply negb_true_iff, N.eqb_neq in H2. split; assumption.
  - rewrite (latin_lower_char_high c Hhigh).
    destruct ((913 <=? c) && (c <=? 937) && negb (c =? 930))%N eqn:G.
    + apply andb_true_iff in G as [G _]. apply andb_true_iff in G as [G1 G2].
      apply N.leb_le in G1, G2. intros Hd.
      apply list_elem_of_singleton in Hd. subst d. split; [|lia].
      rewrite latin_lower_char_high by lia.
      rewrite (proj2 (N.leb_gt (c + 32) 937)) by lia.
      rewrite (proj2 (N.eqb_neq (c + 32) 7838)) by lia.
      rewrite andb_false_r. reflexivity.
    + destruct (N.eqb_spec c 7838) as [->|Hne]; intros Hd;
        apply list_elem_of_singleton in Hd; subst d.
      * split; [reflexivity|discriminate].
      * split.
        -- rewrite (latin_lower_char_high c Hhigh), G.
           rewrite (proj2 (N.eqb_neq c 7838)) by exact Hne. reflexivity.
        -- intros ->. discriminate G.
Qed.

Lemma latin_tables_ok : tables_ok latin_tables.
Proof.
  split; [exact latin_keeps_space|]. split; [exact latin_lowered|].
  eval_py. repeat (apply List.Forall_cons; [split; [reflexivity|discriminate]|]).
  apply List.Forall_nil.
Qed.

(** C6: both normalizers are idempotent on every string, for lower-casing
    as the runtime does it, final sigma included, over any tables that
    leave whitespace alone, turn any other character into a non-empty
    string without whitespace and yield only characters they leave alone,
    the two small sigmas and the letters a, e, o, s, u among them. *)
Theorem normalize_idempotent (tables : case_tables) :
  tables_ok tables ->
  ∀ x : str,
    de_normalize tables (de_normalize tables x) = de_normalize tables x
    ∧ tr_normalize tables (tr_normalize tables x) = tr_normalize tables x.
Proof.
  intros (Hsp & Hlow & Hlet) x. split.
  - apply de_normalize_idemp; assumption.
  - apply tr_normalize_idemp; assumption.
Qed.

Lemma normalize_idempotent_witness :
  de_normalize latin_tables
    (de_normalize latin_tables (py "  Schöne   GRÜẞE, ΟΔΟΣ "))
  = de_normalize latin_tables (py "  Schöne   GRÜẞE, ΟΔΟΣ ")
  ∧ tr_normalize latin_tables
      (tr_normalize latin_tables (py "  Schöne   GRÜẞE, ΟΔΟΣ "))
    = tr_normalize latin_tables (py "  Schöne   GRÜẞE, ΟΔΟΣ ").
Proof.
  apply (normalize_idempotent latin_tables latin_tables_ok).
Defined.


(** ** Translation-list parsing *)

(** The parser as the specification words it: cut the input at every
    separator, trim the parts, drop the empty ones, and of the entries
    with one key keep the first. *)
Fixpoint spec_split (cur : str) (s : str) : list str :=
  match s with
  | [] => [cur]
  | c :: s' =>
    if is_sep c then cur :: spec_split [] s' else spec_split (cur ++ [c]) s'
  end.

Fixpoint spec_first_seen (key : str -> str) (l : list str) : list str :=
  match l with
  | [] => []
  | t :: l' => t :: filter (fun t' => key t' ≠ key t) (spec_first_seen key l')
  end.

Definition spec_parse (key : str -> str) (raw : str) : list str :=
  spec_first_seen key (filter (fun p => p ≠ []) (strip <$> spec_split [] raw)).

Lemma strip_nil : strip [] = [].
Proof. reflexivity. Qed.

Lemma re_split_spec_split (in_run : bool) (cur s : str) :
  (in_run = true -> cur = []) ->
  filter (fun p => p ≠ []) (strip <$> re_split in_run cur s)
  = filter (fun p => p ≠ []) (strip <$> spec_split cur s).
Proof.
  revert in_run cur. induction s as [|c s IH]; intros in_run cur Hrun;
    [reflexivity|].
  cbn. destruct (is_sep c).
  - destruct in_run.
    + rewrite (Hrun eq_refl). rewrite fmap_cons, strip_nil.
      rewrite filter_cons_False by (intros H; apply H; reflexivity).
      apply IH. reflexivity.
    + rewrite !fmap_cons, !filter_cons. rewrite (IH true []) by reflexivity.
      reflexivity.
  - apply IH. discriminate.
Qed.

Lemma foldl_keep_part (out : list str) (parts : list str) :
  foldl keep_part out parts
  = out ++ filter (fun p => p ≠ []) (strip <$> parts).
Proof.
  revert out. induction parts as [|p parts IH]; intros out.
  - cbn. rewrite app_nil_r. reflexivity.
  - cbn [foldl]. rewrite IH. unfold keep_part. rewrite fmap_cons, filter_cons.
    case_bool_decide as E; destruct (decide (strip p ≠ [])) as [E'|E'];
      try tauto.
    rewrite <- app_assoc. reflexivity.
Qed.

Section FirstSeen.

Context (key : str -> str).

Lemma spec_first_seen_filter (P Q : str -> Prop) `{!∀ t, Decision (Q t)}
    (l : list str) :
  (∀ t, Q t <-> P (key t)) ->
  spec_first_seen key (filter Q l) = filter Q (spec_first_seen key l).
Proof.
  intros HQ. induction l as [|t l IH]; [reflexivity|].
  cbn [spec_first_seen]. rewrite !filter_cons.
  destruct (decide (Q t)) as [Ht|Ht].
  - cbn [spec_first_seen]. rewrite IH. f_equal.
    rewrite !list_filter_filter. apply list_filter_iff.
    intros t'. split; intros [H1 H2]; split; assumption.
  - rewrite IH. rewrite list_filter_filter. apply list_filter_iff.
    intros t'. split; [|intros [H1 H2]; exact H1]. intros Ht'.
    split; [exact Ht'|].
    intros E. apply Ht. apply HQ. rewrite <- E. apply HQ. exact Ht'.
Qed.

Lemma spec_first_seen_elem (l : list str) (t : str) :
  t ∈ spec_first_seen key l -> t ∈ l.
Proof.
  revert t. induction l as [|x l IH]; intros t Ht; [exact Ht|].
  cbn in Ht. apply elem_of_cons in Ht as [->|Ht]; [left|].
  apply list_elem_of_filter in Ht as [_ Ht]. right. apply IH, Ht.
Qed.

Lemma spec_first_seen_NoDup (l : list str) :
  NoDup (key <$> spec_first_seen key l).
Proof.
  induction l as [|x l IH]; [constructor|].
  cbn [spec_first_seen]. rewrite fmap_cons. constructor.
  - intros Hin. apply list_elem_of_fmap in Hin as (y & Hy & Hin).
    apply list_elem_of_filter in Hin as [Hne _]. congruence.
  - apply (sublist_NoDup _ _ IH).
    apply fmap_sublist, sublist_filter.
Qed.

Lemma spec_first_seen_covers (l : list str) (t : str) :
  t ∈ l -> ∃ t', t' ∈ spec_first_seen key l ∧ key t' = key t.
Proof.
  induction l as [|x l IH]; intros Ht; [inversion Ht|].
  apply elem_of_cons in Ht as [->|Ht].
  - exists x. split; [left|reflexivity].
  - destruct (IH Ht) as (t' & Ht' & Hk).
    destruct (decide (key t' = key x)) as [E|E].
    + exists x. split; [left|congruence].
    + exists t'. split; [|exact Hk]. cbn. right.
      apply list_elem_of_filter. split; assumption.
Qed.

End FirstSeen.

Lemma filter_all {A} (P : A -> Prop) `{!∀ x, Decision (P x)} (l : list A) :
  (∀ x, P x) -> filter P l = l.
Proof.
  intros HP. induction l as [|x l IH]; [reflexivity|].
  rewrite filter_cons_True by apply HP. f_equal. exact IH.
Qed.

Lemma foldl_keep_new (tables : case_tables) (seen : gset (list N))
    (uniq l : list str) :
  (foldl (keep_new tables) (seen, uniq) l).2
  = uniq ++ spec_first_seen (tr_normalize tables)
              (filter (fun t => tr_normalize tables t ∉ seen) l).
Proof.
  revert seen uniq. induction l as [|t l IH]; intros seen uniq.
  - cbn. rewrite app_nil_r. reflexivity.
  - cbn [foldl]. unfold keep_new at 2. cbn [fst snd]. rewrite filter_cons.
    case_bool_decide as E.
    + rewrite decide_False by tauto. apply IH.
    + rewrite decide_True by exact E. rewrite IH. cbn [spec_first_seen].
      rewrite <- app_assoc. cbn [app]. do 2 f_equal.
      etransitivity;
        [|apply (spec_first_seen_filter (tr_normalize tables)
                   (fun k => k ≠ tr_normalize tables t));
          intros; reflexivity].
      f_equal. rewrite list_filter_filter. apply list_filter_iff.
      intros t'. rewrite not_elem_of_union, not_elem_of_singleton.
      reflexivity.
Qed.

Lemma parse_translations_refines (tables : case_tables)
    (raw : option str) :
  parse_translations tables raw
  = spec_parse (tr_normalize tables) (default [] raw).
Proof.
  unfold parse_translations, spec_parse.
  rewrite foldl_keep_part. cbn [app].
  rewrite foldl_keep_new.
  cbn [app]. rewrite re_split_spec_split by discriminate.
  f_equal. apply filter_all. intros t. apply not_elem_of_empty.
Qed.

(** [s.split()]: the maximal runs of characters that are not whitespace.
    [split_ws_r s] also tells whether [s] begins with such a character. *)
Fixpoint split_ws_r (s : str) : bool * list str :=
  match s with
  | [] => (false, [])
  | c :: s' =>
    let r := split_ws_r s' in
    if is_space c then (false, r.2)
    else (true,
          if r.1 then match r.2 with
                      | w :: ws => (c :: w) :: ws
                      | [] => [[c]]
                      end
          else [c] :: r.2)
  end.

Definition split_ws (s : str) : list str := (split_ws_r s).2.

(** [" ".join(ws)] *)
Fixpoint unwords (ws : list str) : str :=
  match ws with
  | [] => []
  | w :: ws' =>
    match ws' with
    | [] => w
    | _ => w ++ 32%N :: unwords ws'
    end
  end.

(** The key of an entry as the specification words it: trimmed,
    lower-cased, and with every run of whitespace between its words
    counted as one space. *)
Definition spec_key (tables : case_tables) (t : str) : str :=
  unwords (split_ws (lower tables (strip t))).

Lemma unwords_cons (c : char) (w : str) (ws : list str) :
  unwords ((c :: w) :: ws) = c :: unwords (w :: ws).
Proof. cbn. destruct ws; reflexivity. Qed.

Lemma words_r_rstrip (x : str) :
  let r := split_ws_r x in
  (r.2 = [] <-> rstrip x = [])
  ∧ (r.1 = true -> r.2 ≠ [])
  ∧ sub_ws true (rstrip x) = unwords r.2
  ∧ sub_ws false (rstrip x)
    = if r.1 then unwords r.2
      else match r.2 with [] => [] | _ => 32%N :: unwords r.2 end.
Proof.
  induction x as [|c x IH]; cbn zeta in *.
  - cbn. repeat split; try reflexivity; discriminate.
  - destruct IH as (Hnil & Hopen & H1 & H2). cbn [split_ws_r].
    destruct (split_ws_r x) as [op ws]. cbn [fst snd] in *.
    destruct (is_space c) eqn:Hc; cbn [fst snd].
    + rewrite rstrip_cons_space by exact Hc. destruct ws as [|w ws].
      * rewrite (proj1 Hnil eq_refl).
        rewrite bool_decide_eq_true_2 by reflexivity.
        repeat split; try reflexivity; discriminate.
      * rewrite bool_decide_eq_false_2
          by (intros E; apply Hnil in E; discriminate).
        cbn [sub_ws]. rewrite Hc, H1.
        repeat split; try reflexivity; discriminate.
    + rewrite rstrip_cons_nonspace by exact Hc. cbn [sub_ws]. rewrite Hc.
      rewrite H2. clear H1 H2. destruct op.
      * destruct ws as [|w ws]; [exfalso; apply Hopen; reflexivity|].
        rewrite unwords_cons.
        repeat split; try reflexivity; discriminate.
      * destruct ws as [|w ws]; cbn;
          repeat split; try reflexivity; discriminate.
Qed.

Lemma sub_ws_strip (x : str) :
  sub_ws false (rstrip (lstrip x)) = sub_ws true (rstrip x).
Proof.
  induction x as [|c x IH]; [reflexivity|].
  cbn [lstrip]. destruct (is_space c) eqn:Hc.
  - rewrite IH. rewrite rstrip_cons_space by exact Hc.
    case_bool_decide as E; [rewrite E; reflexivity|].
    cbn [sub_ws]. rewrite Hc. reflexivity.
  - rewrite rstrip_cons_nonspace by exact Hc. cbn [sub_ws]. rewrite Hc.
    reflexivity.
Qed.

Lemma collapse_strip_words (x : str) :
  collapse_ws (strip x) = unwords (split_ws x).
Proof.
  unfold collapse_ws, strip, split_ws. rewrite sub_ws_strip.
  apply (words_r_rstrip x).
Qed.

(** A word: not empty and without whitespace. *)
Definition wordlike (w : str) : Prop :=
  w ≠ [] ∧ Forall (fun d => is_space d = false) w.

Lemma words_r_wordlike (x : str) : Forall wordlike (split_ws_r x).2.
Proof.
  induction x as [|c x IH]; [constructor|]. cbn [split_ws_r].
  destruct (is_space c) eqn:Hc; cbn [fst snd]; [exact IH|].
  assert (wordlike [c]) as H1
    by (split; [discriminate|constructor; [exact Hc|constructor]]).
  destruct (split_ws_r x) as [op ws]. cbn [fst snd] in *.
  destruct op; [|constructor; assumption].
  destruct ws as [|w ws]; [constructor; [exact H1|constructor]|].
  inversion IH as [|? ? [Hw1 Hw2] Hws]; subst.
  constructor; [|exact Hws]. split; [discriminate|].
  constructor; assumption.
Qed.

Lemma words_r_word_app (w s : str) :
  wordlike w ->
  split_ws_r (w ++ 32%N :: s) = (true, w :: (split_ws_r s).2).
Proof.
  intros [Hne Hall]. induction Hall as [|c w Hc Hall IH]; [congruence|].
  cbn [app split_ws_r]. rewrite Hc. destruct w as [|c' w].
  - cbn [app split_ws_r]. cbn. reflexivity.
  - rewrite IH by discriminate. reflexivity.
Qed.

Lemma words_r_word (w : str) : wordlike w -> split_ws_r w = (true, [w]).
Proof.
  intros [Hne Hall]. induction Hall as [|c w Hc Hall IH]; [congruence|].
  cbn [split_ws_r]. rewrite Hc. destruct w as [|c' w]; [reflexivity|].
  rewrite IH by discriminate. reflexivity.
Qed.

Lemma words_unwords (ws : list str) :
  Forall wordlike ws -> split_ws (unwords ws) = ws.
Proof.
  unfold split_ws. induction 1 as [|w ws Hw Hws IH]; [reflexivity|].
  cbn [unwords]. destruct ws as [|w' ws].
  - rewrite words_r_word by exact Hw. reflexivity.
  - rewrite words_r_word_app by exact Hw. cbn [snd]. rewrite IH.
    reflexivity.
Qed.

Lemma spec_key_words (tables : case_tables) (t t' : str) :
  spec_key tables t = spec_key tables t'
  <-> split_ws (lower tables (strip t)) = split_ws (lower tables (strip t')).
Proof.
  unfold spec_key. split; [|intros ->; reflexivity]. intros H.
  rewrite <- (words_unwords (split_ws (lower tables (strip t))))
    by apply words_r_wordlike.
  rewrite H. apply words_unwords, words_r_wordlike.
Qed.

Lemma tr_normalize_spec_key (tables : case_tables) (t : str) :
  keeps_space (to_lower_full tables) ->
  tr_normalize tables t = spec_key tables t.
Proof.
  intros Hsp. unfold tr_normalize, spec_key.
  rewrite <- collapse_strip_words.
  rewrite (strip_lower tables Hsp (strip t) (strip_idemp t)). reflexivity.
Qed.

Lemma spec_first_seen_ext (key key' : str -> str) (l : list str) :
  (∀ t, key t = key' t) ->
  spec_first_seen key l = spec_first_seen key' l.
Proof.
  intros Hk. induction l as [|t l IH]; [reflexivity|].
  cbn. rewrite IH. f_equal. apply list_filter_iff. intros t'.
  rewrite !Hk. reflexivity.
Qed.

(** C8: the parser cuts the input at the separators [;], [,] and [/],
    trims the parts, drops the empty ones and keeps, in input order and
    as first written, the first entry of every key; two entries have one
    key exactly when they have the same words after trimming and
    lower-casing, however the words are spaced; "elma, elma ağacı; elma"
    gives "elma" and "elma ağacı". *)
Theorem parse_translations_spec :
  (∀ (tables : case_tables) (raw : option str),
     keeps_space (to_lower_full tables) ->
     let entries := filter (fun p => p ≠ [])
                           (strip <$> spec_split [] (default [] raw)) in
     let r := parse_translations tables raw in
     r = spec_first_seen (spec_key tables) entries
     ∧ sublist r entries
     ∧ (∀ t t', t ∈ r -> t' ∈ r ->
          split_ws (lower tables (strip t)) = split_ws (lower tables (strip t')) ->
          t = t')
     ∧ (∀ t, t ∈ entries ->
          ∃ t', t' ∈ r
                ∧ split_ws (lower tables (strip t'))
                  = split_ws (lower tables (strip t))))
  ∧ parse_translations latin_tables (Some (py "elma, elma ağacı; elma"))
    = [py "elma"; py "elma ağacı"]
  ∧ parse_translations latin_tables
      (Some (py "Elma, elma ,ELMA; el  ma/el ma/ EL MA ;İzmir,izmir"))
    = [py "Elma"; py "el  ma"; py "İzmir"; py "izmir"]
  ∧ parse_translations latin_tables (Some (py "ΟΔΟΣ, οδος; οδοσ"))
    = [py "ΟΔΟΣ"; py "οδοσ"]
  ∧ parse_translations latin_tables (Some (py " ;,/ , ")) = []
  ∧ parse_translations latin_tables None = [].
Proof.
  split; [|repeat split; vm_compute; reflexivity].
  intros tables raw Hsp entries r.
  assert (r = spec_first_seen (spec_key tables) entries) as Hr.
  { subst r. rewrite parse_translations_refines. unfold spec_parse.
    fold entries. apply spec_first_seen_ext. intros t.
    apply tr_normalize_spec_key. exact Hsp. }
  split; [exact Hr|]. rewrite Hr. split; [|split].
  - clear. induction entries as [|x l IH]; [constructor|].
    cbn. constructor. etransitivity; [apply sublist_filter|exact IH].
  - intros t t' Ht Ht' Hw. apply spec_key_words in Hw.
    pose proof (spec_first_seen_NoDup (spec_key tables) entries) as Hnd.
    apply list_elem_of_lookup in Ht as [i Hi].
    apply list_elem_of_lookup in Ht' as [j Hj].
    assert (i = j) as ->.
    { apply (NoDup_lookup _ i j (spec_key tables t) Hnd);
        rewrite list_lookup_fmap; [rewrite Hi|rewrite Hj, Hw]; reflexivity. }
    congruence.
  - intros t Ht.
    destruct (spec_first_seen_covers (spec_key tables) entries t Ht)
      as (t' & Ht' & Hk).
    exists t'. split; [exact Ht'|]. apply spec_key_words. exact Hk.
Qed.

Lemma parse_translations_spec_witness :
  let raw := Some (py "Elma, elma ,ELMA; el  ma/el ma") in
  let entries := filter (fun p => p ≠ [])
                   (strip <$> spec_split [] (default [] raw)) in
  let r := parse_translations latin_tables raw in
  r = spec_first_seen (spec_key latin_tables) entries
  ∧ sublist r entries
  ∧ (∀ t t', t ∈ r -> t' ∈ r ->
       split_ws (lower latin_tables (strip t))
       = split_ws (lower latin_tables (strip t')) ->
       t = t')
  ∧ (∀ t, t ∈ entries ->
       ∃ t', t' ∈ r
             ∧ split_ws (lower latin_tables (strip t'))
               = split_ws (lower latin_tables (strip t))).
Proof.
  apply (proj1 parse_translations_spec latin_tables
           (Some (py "Elma, elma ,ELMA; el  ma/el ma")) latin_keeps_space).
Defined.

(** ** The translation store *)

Definition demo_word : word :=
  {| german := py "der Apfel"; example := None; notes := None; box := 1;
     correct_count := 0; wrong_count := 0; created_at := 0; updated_at := 0;
     last_seen_at := None; next_due_at := 0 |}.

Definition demo_db : db :=
  {| words := {[1 := demo_word]};
     translations :=
       [{| word_id := 1; turkish := py "elma"; tr_created_at := 0 |}] |}.

Definition row_key (r : translation) : Z * str := (word_id r, turkish r).

Definition new_row (ts id : Z) (t : str) : translation :=
  {| word_id := id; turkish := t; tr_created_at := ts |}.

Lemma db_eta (d : db) :
  {| words := words d; translations := translations d |} = d.
Proof. destruct d. reflexivity. Qed.

Lemma get_translations_app (d : db) (id : Z) (rows : list translation) :
  get_translations {| words := words d; translations := translations d ++ rows |} id
  = get_translations d id ++ (turkish <$> filter (fun r => word_id r = id) rows).
Proof.
  unfold get_translations. cbn [translations].
  rewrite filter_app, fmap_app. reflexivity.
Qed.

Lemma not_stored_iff (d : db) (id : Z) (t : str) :
  Forall (fun r => ¬ (word_id r = id ∧ turkish r = t)) (translations d)
  <-> t ∉ get_translations d id.
Proof.
  unfold get_translations. rewrite Forall_forall. split.
  - intros Hall Hin. apply list_elem_of_fmap in Hin as (r & -> & Hr).
    apply list_elem_of_filter in Hr as [Hid Hr].
    apply (Hall r Hr). split; [exact Hid|reflexivity].
  - intros Hnot r Hr [Hid Ht]. apply Hnot. apply list_elem_of_fmap.
    exists r. split; [symmetry; exact Ht|].
    apply list_elem_of_filter. split; assumption.
Qed.

Lemma insert_translation_done (ts id : Z) (d : db) (t : str) :
  fits_int64 id = true ->
  Forall (fun c => is_surrogate c = false) t ->
  insert_translation ts id d t
  = Done (if bool_decide (is_Some (words d !! id))
             && bool_decide (t ∉ get_translations d id)
          then {| words := words d;
                  translations := translations d ++ [new_row ts id t] |}
          else d).
Proof.
  intros Hid Ht. unfold insert_translation, bind_error. rewrite Hid.
  cbn [negb].
  assert (existsb is_surrogate t = false) as ->.
  { clear -Ht. induction Ht as [|c t Hc _ IH]; [reflexivity|].
    cbn. rewrite Hc, IH. reflexivity. }
  f_equal. destruct (bool_decide (is_Some _)); [|reflexivity]. cbn [andb].
  rewrite (bool_decide_ext _ _ (not_stored_iff d id t)). reflexivity.
Qed.

Lemma filter_ext_in {A} (P Q : A -> Prop) `{!∀ x, Decision (P x)}
    `{!∀ x, Decision (Q x)} (l : list A) :
  (∀ x, x ∈ l -> (P x <-> Q x)) -> filter P l = filter Q l.
Proof.
  induction l as [|x l IH]; intros Hext; [reflexivity|].
  rewrite !filter_cons.
  rewrite IH by (intros y Hy; apply Hext; right; exact Hy).
  pose proof (Hext x ltac:(left)) as Hx.
  destruct (decide (P x)) as [HP|HP], (decide (Q x)) as [HQ|HQ];
    try reflexivity; tauto.
Qed.

Lemma insert_all_spec (ts id : Z) (trs : list str) (d : db) :
  fits_int64 id = true ->
  Forall (Forall (fun c => is_surrogate c = false)) trs ->
  NoDup trs ->
  insert_all ts id d trs
  = Done {| words := words d;
            translations :=
              translations d
              ++ (new_row ts id
                  <$> (if bool_decide (is_Some (words d !! id))
                       then filter (fun t => t ∉ get_translations d id) trs
                       else [])) |}.
Proof.
  intros Hid Hsur Hnd. revert d.
  induction trs as [|t trs IH]; intros d.
  - cbn. destruct (bool_decide _); cbn; rewrite app_nil_r, db_eta;
      reflexivity.
  - apply Forall_cons in Hsur as [Ht Hsur].
    apply NoDup_cons in Hnd as [Hnotin Hnd].
    cbn [insert_all]. rewrite insert_translation_done by assumption.
    destruct (decide (is_Some (words d !! id))) as [Hex|Hex];
      [rewrite (bool_decide_eq_true_2 _ Hex)
      |rewrite (bool_decide_eq_false_2 _ Hex)]; cbn [andb].
    2:{ rewrite (IH Hsur Hnd). rewrite (bool_decide_eq_false_2 _ Hex).
        reflexivity. }
    destruct (decide (t ∉ get_translations d id)) as [Hst|Hst];
      [rewrite (bool_decide_eq_true_2 _ Hst)
      |rewrite (bool_decide_eq_false_2 _ Hst)].
    + rewrite (IH Hsur Hnd). cbn [words translations].
      rewrite (bool_decide_eq_true_2 _ Hex).
      rewrite filter_cons_True by exact Hst.
      rewrite fmap_cons, <- app_assoc. cbn [app].
      do 2 f_equal. f_equal. f_equal. f_equal. apply filter_ext_in. intros t' Ht'.
      rewrite (get_translations_app d id [new_row ts id t]).
      rewrite filter_cons_True by reflexivity. cbn.
      rewrite not_elem_of_app, not_elem_of_cons. split; [tauto|].
      intros H. split; [exact H|]. split; [|apply not_elem_of_nil].
      intros ->. contradiction.
    + rewrite (IH Hsur Hnd). rewrite (bool_decide_eq_true_2 _ Hex).
      rewrite filter_cons_False by exact Hst. reflexivity.
Qed.

Lemma spec_split_Forall (P : char -> Prop) (cur s : str) :
  Forall P cur -> Forall P s -> Forall (Forall P) (spec_split cur s).
Proof.
  intros Hcur Hs. revert cur Hcur.
  induction Hs as [|c s Hc Hs IH]; intros cur Hcur; cbn.
  - constructor; [exact Hcur|constructor].
  - destruct (is_sep c).
    + constructor; [exact Hcur|]. apply IH. constructor.
    + apply IH. apply Forall_app. split; [exact Hcur|].
      constructor; [exact Hc|constructor].
Qed.

Lemma parse_translations_Forall (tables : case_tables) (P : char -> Prop)
    (raw : option str) :
  Forall P (default [] raw) ->
  Forall (Forall P) (parse_translations tables raw).
Proof.
  intros Hraw. rewrite parse_translations_refines. unfold spec_parse.
  apply Forall_forall. intros t Ht. apply spec_first_seen_elem in Ht.
  apply list_elem_of_filter in Ht as [_ Ht].
  apply list_elem_of_fmap in Ht as (p & -> & Hp).
  apply rstrip_Forall, lstrip_Forall.
  pose proof (spec_split_Forall P [] (default [] raw) (Forall_nil_2 _) Hraw)
    as Hall.
  rewrite Forall_forall in Hall. apply Hall. exact Hp.
Qed.

Lemma parse_translations_NoDup (tables : case_tables) (raw : option str) :
  NoDup (parse_translations tables raw).
Proof.
  rewrite parse_translations_refines. unfold spec_parse.
  apply (NoDup_fmap_1 (tr_normalize tables)), spec_first_seen_NoDup.
Qed.

(** C7 as stated fails: "Elma" has the normalized text of the stored
    "elma", and adding it to the same word stores a second row. *)
Lemma add_translation_case_variant_stored :
  ¬ (∀ (now : Z) (d : db) (id : Z) (t : str),
       (∃ t', t' ∈ get_translations d id
              ∧ tr_normalize latin_tables t' = tr_normalize latin_tables t) ->
       add_translation latin_tables now d id (Some t) = Done d).
Proof.
  intros H.
  specialize (H 5 demo_db 1 (py "Elma")).
  assert (match add_translation latin_tables 5 demo_db 1 (Some (py "Elma"))
          with
          | Done d' => get_translations d' 1
          | Raised _ => []
          end = [py "elma"; py "Elma"]) as Hnew by (vm_compute; reflexivity).
  rewrite H in Hnew; [vm_compute in Hnew; discriminate Hnew|].
  exists (py "elma"). split; [vm_compute; left|vm_compute; reflexivity].
Qed.

Lemma existsb_surrogate_false (t : str) :
  existsb is_surrogate t = false <-> Forall (fun c => is_surrogate c = false) t.
Proof.
  induction t as [|c t IH]; cbn.
  - split; [constructor|reflexivity].
  - rewrite orb_false_iff, Forall_cons, IH. reflexivity.
Qed.

Lemma bind_error_none (id : Z) (t : str) :
  bind_error id t = None
  <-> fits_int64 id = true ∧ Forall (fun c => is_surrogate c = false) t.
Proof.
  unfold bind_error. rewrite <- existsb_surrogate_false.
  destruct (fits_int64 id), (existsb is_surrogate t); cbn;
    split; try discriminate; try (intros [? ?]; discriminate);
    try reflexivity; intros _; split; reflexivity.
Qed.

Lemma insert_all_done_inv (ts id : Z) (trs : list str) (d d' : db) :
  insert_all ts id d trs = Done d' ->
  trs ≠ [] ->
  fits_int64 id = true
  ∧ Forall (Forall (fun c => is_surrogate c = false)) trs.
Proof.
  revert d. induction trs as [|t trs IH]; intros d Hrun Hne; [done|].
  cbn [insert_all] in Hrun. unfold insert_translation in Hrun.
  destruct (bind_error id t) as [e|] eqn:Hb; [discriminate|].
  apply bind_error_none in Hb as [Hid Ht].
  split; [exact Hid|]. constructor; [exact Ht|].
  destruct trs as [|t2 trs]; [constructor|].
  eapply IH; [exact Hrun|discriminate].
Qed.

Lemma insert_all_overflow (ts id : Z) (trs : list str) (d : db) :
  fits_int64 id = false -> trs ≠ [] ->
  insert_all ts id d trs = Raised OverflowError.
Proof.
  intros Hid Hne. destruct trs as [|t trs]; [done|].
  cbn [insert_all]. unfold insert_translation, bind_error.
  rewrite Hid. reflexivity.
Qed.

Lemma db_ok_stored (d : db) (id : Z) (t : str) :
  db_ok d -> t ∈ get_translations d id ->
  fits_int64 id = true ∧ Forall (fun c => is_surrogate c = false) t.
Proof.
  unfold db_ok, get_translations. rewrite Forall_forall. intros Hok Ht.
  apply list_elem_of_fmap in Ht as (r & -> & Hr).
  apply list_elem_of_filter in Hr as [<- Hr]. exact (Hok r Hr).
Qed.

Lemma row_key_new_row (ts id : Z) (t : str) :
  row_key (new_row ts id t) = (id, t).
Proof. reflexivity. Qed.

Lemma stored_row_key (d : db) (id : Z) (t : str) :
  (id, t) ∈ row_key <$> translations d <-> t ∈ get_translations d id.
Proof.
  unfold get_translations. rewrite !list_elem_of_fmap. split.
  - intros (r & Hk & Hr). injection Hk as -> ->.
    exists r. split; [reflexivity|].
    apply list_elem_of_filter. split; [reflexivity|exact Hr].
  - intros (r & -> & Hr). apply list_elem_of_filter in Hr as [<- Hr].
    exists r. split; [reflexivity|exact Hr].
Qed.

Lemma filter_new_rows (ts id : Z) (l : list str) :
  filter (fun r => word_id r = id) (new_row ts id <$> l) = new_row ts id <$> l.
Proof.
  induction l as [|t l IH]; [reflexivity|].
  rewrite fmap_cons, filter_cons_True by reflexivity. f_equal. exact IH.
Qed.

(** The rows one call adds: the parsed entries not yet stored for the
    word, in input order; none when the word does not exist. *)
Definition added_rows (d : db) (id : Z) (trs : list str) : list str :=
  if bool_decide (is_Some (words d !! id))
  then filter (fun t => t ∉ get_translations d id) trs
  else [].

Lemma added_rows_elem (d : db) (id : Z) (trs : list str) (t : str) :
  t ∈ added_rows d id trs
  <-> t ∈ trs ∧ (t ∉ get_translations d id) ∧ is_Some (words d !! id).
Proof.
  unfold added_rows. case_bool_decide as Hex.
  - rewrite list_elem_of_filter. tauto.
  - rewrite elem_of_nil. tauto.
Qed.

Lemma added_rows_sublist (d : db) (id : Z) (trs : list str) :
  sublist (added_rows d id trs) trs.
Proof.
  unfold added_rows. case_bool_decide.
  - apply sublist_filter.
  - apply sublist_nil_l.
Qed.

Lemma add_translation_done (tables : case_tables) (now : Z) (d : db) (id : Z)
    (raw : option str) :
  let trs := parse_translations tables raw in
  trs = [] ∨ (fits_int64 id = true
              ∧ Forall (Forall (fun c => is_surrogate c = false)) trs) ->
  add_translation tables now d id raw
  = Done {| words := words d;
            translations :=
              translations d ++ (new_row now id <$> added_rows d id trs) |}.
Proof.
  intros trs Hcase. unfold add_translation. fold trs.
  case_bool_decide as Hnil.
  - rewrite Hnil. unfold added_rows.
    destruct (bool_decide _); cbn; rewrite app_nil_r, db_eta; reflexivity.
  - destruct Hcase as [Hcase|[Hid Hsur]]; [contradiction|].
    apply insert_all_spec; [exact Hid|exact Hsur|].
    apply parse_translations_NoDup.
Qed.

Lemma added_rows_keep_NoDup (now : Z) (d : db) (id : Z) (trs : list str) :
  NoDup trs ->
  NoDup (row_key <$> translations d) ->
  NoDup (row_key <$> translations d ++ (new_row now id <$> added_rows d id trs)).
Proof.
  intros Htrs Hd. rewrite fmap_app. apply NoDup_app.
  split; [exact Hd|]. split.
  - intros k Hk Hk'. rewrite <- list_fmap_compose in Hk'.
    apply list_elem_of_fmap in Hk' as (t & -> & Ht).
    apply added_rows_elem in Ht as (_ & Hnot & _).
    apply Hnot, stored_row_key. exact Hk.
  - rewrite <- list_fmap_compose. apply NoDup_fmap_2.
    + intros t t' [= E]. exact E.
    + eapply sublist_NoDup; [exact Htrs|apply added_rows_sublist].
Qed.

(** C7, amended: the stored translations of a word are unique up to their
    exact text (not up to case and spacing), and [add_translation] keeps
    that.  Adding input whose parsed entries are all stored already for
    the word, as the same text, leaves the store as it is and raises
    nothing.  Whenever the call returns, the words are unchanged and the
    rows are the old ones followed by one row for each parsed entry that
    was not stored for the word as that exact text, each once and in
    input order, provided the word exists (none otherwise); pairs of word
    and text that were distinct stay distinct, and stored ids and texts stay
    storable.  The call returns whenever the id fits 64 bits and the input
    has no lone surrogate; with an id outside 64 bits and a non-empty
    parse it raises [OverflowError]. *)
Theorem add_translation_exact_duplicates (tables : case_tables) (now : Z)
    (d : db) (id : Z) (raw : option str) :
  let trs := parse_translations tables raw in
  (db_ok d -> (∀ t, t ∈ trs -> t ∈ get_translations d id) ->
     add_translation tables now d id raw = Done d)
  ∧ (∀ d', add_translation tables now d id raw = Done d' ->
       words d' = words d
       ∧ translations d'
         = translations d ++ (new_row now id <$> added_rows d id trs)
       ∧ NoDup (added_rows d id trs)
       ∧ sublist (added_rows d id trs) trs
       ∧ (∀ t, t ∈ added_rows d id trs
               <-> t ∈ trs ∧ (t ∉ get_translations d id)
                   ∧ is_Some (words d !! id))
       ∧ get_translations d' id
         = get_translations d id ++ added_rows d id trs
       ∧ (NoDup (row_key <$> translations d) ->
          NoDup (row_key <$> translations d'))
       ∧ (db_ok d -> db_ok d'))
  ∧ (fits_int64 id = true ->
     Forall (fun c => is_surrogate c = false) (default [] raw) ->
     ∃ d', add_translation tables now d id raw = Done d')
  ∧ (fits_int64 id = false -> trs ≠ [] ->
     add_translation tables now d id raw = Raised OverflowError).
Proof.
  intros trs.
  assert (Hnd : NoDup trs) by apply parse_translations_NoDup.
  split; [|split; [|split]].
  - intros Hok Hall.
    assert (Hcase : trs = [] ∨ (fits_int64 id = true
              ∧ Forall (Forall (fun c => is_surrogate c = false)) trs)).
    { destruct trs as [|t0 trs0] eqn:E; [left; reflexivity|right].
      split.
      - apply (db_ok_stored d id t0 Hok). apply Hall. left.
      - apply Forall_forall. intros t Ht.
        apply (db_ok_stored d id t Hok). apply Hall. exact Ht. }
    rewrite (add_translation_done tables now d id raw Hcase). fold trs.
    assert (added_rows d id trs = []) as ->.
    { destruct (added_rows d id trs) as [|t l] eqn:E; [reflexivity|].
      assert (Ht : t ∈ added_rows d id trs) by (rewrite E; left).
      apply added_rows_elem in Ht as (Ht & Hnot & _).
      destruct (Hnot (Hall t Ht)). }
    cbn. rewrite app_nil_r, db_eta. reflexivity.
  - intros d' Hrun.
    assert (Hcase : trs = [] ∨ (fits_int64 id = true
              ∧ Forall (Forall (fun c => is_surrogate c = false)) trs)).
    { destruct (decide (trs = [])) as [E|E]; [left; exact E|right].
      unfold add_translation in Hrun. fold trs in Hrun.
      rewrite (bool_decide_eq_false_2 _ E) in Hrun.
      exact (insert_all_done_inv _ _ _ _ _ Hrun E). }
    rewrite (add_translation_done tables now d id raw Hcase) in Hrun.
    fold trs in Hrun. injection Hrun as <-. cbn [words translations].
    split; [reflexivity|]. split; [reflexivity|].
    split; [eapply sublist_NoDup; [exact Hnd|apply added_rows_sublist]|].
    split; [apply added_rows_sublist|].
    split; [apply added_rows_elem|].
    split; [|split].
    + rewrite get_translations_app. f_equal.
      rewrite filter_new_rows, <- list_fmap_compose. apply list_fmap_id.
    + apply added_rows_keep_NoDup. exact Hnd.
    + unfold db_ok. intros Hok. apply Forall_app. split; [exact Hok|].
      apply Forall_forall. intros r Hr.
      apply list_elem_of_fmap in Hr as (t & -> & Ht). cbn.
      destruct Hcase as [E|[Hid Hsur]].
      * apply added_rows_elem in Ht as (Ht & _). rewrite E in Ht.
        apply elem_of_nil in Ht. destruct Ht.
      * split; [exact Hid|]. rewrite Forall_forall in Hsur.
        apply Hsur. apply added_rows_elem in Ht as (Ht & _). exact Ht.
  - intros Hid Hraw. eexists. apply add_translation_done. right.
    split; [exact Hid|]. apply parse_translations_Forall. exact Hraw.
  - intros Hid Hne. unfold add_translation. fold trs.
    rewrite (bool_decide_eq_false_2 _ Hne).
    apply insert_all_overflow; assumption.
Qed.

Lemma add_translation_exact_duplicates_witness :
  add_translation latin_tables 5 demo_db 1 (Some (py "elma; elma"))
  = Done demo_db
  ∧ (∃ d', add_translation latin_tables 5 demo_db 1 (Some (py "armut, elma"))
           = Done d')
  ∧ add_translation latin_tables 5 demo_db 9223372036854775808
      (Some (py "elma"))
    = Raised OverflowError.
Proof.
  split; [|split].
  - apply (add_translation_exact_duplicates latin_tables 5 demo_db 1
             (Some (py "elma; elma"))).
    + repeat constructor.
    + intros t Ht. vm_compute in Ht. vm_compute.
      apply list_elem_of_In in Ht. apply list_elem_of_In. exact Ht.
  - apply (add_translation_exact_duplicates latin_tables 5 demo_db 1
             (Some (py "armut, elma"))).
    + reflexivity.
    + vm_compute. repeat constructor.
  - apply (add_translation_exact_duplicates latin_tables 5 demo_db
             9223372036854775808 (Some (py "elma"))).
    + reflexivity.
    + vm_compute. discriminate.
Defined.

(** ** The play handler: an empty answer *)

Lemma get_current_word_stored (d : db) (g : game) (id : Z) (w : word) :
  get_current_word d g = Some (id, w) -> words d !! id = Some w.
Proof.
  unfold get_current_word. destruct (_ <=? _); [discriminate|].
  destruct (queue g !! _) as [id'|]; [|discriminate].
  destruct (words d !! id') as [w'|] eqn:E; [|discriminate].
  cbn. intros [= <- <-]. exact E.
Qed.

Lemma schedule_next_box1 (now : Z) : schedule_next now 1 = now.
Proof.
  unfold schedule_next, add_days_iso.
  assert (LEITNER_INTERVALS_DAYS !! 1 = Some 0) as -> by reflexivity.
  cbn. lia.
Qed.

Lemma play_question_pass (tables : case_tables) (now1 now2 : Z)
    (rnd_mode : str) (d : db) (g : game) (answer : option str)
    (id : Z) (w : word) :
  strip (default [] answer) = [] ->
  get_current_word d g = Some (id, w) ->
  play_question tables now1 now2 rnd_mode d (Some g) answer
  = to_play_question
      (update_after_answer now1 now2 d id false (box w)).1
      (advance_game
         (set_feedback g
            (warn, Pas (question_of g rnd_mode w (get_translations d id)).1 1))
         false).
Proof.
  intros Hempty Hcur. unfold play_question. rewrite Hcur.
  destruct (question_of g rnd_mode w (get_translations d id))
    as [correct_list answer_lang].
  rewrite Hempty. reflexivity.
Qed.

(** C9: an answer that is empty after trimming is a pass, whatever the
    current word and its acceptable answers are: the handler answers
    normally, the word goes to box 1, is due at once and has one more
    wrong answer, the score stays and the queue moves on, the feedback is
    the pass message (it carries no similarity), and the outcome does not
    depend on the case table, the one thing the grader needs. *)
Theorem empty_answer_is_pass (tables : case_tables) (now1 now2 : Z)
    (rnd_mode : str) (d : db) (g : game) (answer : option str)
    (id : Z) (w : word) :
  strip (default [] answer) = [] ->
  get_current_word d g = Some (id, w) ->
  ∃ d' g' w',
    play_question tables now1 now2 rnd_mode d (Some g) answer
    = to_play_question d' g'
    ∧ words d' !! id = Some w'
    ∧ box w' = 1 ∧ next_due_at w' = now2
    ∧ wrong_count w' = wrong_count w + 1
    ∧ correct_count w' = correct_count w
    ∧ translations d' = translations d
    ∧ idx g' = idx g + 1 ∧ score g' = score g
    ∧ last_feedback g'
      = Some (warn,
              Pas (question_of g rnd_mode w (get_translations d id)).1 1)
    ∧ ∀ tables' : case_tables,
        play_question tables' now1 now2 rnd_mode d (Some g) answer
        = to_play_question d' g'.
Proof.
  intros Hempty Hcur.
  pose proof (get_current_word_stored d g id w Hcur) as Hw.
  exists (update_after_answer now1 now2 d id false (box w)).1,
         (advance_game
            (set_feedback g
               (warn,
                Pas (question_of g rnd_mode w (get_translations d id)).1 1))
            false),
         (review_row false 1 now1 (schedule_next now2 1) w).
  split; [apply (play_question_pass _ _ _ _ _ _ _ _ _ Hempty Hcur)|].
  split.
  { unfold update_after_answer. cbn [fst words].
    rewrite lookup_alter_eq, Hw. reflexivity. }
  split; [reflexivity|]. split; [apply schedule_next_box1|].
  repeat (split; [reflexivity|]).
  intros tables'.
  apply (play_question_pass _ _ _ _ _ _ _ _ _ Hempty Hcur).
Qed.

Definition demo_game : game :=
  {| mode := py "de->tr"; pool := py "due"; queue := [1]; idx := 0;
     score := 0; total := 1; last_feedback := None |}.

Lemma empty_answer_is_pass_witness :
  ∃ d' g' w',
    play_question latin_tables 100 100 (py "de->tr") demo_db
      (Some demo_game) (Some (py "   "))
    = to_play_question d' g'
    ∧ words d' !! 1 = Some w'
    ∧ box w' = 1 ∧ next_due_at w' = 100
    ∧ wrong_count w' = wrong_count demo_word + 1
    ∧ correct_count w' = correct_count demo_word
    ∧ translations d' = translations demo_db
    ∧ idx g' = idx demo_game + 1 ∧ score g' = score demo_game
    ∧ last_feedback g'
      = Some (warn,
              Pas (question_of demo_game (py "de->tr") demo_word
                     (get_translations demo_db 1)).1 1)
    ∧ ∀ tables' : case_tables,
        play_question tables' 100 100 (py "de->tr") demo_db
          (Some demo_game) (Some (py "   "))
        = to_play_question d' g'.
Proof.
  apply (empty_answer_is_pass latin_tables 100 100 (py "de->tr")
           demo_db demo_game (Some (py "   ")) 1 demo_word).
  - vm_compute. reflexivity.
  - vm_compute. reflexivity.
Defined.

(** ** Similarity scorer: the element index and the longest match *)

Import Difflib.

(** The positions of [elt] in [b], counted from [i], in ascending order. *)
Fixpoint positions_from (i : Z) (elt : char) (b : str) : list Z :=
  match b with
  | [] => []
  | x :: b' =>
    if (x =? elt)%N then i :: positions_from (i + 1) elt b'
    else positions_from (i + 1) elt b'
  end.

(** [m] is a block of equal elements of [a] and [b]. *)
Definition is_match (a b : str) (m : Match) : Prop :=
  0 <= m.2
  ∧ ∀ t, 0 <= t < m.2 ->
      ∃ c, at_ a (m.1.1 + t) = Some c ∧ at_ b (m.1.2 + t) = Some c.

Definition in_range (alo ahi blo bhi : Z) (m : Match) : Prop :=
  alo <= m.1.1 ∧ m.1.1 + m.2 <= ahi ∧ blo <= m.1.2 ∧ m.1.2 + m.2 <= bhi.

Definition b2j_sound (b : str) (b2j : gmap N (list Z)) : Prop :=
  ∀ c j, j ∈ default [] (b2j !! c) -> 0 <= j ∧ at_ b j = Some c.

Lemma positions_from_spec (c : char) (b : str) (i j : Z) :
  j ∈ positions_from i c b <-> i <= j ∧ b !! Z.to_nat (j - i) = Some c.
Proof.
  revert i. induction b as [|x b IH]; intros i; cbn [positions_from].
  - split; [intros H; inversion H|intros [_ H]; discriminate H].
  - assert (j ∈ positions_from (i + 1) c b
            <-> i < j ∧ (x :: b) !! Z.to_nat (j - i) = Some c) as Hrest.
    { rewrite IH. split; intros [Hle Hlk]; (split; [lia|]).
      - replace (Z.to_nat (j - i)) with (S (Z.to_nat (j - (i + 1)))) by lia.
        exact Hlk.
      - replace (Z.to_nat (j - i)) with (S (Z.to_nat (j - (i + 1)))) in Hlk
          by lia.
        exact Hlk. }
    destruct (N.eqb_spec x c) as [->|Hne].
    + rewrite elem_of_cons, Hrest. split.
      * intros [->|[Hlt Hlk]]; [|split; [lia|exact Hlk]].
        split; [lia|]. rewrite Z.sub_diag. reflexivity.
      * intros [Hle Hlk]. destruct (decide (j = i)) as [->|Hji]; [left; reflexivity|].
        right. split; [lia|exact Hlk].
    + rewrite Hrest. split; [intros [Hlt Hlk]; split; [lia|exact Hlk]|].
      intros [Hle Hlk]. split; [|exact Hlk].
      destruct (decide (j = i)) as [->|Hji]; [|lia].
      rewrite Z.sub_diag in Hlk. change (Some x = Some c) in Hlk. congruence.
Qed.

Lemma positions_from_sorted (c : char) (b : str) (i : Z) :
  StronglySorted Z.lt (positions_from i c b).
Proof.
  revert i. induction b as [|x b IH]; intros i; cbn; [constructor|].
  destruct (x =? c)%N; [|apply IH]. constructor; [apply IH|].
  apply Forall_forall. intros j Hj. apply positions_from_spec in Hj. lia.
Qed.

Lemma foldl_setdefault_append (b : str) (i : Z) (m : gmap N (list Z))
    (c : char) :
  default [] (foldl setdefault_append m (enumerate_from i b) !! c)
  = default [] (m !! c) ++ positions_from i c b.
Proof.
  revert i m. induction b as [|x b IH]; intros i m; cbn.
  - rewrite app_nil_r. reflexivity.
  - rewrite IH. unfold setdefault_append. cbn [fst snd].
    destruct (N.eqb_spec x c) as [->|Hne].
    + rewrite lookup_insert_eq. cbn. rewrite <- app_assoc. reflexivity.
    + rewrite lookup_insert_ne by exact Hne. reflexivity.
Qed.

Lemma chain_b_lookup (b : str) (c : char) :
  default [] (chain_b b !! c) = []
  ∨ default [] (chain_b b !! c) = positions_from 0 c b.
Proof.
  assert (∀ m : gmap N (list Z),
            m = foldl setdefault_append ∅ (enumerate_from 0 b) ->
            default [] (m !! c) = positions_from 0 c b) as Hall.
  { intros m ->. rewrite foldl_setdefault_append. rewrite lookup_empty.
    reflexivity. }
  unfold chain_b. destruct (autojunk && _).
  - cbn zeta.
    destruct (filter _ _ !! c) as [l|] eqn:E; [|left; reflexivity].
    apply map_lookup_filter_Some_1_1 in E. right.
    rewrite <- (Hall _ eq_refl), E. reflexivity.
  - right. apply Hall. reflexivity.
Qed.

Lemma chain_b_sound (b : str) : b2j_sound b (chain_b b).
Proof.
  intros c j Hj. destruct (chain_b_lookup b c) as [E|E]; rewrite E in Hj.
  - inversion Hj.
  - apply positions_from_spec in Hj as [Hle Hlk]. split; [exact Hle|].
    unfold at_. rewrite Z.sub_0_r in Hlk. exact Hlk.
Qed.

Lemma isbjunk_false (c : char) : isbjunk c = false.
Proof. reflexivity. Qed.

Section FindLongestMatch.

Context (a b : str) (b2j : gmap N (list Z)) (alo ahi blo bhi : Z).
Hypothesis Hb2j : b2j_sound b b2j.
Hypothesis Ha : alo <= ahi.
Hypothesis Hb : blo <= bhi.

(** [v] is the length of a match that ends with [a[i]] and [b[j]]. *)
Definition cell_ok (i j v : Z) : Prop :=
  1 <= v ∧ alo <= i - v + 1 ∧ blo <= j - v + 1 ∧ j < bhi
  ∧ is_match a b (i - v + 1, j - v + 1, v).

Definition row_ok (i : Z) (row : gmap Z Z) : Prop :=
  ∀ j v, row !! j = Some v -> cell_ok i j v.

Definition best_ok (hi : Z) (m : Match) : Prop :=
  is_match a b m ∧ in_range alo hi blo bhi m.

Lemma cell_ok_next (i j : Z) (c : char) (prev : gmap Z Z) :
  alo <= i -> blo <= j < bhi ->
  at_ a i = Some c -> at_ b j = Some c ->
  row_ok (i - 1) prev ->
  cell_ok i j (default 0 (prev !! (j - 1)) + 1).
Proof.
  intros Hi Hj Hai Hbj Hprev.
  destruct (prev !! (j - 1)) as [v|] eqn:E; cbn [default from_option id].
  - destruct (Hprev _ _ E) as (Hv & Hlo & Hlo' & _ & Hv0 & Hm).
    cbn [fst snd] in *. unfold cell_ok, is_match. cbn [fst snd].
    do 5 (split; [lia|]). intros t Ht.
    destruct (decide (t = v)) as [->|Hne].
    + exists c.
      replace (i - (v + 1) + 1 + v) with i by lia.
      replace (j - (v + 1) + 1 + v) with j by lia. split; assumption.
    + destruct (Hm t) as (c' & H1 & H2); [lia|]. exists c'.
      replace (i - (v + 1) + 1 + t) with (i - 1 - v + 1 + t) by lia.
      replace (j - (v + 1) + 1 + t) with (j - 1 - v + 1 + t) by lia.
      split; assumption.
  - unfold cell_ok, is_match. cbn [fst snd].
    do 5 (split; [lia|]). intros t Ht. exists c.
    replace (i - (0 + 1) + 1 + t) with i by lia.
    replace (j - (0 + 1) + 1 + t) with j by lia. split; assumption.
Qed.

Lemma scan_row_ok (i : Z) (c : char) (prev : gmap Z Z) (js : list Z)
    (st : Match * gmap Z Z) :
  alo <= i -> at_ a i = Some c ->
  (∀ j, j ∈ js -> at_ b j = Some c) ->
  row_ok (i - 1) prev ->
  best_ok (i + 1) st.1 -> row_ok i st.2 ->
  best_ok (i + 1) (scan_row i blo bhi prev js st).1
  ∧ row_ok i (scan_row i blo bhi prev js st).2.
Proof.
  intros Hi Hai Hjs Hprev. revert st.
  induction js as [|j js IH]; intros st Hbest Hrow; [split; assumption|].
  cbn [scan_row]. destruct (Z.ltb_spec j blo) as [Hjlo|Hjlo].
  { apply IH; [intros j' Hj'; apply Hjs; right; exact Hj'|assumption..]. }
  destruct (Z.leb_spec bhi j) as [Hjhi|Hjhi]; [split; assumption|].
  assert (cell_ok i j (default 0 (prev !! (j - 1)) + 1)) as Hcell.
  { apply (cell_ok_next i j c); try assumption; [lia|]. apply Hjs. left. }
  apply IH; [intros j' Hj'; apply Hjs; right; exact Hj'| |].
  - cbn [fst]. destruct (Z.ltb_spec st.1.2 (default 0 (prev !! (j - 1)) + 1));
      [|exact Hbest].
    destruct Hcell as (Hv & Hlo & Hlo' & _ & Hm).
    split; [exact Hm|]. unfold in_range. cbn [fst snd]. lia.
  - cbn [snd]. intros j' v Hlk.
    destruct (decide (j = j')) as [<-|Hne].
    + rewrite lookup_insert_eq in Hlk. injection Hlk as <-. exact Hcell.
    + rewrite lookup_insert_ne in Hlk by exact Hne. apply Hrow. exact Hlk.
Qed.

Lemma best_ok_weaken (hi hi' : Z) (m : Match) :
  hi <= hi' -> best_ok hi m -> best_ok hi' m.
Proof. intros Hle [Hm Hr]. split; [exact Hm|]. unfold in_range in *. lia. Qed.

Lemma scan_rows_ok (i : Z) (st : Match * gmap Z Z) :
  alo <= i -> best_ok i st.1 -> row_ok (i - 1) st.2 ->
  best_ok (i + 1) (scan_rows a b2j blo bhi st i).1
  ∧ row_ok i (scan_rows a b2j blo bhi st i).2.
Proof.
  intros Hi Hbest Hrow. unfold scan_rows.
  assert (row_ok i ∅) as Hempty by (intros j v H; rewrite lookup_empty in H; discriminate).
  destruct (at_ a i) as [c|] eqn:Hai.
  - apply (scan_row_ok i c); try assumption.
    + intros j Hj. apply Hb2j. exact Hj.
    + cbn [fst]. apply (best_ok_weaken i); [lia|exact Hbest].
  - cbn [scan_row fst snd]. split; [|exact Hempty].
    apply (best_ok_weaken i); [lia|exact Hbest].
Qed.

Lemma scan_all_ok (n : nat) :
  let st := foldl (scan_rows a b2j blo bhi) ((alo, blo, 0), ∅)
                  (seqZ alo (Z.of_nat n)) in
  best_ok (alo + Z.of_nat n) st.1 ∧ row_ok (alo + Z.of_nat n - 1) st.2.
Proof.
  induction n as [|n IH].
  - cbn zeta. rewrite seqZ_nil by reflexivity. cbn [foldl fst snd]. split.
    + split; [split; [cbn; lia|cbn; intros t Ht; lia]|].
      unfold in_range. cbn [fst snd]. lia.
    + intros j v H. rewrite lookup_empty in H. discriminate.
  - cbn zeta in *. rewrite seqZ_S, foldl_snoc. destruct IH as [Hbest Hrow].
    replace (alo + Z.of_nat (S n)) with (alo + Z.of_nat n + 1) by lia.
    replace (alo + Z.of_nat n + 1 - 1) with (alo + Z.of_nat n) by lia.
    apply scan_rows_ok; [lia|assumption..].
Qed.

Lemma same_at_true (junk : bool) (i j : Z) :
  same_at junk a b i j = true ->
  ∃ c, at_ a i = Some c ∧ at_ b j = Some c.
Proof.
  unfold same_at. destruct (at_ a i) as [x|], (at_ b j) as [y|];
    try discriminate.
  intros H. apply andb_true_iff in H as [_ H]. apply N.eqb_eq in H. subst.
  exists y. split; reflexivity.
Qed.

Lemma extend_down_ok (n : nat) (junk : bool) (m : Match) :
  best_ok ahi m -> best_ok ahi (extend_down n junk a b alo blo m).
Proof.
  revert m. induction n as [|n IH]; intros [[i j] k] Hm; [exact Hm|].
  cbn [extend_down]. destruct (_ && _ && _) eqn:G; [|exact Hm].
  apply andb_true_iff in G as [G Hsame]. apply andb_true_iff in G as [G1 G2].
  apply Z.ltb_lt in G1, G2. apply same_at_true in Hsame as (c & H1 & H2).
  apply IH. destruct Hm as [[Hk Hm] Hr]. unfold in_range in Hr.
  cbn [fst snd] in *. split; [split|]; cbn [fst snd].
  - lia.
  - intros t Ht. destruct (decide (t = 0)) as [->|Hne].
    + exists c. rewrite !Z.add_0_r. split; assumption.
    + destruct (Hm (t - 1)) as (c' & H1' & H2'); [lia|]. exists c'.
      replace (i - 1 + t) with (i + (t - 1)) by lia.
      replace (j - 1 + t) with (j + (t - 1)) by lia. split; assumption.
  - unfold in_range. cbn [fst snd]. lia.
Qed.

Lemma extend_up_ok (n : nat) (junk : bool) (m : Match) :
  best_ok ahi m -> best_ok ahi (extend_up n junk a b ahi bhi m).
Proof.
  revert m. induction n as [|n IH]; intros [[i j] k] Hm; [exact Hm|].
  cbn [extend_up]. destruct (_ && _ && _) eqn:G; [|exact Hm].
  apply andb_true_iff in G as [G Hsame]. apply andb_true_iff in G as [G1 G2].
  apply Z.ltb_lt in G1, G2. apply same_at_true in Hsame as (c & H1 & H2).
  apply IH. destruct Hm as [[Hk Hm] Hr]. unfold in_range in Hr.
  cbn [fst snd] in *. split; [split|]; cbn [fst snd].
  - lia.
  - intros t Ht. destruct (decide (t = k)) as [->|Hne].
    + exists c. split; assumption.
    + apply Hm. lia.
  - unfold in_range. cbn [fst snd]. lia.
Qed.

Lemma extend_ok (junk : bool) (m : Match) :
  best_ok ahi m -> best_ok ahi (extend junk a b alo ahi blo bhi m).
Proof. intros Hm. unfold extend. apply extend_up_ok, extend_down_ok, Hm. Qed.

Lemma find_longest_match_ok :
  best_ok ahi (find_longest_match a b b2j alo ahi blo bhi).
Proof.
  unfold find_longest_match. do 2 apply extend_ok.
  pose proof (scan_all_ok (Z.to_nat (ahi - alo))) as [Hbest _].
  cbn zeta in Hbest. rewrite Z2Nat.id in Hbest by lia.
  replace (alo + (ahi - alo)) with ahi in Hbest by lia. exact Hbest.
Qed.

End FindLongestMatch.

(** ** Similarity scorer: the work list *)

Definition width_a (q : Z * Z * Z * Z) : Z := q.1.1.2 - q.1.1.1.
Definition width_b (q : Z * Z * Z * Z) : Z := q.2 - q.1.2.

Definition valid_range (q : Z * Z * Z * Z) : Prop :=
  q.1.1.1 <= q.1.1.2 ∧ q.1.2 <= q.2.

Definition total_a (queue : list (Z * Z * Z * Z)) : Z :=
  foldr (fun q s => width_a q + s) 0 queue.
Definition total_b (queue : list (Z * Z * Z * Z)) : Z :=
  foldr (fun q s => width_b q + s) 0 queue.

(** The two ranges of [q] hold the same elements. *)
Definition same_seg (a b : str) (q : Z * Z * Z * Z) : Prop :=
  width_a q = width_b q
  ∧ ∀ t, 0 <= t < width_a q ->
      ∃ c, at_ a (q.1.1.1 + t) = Some c ∧ at_ b (q.1.2 + t) = Some c.

Lemma sum_sizes_app (l1 l2 : list Match) :
  sum_sizes (l1 ++ l2) = sum_sizes l1 + sum_sizes l2.
Proof.
  induction l1 as [|m l1 IH]; cbn; [reflexivity|].
  fold (sum_sizes (l1 ++ l2)) (sum_sizes l1). lia.
Qed.

Lemma total_a_nonneg (queue : list (Z * Z * Z * Z)) :
  Forall valid_range queue -> 0 <= total_a queue.
Proof.
  induction 1 as [|q queue [Hq _] _ IH]; cbn; [lia|].
  fold (total_a queue). unfold width_a. lia.
Qed.

Lemma total_b_nonneg (queue : list (Z * Z * Z * Z)) :
  Forall valid_range queue -> 0 <= total_b queue.
Proof.
  induction 1 as [|q queue [_ Hq] _ IH]; cbn; [lia|].
  fold (total_b queue). unfold width_b. lia.
Qed.

Lemma same_seg_empty (a b : str) (x y : Z) : same_seg a b (x, x, y, y).
Proof.
  split; unfold width_a, width_b; cbn [fst snd]; [lia|]. intros t Ht. lia.
Qed.

Lemma same_seg_join (a b : str) (alo ahi blo bhi i j k : Z) :
  same_seg a b (alo, i, blo, j) ->
  is_match a b (i, j, k) ->
  same_seg a b (i + k, ahi, j + k, bhi) ->
  alo <= i -> i + k <= ahi ->
  same_seg a b (alo, ahi, blo, bhi).
Proof.
  intros [HLw HL] [Hk Hm] [HRw HR] Hi Hik.
  unfold same_seg, width_a, width_b in *. cbn [fst snd] in *.
  split; [lia|]. intros t Ht.
  destruct (Z.lt_ge_cases t (i - alo)) as [H1|H1]; [apply HL; lia|].
  destruct (Z.lt_ge_cases t (i - alo + k)) as [H2|H2].
  - destruct (Hm (t - (i - alo))) as (c & Hc1 & Hc2); [lia|]. exists c.
    replace (alo + t) with (i + (t - (i - alo))) by lia.
    replace (blo + t) with (j + (t - (i - alo))) by lia. split; assumption.
  - destruct (HR (t - (i - alo) - k)) as (c & Hc1 & Hc2); [lia|]. exists c.
    replace (alo + t) with (i + k + (t - (i - alo) - k)) by lia.
    replace (blo + t) with (j + k + (t - (i - alo) - k)) by lia.
    split; assumption.
Qed.

Lemma pushed_valid (queue : list (Z * Z * Z * Z))
    (alo ahi blo bhi i j k : Z) (cl cr : bool) :
  Forall valid_range queue ->
  alo <= i -> blo <= j -> i + k <= ahi -> j + k <= bhi ->
  Forall valid_range
    (if cr then (i + k, ahi, j + k, bhi)
                :: (if cl then (alo, i, blo, j) :: queue else queue)
     else (if cl then (alo, i, blo, j) :: queue else queue)).
Proof.
  intros Hq H1 H2 H3 H4.
  assert (valid_range (alo, i, blo, j)) by (split; cbn; lia).
  assert (valid_range (i + k, ahi, j + k, bhi)) by (split; cbn; lia).
  destruct cl, cr; repeat (constructor; [assumption|]); exact Hq.
Qed.

Section WorkList.

Context (a b : str) (b2j : gmap N (list Z)).
Hypothesis Hb2j : b2j_sound b b2j.

Lemma blocks_loop_terminates (fuel : nat) (queue : list (Z * Z * Z * Z))
    (acc : list Match) :
  Forall valid_range queue ->
  2 * total_a queue + Z.of_nat (length queue) <= Z.of_nat fuel ->
  is_Some (blocks_loop fuel a b b2j queue acc).
Proof.
  revert queue acc. induction fuel as [|fuel IH]; intros queue acc Hv Hfuel.
  - destruct queue as [|q queue]; [cbn; eauto|].
    pose proof (total_a_nonneg _ Hv). cbn [length] in Hfuel. lia.
  - destruct queue as [|[[[alo ahi] blo] bhi] queue]; [cbn; eauto|].
    inversion Hv as [|? ? [Hqa Hqb] Hv']; subst. cbn [fst snd] in Hqa, Hqb.
    pose proof (total_a_nonneg _ Hv') as Hnn.
    pose proof (find_longest_match_ok a b b2j alo ahi blo bhi Hb2j Hqa Hqb)
      as [[Hk _] Hr].
    cbn [blocks_loop].
    destruct (find_longest_match a b b2j alo ahi blo bhi) as [[i j] k].
    unfold in_range in Hr. cbn [fst snd] in Hk, Hr.
    cbn [total_a foldr length] in Hfuel. fold (total_a queue) in Hfuel.
    unfold width_a in Hfuel. cbn [fst snd] in Hfuel.
    destruct (Z.eqb_spec k 0) as [->|Hk0]; [apply IH; [exact Hv'|lia]|].
    apply IH.
    + apply pushed_valid; [exact Hv'|lia..].
    + destruct ((alo <? i) && (blo <? j)) eqn:GL;
        destruct ((i + k <? ahi) && (j + k <? bhi)) eqn:GR;
        cbn [total_a foldr length]; fold (total_a queue);
        unfold width_a; cbn [fst snd]; lia.
Qed.

Lemma blocks_loop_sum (fuel : nat) (queue : list (Z * Z * Z * Z))
    (acc res : list Match) :
  Forall valid_range queue ->
  blocks_loop fuel a b b2j queue acc = Some res ->
  sum_sizes acc <= sum_sizes res
  ∧ sum_sizes res <= sum_sizes acc + total_a queue
  ∧ sum_sizes res <= sum_sizes acc + total_b queue
  ∧ (sum_sizes res = sum_sizes acc + total_a queue ->
     sum_sizes res = sum_sizes acc + total_b queue ->
     Forall (same_seg a b) queue).
Proof.
  revert queue acc. induction fuel as [|fuel IH]; intros queue acc Hv Hres.
  - destruct queue as [|[[[alo ahi] blo] bhi] queue]; [|discriminate].
    injection Hres as <-. cbn. do 3 (split; [lia|]). constructor.
  - destruct queue as [|[[[alo ahi] blo] bhi] queue].
    { injection Hres as <-. cbn. do 3 (split; [lia|]). constructor. }
    inversion Hv as [|? ? [Hqa Hqb] Hv']; subst. cbn [fst snd] in Hqa, Hqb.
    pose proof (total_a_nonneg _ Hv') as Hna.
    pose proof (total_b_nonneg _ Hv') as Hnb.
    pose proof (find_longest_match_ok a b b2j alo ahi blo bhi Hb2j Hqa Hqb)
      as [Hm Hr].
    cbn [blocks_loop] in Hres.
    destruct (find_longest_match a b b2j alo ahi blo bhi) as [[i j] k].
    pose proof Hm as [Hk _].
    unfold in_range in Hr. cbn [fst snd] in Hk, Hr.
    cbn [total_a total_b foldr]. fold (total_a queue) (total_b queue).
    unfold width_a, width_b. cbn [fst snd].
    destruct (decide (k = 0)) as [Hk0|Hk0];
      [subst k; change (0 =? 0) with true in Hres; cbn iota in Hres
      |rewrite (proj2 (Z.eqb_neq k 0) Hk0) in Hres].
    + destruct (IH _ _ Hv' Hres) as (Bn & Ba & Bb & Heq).
      do 3 (split; [lia|]). intros Ea Eb.
      assert (ahi = alo) as -> by lia. assert (bhi = blo) as -> by lia.
      constructor; [apply same_seg_empty|]. apply Heq; lia.
    + apply IH in Hres.
      2:{ apply pushed_valid; [exact Hv'|lia..]. }
      rewrite sum_sizes_app in Hres. cbn [sum_sizes foldr snd] in Hres.
      destruct ((alo <? i) && (blo <? j)) eqn:GL;
        destruct ((i + k <? ahi) && (j + k <? bhi)) eqn:GR;
        cbn [total_a total_b foldr] in Hres;
        fold (total_a queue) (total_b queue) in Hres;
        unfold width_a, width_b in Hres; cbn [fst snd] in Hres;
        destruct Hres as (Bn & Ba & Bb & Heq);
        (split; [lia|]); (split; [lia|]); (split; [lia|]); intros Ea Eb;
        try (apply andb_false_iff in GL;
             rewrite !Z.ltb_ge in GL);
        try (apply andb_false_iff in GR;
             rewrite !Z.ltb_ge in GR);
        try (apply andb_true_iff in GL as [GL1 GL2];
             apply Z.ltb_lt in GL1, GL2);
        try (apply andb_true_iff in GR as [GR1 GR2];
             apply Z.ltb_lt in GR1, GR2);
        (assert (Forall (same_seg a b) queue
                 ∧ same_seg a b (alo, i, blo, j)
                 ∧ same_seg a b (i + k, ahi, j + k, bhi)) as (Hq & HL & HR);
         [|constructor; [|exact Hq];
           apply (same_seg_join a b alo ahi blo bhi i j k); (assumption || lia)]).
      * specialize (Heq ltac:(lia) ltac:(lia)).
        inversion Heq as [|? ? HR Heq']; subst.
        inversion Heq' as [|? ? HL Hq]; subst. tauto.
      * specialize (Heq ltac:(lia) ltac:(lia)).
        inversion Heq as [|? ? HL Hq]; subst.
        assert (i + k = ahi) as <- by lia. assert (j + k = bhi) as <- by lia.
        split; [exact Hq|]. split; [exact HL|apply same_seg_empty].
      * specialize (Heq ltac:(lia) ltac:(lia)).
        inversion Heq as [|? ? HR Hq]; subst.
        assert (i = alo) as -> by lia. assert (j = blo) as -> by lia.
        split; [exact Hq|]. split; [apply same_seg_empty|exact HR].
      * specialize (Heq ltac:(lia) ltac:(lia)).
        assert (i = alo) as -> by lia. assert (j = blo) as -> by lia.
        assert (alo + k = ahi) as <- by lia. assert (blo + k = bhi) as <- by lia.
        split; [exact Heq|]. split; apply same_seg_empty.
Qed.

End WorkList.

(** ** Similarity scorer: the ratio *)

Lemma sum_sizes_cons (m : Match) (l : list Match) :
  sum_sizes (m :: l) = m.2 + sum_sizes l.
Proof. reflexivity. Qed.

Lemma sum_sizes_nil : sum_sizes [] = 0.
Proof. reflexivity. Qed.

Lemma sum_sizes_Permutation (l l' : list Match) :
  l ≡ₚ l' -> sum_sizes l = sum_sizes l'.
Proof.
  induction 1 as [|x l l' _ IH|x y l|l l' l'' _ IH1 _ IH2];
    rewrite ?sum_sizes_cons; lia.
Qed.

Lemma foldl_collapse_step (l : list Match) (m : Match) (na : list Match) :
  let r := foldl collapse_step (m, na) l in
  sum_sizes r.2 + r.1.2 = sum_sizes na + m.2 + sum_sizes l.
Proof.
  revert m na. induction l as [|[[i2 j2] k2] l IH]; intros [[i1 j1] k1] na.
  - cbn [foldl fst snd]. rewrite sum_sizes_nil. lia.
  - cbn [foldl]. cbn zeta in IH. rewrite sum_sizes_cons.
    assert (∃ m' na', collapse_step (i1, j1, k1, na) (i2, j2, k2) = (m', na')
                      ∧ sum_sizes na' + m'.2 = sum_sizes na + k1 + k2)
      as (m' & na' & -> & Hstep).
    { unfold collapse_step. destruct (_ && _).
      - eexists _, _. split; [reflexivity|]. cbn [fst snd]. lia.
      - destruct (Z.eqb_spec k1 0) as [->|_];
          (eexists _, _; split; [reflexivity|]);
          rewrite ?sum_sizes_app, ?sum_sizes_cons, ?sum_sizes_nil;
          cbn [fst snd]; lia. }
    rewrite IH. cbn [fst snd]. lia.
Qed.

Lemma sum_sizes_collapse_blocks (la lb : Z) (l : list Match) :
  sum_sizes (collapse_blocks la lb l) = sum_sizes l.
Proof.
  unfold collapse_blocks.
  pose proof (foldl_collapse_step l (0, 0, 0) []) as H. cbn zeta in H.
  destruct (foldl collapse_step (0, 0, 0, []) l) as [[[i1 j1] k1] na].
  cbn [fst snd] in H. rewrite sum_sizes_nil in H.
  destruct (Z.eqb_spec k1 0) as [->|_];
    rewrite ?sum_sizes_app, ?sum_sizes_cons, ?sum_sizes_nil; cbn [fst snd]; lia.
Qed.

Lemma raw_blocks_total (a b : str) : is_Some (raw_blocks a b).
Proof.
  unfold raw_blocks, blocks_fuel.
  apply blocks_loop_terminates; [apply chain_b_sound| |].
  - constructor; [|constructor]. split; cbn; lia.
  - cbn. unfold width_a. cbn. lia.
Qed.

(** The number of matched elements *)
Definition matches (a b : str) : Z := sum_sizes (get_matching_blocks a b).

Lemma matches_raw (a b : str) (res : list Match) :
  raw_blocks a b = Some res -> matches a b = sum_sizes res.
Proof.
  intros H. unfold matches, get_matching_blocks. rewrite H. cbn [default].
  rewrite sum_sizes_collapse_blocks.
  apply sum_sizes_Permutation, merge_sort_Permutation.
Qed.

Lemma at_eq_ext (a b : str) :
  length a = length b ->
  (∀ t, 0 <= t < Z.of_nat (length a) ->
        ∃ c, at_ a t = Some c ∧ at_ b t = Some c) ->
  a = b.
Proof.
  intros Hlen Hat. apply list_eq. intros n.
  destruct (decide (n < length a)%nat) as [Hn|Hn].
  - destruct (Hat (Z.of_nat n)) as (c & H1 & H2); [lia|].
    unfold at_ in H1, H2. rewrite Nat2Z.id in H1, H2. congruence.
  - rewrite !lookup_ge_None_2 by lia. reflexivity.
Qed.

Lemma matches_bounds (a b : str) :
  0 <= matches a b
  ∧ matches a b <= Z.of_nat (length a)
  ∧ matches a b <= Z.of_nat (length b)
  ∧ (matches a b = Z.of_nat (length a) ->
     matches a b = Z.of_nat (length b) -> a = b).
Proof.
  destruct (raw_blocks_total a b) as [res Hres].
  rewrite (matches_raw a b res Hres).
  assert (Forall valid_range
            [(0, Z.of_nat (length a), 0, Z.of_nat (length b))]) as Hv.
  { constructor; [|constructor]. split; cbn; lia. }
  destruct (blocks_loop_sum a b (chain_b b) (chain_b_sound b) _ _ _ _
              Hv Hres) as (Bn & Ba & Bb & Heq).
  cbn in Bn, Ba, Bb, Heq. unfold width_a, width_b in *. cbn [fst snd] in *.
  split; [lia|]. split; [lia|]. split; [lia|].
  intros Ea Eb. specialize (Heq ltac:(lia) ltac:(lia)).
  inversion Heq as [|? ? [Hw Hseg] _]; subst.
  unfold width_a, width_b in *. cbn [fst snd] in *.
  apply at_eq_ext; [lia|]. intros t Ht.
  destruct (Hseg t) as (c & H1 & H2); [lia|]. exists c.
  rewrite !Z.add_0_l in *. split; assumption.
Qed.

(** ** Similarity scorer: a string against itself *)

Section SelfMatch.

Context (a : str) (b2j : gmap N (list Z)).
Hypothesis Hget :
  ∀ c, default [] (b2j !! c) = []
       ∨ default [] (b2j !! c) = positions_from 0 c a.

Let n : Z := Z.of_nat (length a).

(** The positions the inner loop visits in row [i]. *)
Definition js_of (i : Z) : list Z :=
  match at_ a i with
  | Some elt => default [] (b2j !! elt)
  | None => []
  end.

(** [diag m]: how many of the elements just before position [m] are
    indexed, i.e. the value of [j2len] on the diagonal. *)
Fixpoint diag (m : nat) : Z :=
  match m with
  | O => 0
  | S m' => if bool_decide (js_of (Z.of_nat m') = []) then 0 else diag m' + 1
  end.

Definition D (j : Z) : Z := diag (Z.to_nat (j + 1)).

Lemma diag_bounds (m : nat) : 0 <= diag m <= Z.of_nat m.
Proof.
  induction m as [|m IH]; cbn [diag]; [lia|]. case_bool_decide; lia.
Qed.

Lemma D_bounds (j : Z) : 0 <= D j ∧ (-1 <= j -> D j <= j + 1).
Proof. unfold D. pose proof (diag_bounds (Z.to_nat (j + 1))). lia. Qed.

Lemma D_step (j : Z) : 0 <= j -> js_of j ≠ [] -> D j = D (j - 1) + 1.
Proof.
  intros Hj Hne. unfold D.
  replace (Z.to_nat (j + 1)) with (S (Z.to_nat j)) by lia.
  replace (j - 1 + 1) with j by lia. cbn [diag].
  rewrite Z2Nat.id by lia. rewrite bool_decide_eq_false_2 by exact Hne.
  reflexivity.
Qed.

Lemma D_zero (j : Z) : 0 <= j -> js_of j = [] -> D j = 0.
Proof.
  intros Hj He. unfold D.
  replace (Z.to_nat (j + 1)) with (S (Z.to_nat j)) by lia. cbn [diag].
  rewrite Z2Nat.id by lia. rewrite bool_decide_eq_true_2 by exact He.
  reflexivity.
Qed.

Lemma js_of_spec (i : Z) :
  0 <= i -> js_of i ≠ [] ->
  i ∈ js_of i
  ∧ StronglySorted Z.lt (js_of i)
  ∧ ∀ j, j ∈ js_of i -> 0 <= j < n ∧ js_of j = js_of i.
Proof.
  intros Hi Hne. unfold js_of in *.
  destruct (at_ a i) as [c|] eqn:Hai; [|congruence].
  destruct (Hget c) as [E|E]; [congruence|]. rewrite E.
  split; [|split].
  - apply positions_from_spec. split; [lia|]. rewrite Z.sub_0_r. exact Hai.
  - apply positions_from_sorted.
  - intros j Hj. apply positions_from_spec in Hj as [Hj Hlk].
    rewrite Z.sub_0_r in Hlk. split.
    + split; [exact Hj|]. apply lookup_lt_Some in Hlk. subst n. lia.
    + unfold at_. rewrite Hlk, E. reflexivity.
Qed.

Abbreviation getz m j := (default 0 (m !! j)).

Lemma getz_insert (m : gmap Z Z) (j k j' : Z) :
  getz (<[j := k]> m) j' = if bool_decide (j = j') then k else getz m j'.
Proof.
  case_bool_decide as E.
  - subst. rewrite lookup_insert_eq. reflexivity.
  - rewrite lookup_insert_ne by exact E. reflexivity.
Qed.

Lemma scan_row_self (i : Z) (prev : gmap Z Z) (js : list Z)
    (st : Match * gmap Z Z) :
  0 <= i < n -> js_of i ≠ [] ->
  (∀ j, getz prev j <= D j) ->
  (∀ j, getz prev j <= D (i - 1)) ->
  getz prev (i - 1) = D (i - 1) ->
  StronglySorted Z.lt js ->
  (∀ j, j ∈ js -> 0 <= j < n ∧ js_of j ≠ []) ->
  st.1.1.1 = st.1.1.2 ->
  0 <= st.1.1.1 ∧ st.1.1.1 + st.1.2 <= i + 1 ∧ 0 <= st.1.2 ->
  (∀ j, 0 <= j < i -> D j <= st.1.2) ->
  (∀ j, getz st.2 j <= D j) ->
  (∀ j, getz st.2 j <= D i) ->
  (i ∈ js ∨ (D i <= st.1.2 ∧ getz st.2 i = D i)) ->
  let r := scan_row i 0 n prev js st in
  r.1.1.1 = r.1.1.2
  ∧ (0 <= r.1.1.1 ∧ r.1.1.1 + r.1.2 <= i + 1 ∧ 0 <= r.1.2)
  ∧ (∀ j, 0 <= j < i -> D j <= r.1.2)
  ∧ (∀ j, getz r.2 j <= D j)
  ∧ (∀ j, getz r.2 j <= D i)
  ∧ D i <= r.1.2 ∧ getz r.2 i = D i.
Proof.
  intros Hi Hrow Hp1 Hp2 Hp3. revert st.
  induction js as [|j js IH]; intros st Hsort Hjs J1 J2 J3 J4 J5 J6.
  - cbn. destruct J6 as [H|[H1 H2]]; [inversion H|]. tauto.
  - cbn [scan_row].
    destruct (Hjs j ltac:(left)) as [Hj Hjne].
    destruct (Z.ltb_spec j 0) as [?|_]; [lia|].
    destruct (Z.leb_spec n j) as [?|_]; [lia|].
    apply StronglySorted_inv in Hsort as [Hsort Hlt].
    rewrite Forall_forall in Hlt.
    set (k := getz prev (j - 1) + 1).
    assert (k <= D j) as Hk1.
    { rewrite (D_step j) by (lia || exact Hjne). specialize (Hp1 (j - 1)).
      subst k. lia. }
    assert (k <= D i) as Hk2.
    { rewrite (D_step i) by (lia || exact Hrow). specialize (Hp2 (j - 1)).
      subst k. lia. }
    pose proof (D_bounds i) as [_ HDi]. specialize (HDi ltac:(lia)).
    assert (st.1.2 < k -> j = i) as Hupd.
    { intros Hlt'. destruct (decide (j = i)) as [E|Hne]; [exact E|].
      exfalso. destruct (Z.lt_ge_cases j i) as [Hji|Hji].
      - specialize (J3 j ltac:(lia)). lia.
      - destruct J6 as [J6|[J6 _]]; [|lia].
        apply elem_of_cons in J6 as [?|J6]; [lia|].
        specialize (Hlt _ J6). lia. }
    apply IH; clear IH; try assumption.
    + intros j' Hj'. apply Hjs. right. exact Hj'.
    + cbn [fst snd]. destruct (Z.ltb_spec st.1.2 k) as [Hl|_]; [|exact J1].
      cbn [fst snd]. rewrite (Hupd Hl). reflexivity.
    + cbn [fst snd]. destruct (Z.ltb_spec st.1.2 k) as [Hl|_]; [|exact J2].
      cbn [fst snd]. pose proof (Hupd Hl). lia.
    + cbn [fst snd]. intros j' Hj'. specialize (J3 j' Hj').
      destruct (Z.ltb_spec st.1.2 k); cbn [fst snd]; lia.
    + cbn [fst snd]. intros j'. rewrite getz_insert.
      case_bool_decide; [subst; exact Hk1|apply J4].
    + cbn [fst snd]. intros j'. rewrite getz_insert.
      case_bool_decide; [exact Hk2|apply J5].
    + cbn [fst snd]. rewrite getz_insert.
      destruct (decide (j = i)) as [->|Hne].
      * right. rewrite bool_decide_eq_true_2 by reflexivity.
        assert (k = D i) as Hk.
        { subst k. rewrite Hp3. symmetry. apply D_step; [lia|exact Hrow]. }
        split; [|exact Hk].
        destruct (Z.ltb_spec st.1.2 k); cbn [fst snd]; lia.
      * rewrite bool_decide_eq_false_2 by exact Hne.
        destruct J6 as [J6|[J6 J6']].
        -- apply elem_of_cons in J6 as [?|J6]; [congruence|]. left. exact J6.
        -- right. split; [|exact J6'].
           destruct (Z.ltb_spec st.1.2 k); cbn [fst snd]; lia.
Qed.

(** What holds of the best match and of [j2len] when the rows below [i]
    are done. *)
Definition self_inv (i : Z) (st : Match * gmap Z Z) : Prop :=
  st.1.1.1 = st.1.1.2
  ∧ (0 <= st.1.1.1 ∧ st.1.1.1 + st.1.2 <= i ∧ 0 <= st.1.2)
  ∧ (∀ j, 0 <= j < i -> D j <= st.1.2)
  ∧ (∀ j, getz st.2 j <= D j)
  ∧ (∀ j, getz st.2 j <= D (i - 1))
  ∧ getz st.2 (i - 1) = D (i - 1).

Lemma getz_empty (j : Z) : getz (∅ : gmap Z Z) j = 0.
Proof. rewrite lookup_empty. reflexivity. Qed.

Lemma scan_rows_self (i : Z) (st : Match * gmap Z Z) :
  0 <= i < n -> self_inv i st ->
  self_inv (i + 1) (scan_rows a b2j 0 n st i).
Proof.
  intros Hi (I1 & I2 & I3 & I4 & I5 & I6).
  unfold scan_rows. fold (js_of i).
  destruct (decide (js_of i = [])) as [He|Hne].
  - rewrite He. cbn [scan_row]. unfold self_inv. cbn [fst snd].
    replace (i + 1 - 1) with i by lia. rewrite (D_zero i) by (lia || exact He).
    split; [exact I1|]. split; [lia|]. split.
    + intros j Hj. destruct (decide (j = i)) as [->|Hji].
      * rewrite (D_zero i) by (lia || exact He). lia.
      * apply I3. lia.
    + split; [|split].
      * intros j. rewrite getz_empty. apply D_bounds.
      * intros j. rewrite getz_empty. lia.
      * apply getz_empty.
  - destruct (js_of_spec i ltac:(lia) Hne) as (Hin & Hsorted & Hall).
    pose proof (scan_row_self i st.2 (js_of i) (st.1, ∅) Hi Hne I4 I5 I6
                  Hsorted) as H.
    cbn [fst snd] in H. cbn zeta in H.
    destruct H as (R1 & R2 & R3 & R4 & R5 & R6 & R7).
    + intros j Hj. destruct (Hall j Hj) as [Hr He]. split; [exact Hr|].
      rewrite He. exact Hne.
    + exact I1.
    + lia.
    + exact I3.
    + intros j. rewrite getz_empty. apply D_bounds.
    + intros j. rewrite getz_empty. apply D_bounds.
    + left. exact Hin.
    + unfold self_inv. replace (i + 1 - 1) with i by lia.
      split; [exact R1|]. split; [exact R2|]. split.
      * intros j Hj. destruct (decide (j = i)) as [->|Hji]; [exact R6|].
        apply R3. lia.
      * split; [exact R4|]. split; [exact R5|exact R7].
Qed.

Lemma scan_all_self (m : nat) :
  Z.of_nat m <= n ->
  self_inv (Z.of_nat m)
    (foldl (scan_rows a b2j 0 n) ((0, 0, 0), ∅) (seqZ 0 (Z.of_nat m))).
Proof.
  induction m as [|m IH]; intros Hm.
  - rewrite seqZ_nil by reflexivity. cbn [foldl]. unfold self_inv.
    cbn [fst snd]. split; [reflexivity|]. split; [cbn; lia|]. split.
    + intros j Hj. cbn in Hj. lia.
    + split; [|split].
      * intros j. rewrite getz_empty. apply D_bounds.
      * intros j. rewrite getz_empty. apply D_bounds.
      * rewrite getz_empty. reflexivity.
  - rewrite seqZ_S, foldl_snoc, Z.add_0_l.
    replace (Z.of_nat (S m)) with (Z.of_nat m + 1) by lia.
    apply scan_rows_self; [lia|]. apply IH. lia.
Qed.

Lemma same_at_self (i : Z) : 0 <= i < n -> same_at false a a i i = true.
Proof.
  intros Hi. unfold same_at, at_.
  destruct (lookup_lt_is_Some_2 a (Z.to_nat i) ltac:(subst n; lia)) as [x ->].
  rewrite isbjunk_false, N.eqb_refl. reflexivity.
Qed.

Lemma extend_down_self (cnt : nat) (i k : Z) :
  0 <= i -> i + k <= n -> 0 <= k -> i <= Z.of_nat cnt ->
  extend_down cnt false a a 0 0 (i, i, k) = (0, 0, i + k).
Proof.
  revert i k. induction cnt as [|cnt IH]; intros i k Hi Hik Hk Hcnt.
  - assert (i = 0) as -> by lia. cbn. rewrite Z.add_0_l. reflexivity.
  - cbn [extend_down]. destruct (Z.ltb_spec 0 i) as [Hpos|Hzero].
    + cbn [andb]. rewrite same_at_self by lia.
      rewrite IH by lia. f_equal. lia.
    + assert (i = 0) as -> by lia. cbn [andb]. rewrite Z.add_0_l.
      reflexivity.
Qed.

Lemma extend_up_self (cnt : nat) (k : Z) :
  0 <= k <= n -> n - k <= Z.of_nat cnt ->
  extend_up cnt false a a n n (0, 0, k) = (0, 0, n).
Proof.
  revert k. induction cnt as [|cnt IH]; intros k Hk Hcnt.
  - assert (k = n) as -> by lia. reflexivity.
  - cbn [extend_up]. rewrite !Z.add_0_l.
    destruct (Z.ltb_spec k n) as [Hlt|Hge].
    + cbn [andb]. rewrite same_at_self by lia. apply IH; lia.
    + assert (k = n) as -> by lia. reflexivity.
Qed.

Lemma find_longest_match_self :
  find_longest_match a a b2j 0 n 0 n = (0, 0, n).
Proof.
  unfold find_longest_match.
  pose proof (scan_all_self (length a) ltac:(subst n; lia)) as H.
  fold n in H. rewrite Z.sub_0_r.
  destruct (foldl _ _ _) as [[[i j] k] row].
  destruct H as (I1 & I2 & _). cbn [fst snd] in *. subst j.
  assert (extend false a a 0 n 0 n (i, i, k) = (0, 0, n)) as ->.
  { unfold extend. cbn [fst snd]. rewrite Z.sub_0_r.
    rewrite extend_down_self by lia. cbn [fst snd].
    apply extend_up_self; lia. }
  unfold extend. cbn [fst snd].
  replace (Z.to_nat (0 - 0)) with O by reflexivity. cbn [extend_down fst snd].
  replace (Z.to_nat (n - (0 + n))) with O by lia. reflexivity.
Qed.

End SelfMatch.

Lemma raw_blocks_self (a : str) :
  raw_blocks a a
  = Some (if bool_decide (a = []) then []
          else [(0, 0, Z.of_nat (length a))]).
Proof.
  unfold raw_blocks, blocks_fuel. cbn [blocks_loop].
  rewrite (find_longest_match_self a (chain_b a) (chain_b_lookup a)).
  case_bool_decide as Ha.
  - subst a. reflexivity.
  - assert (0 < Z.of_nat (length a)) as Hpos.
    { destruct a; [congruence|cbn [length]; lia]. }
    rewrite (proj2 (Z.eqb_neq _ 0)) by lia.
    rewrite !Z.add_0_l, !Z.ltb_irrefl. cbn [andb app].
    destruct (2 * length a)%nat; reflexivity.
Qed.

Lemma matches_self (a : str) : matches a a = Z.of_nat (length a).
Proof.
  rewrite (matches_raw a a _ (raw_blocks_self a)).
  case_bool_decide as Ha; [subst a; reflexivity|].
  rewrite sum_sizes_cons, sum_sizes_nil. cbn [snd]. lia.
Qed.

(** ** Similarity scorer: the ratio as a fraction *)

Lemma similarity_fraction (a b : str) :
  let L := Z.of_nat (length a) + Z.of_nat (length b) in
  (L = 0 -> similarity a b = 1%Q)
  ∧ (0 < L -> (similarity a b == (2 * matches a b # Z.to_pos L))%Q).
Proof.
  cbn zeta. unfold similarity, ratio, calculate_ratio. fold (matches a b).
  split.
  - intros ->. reflexivity.
  - intros HL. rewrite (proj2 (Z.eqb_neq _ 0)) by lia. apply Qred_correct.
Qed.

Lemma similarity_self (a : str) : similarity a a = 1%Q.
Proof.
  unfold similarity, ratio, calculate_ratio. fold (matches a a).
  rewrite matches_self.
  destruct (Z.eqb_spec (Z.of_nat (length a) + Z.of_nat (length a)) 0)
    as [_|Hne]; [reflexivity|].
  change 1%Q with (Qred 1). apply Qred_complete.
  unfold Qeq. cbn [Qnum Qden]. rewrite Z2Pos.id by lia. lia.
Qed.

Lemma similarity_range (a b : str) :
  (0 <= similarity a b)%Q ∧ (similarity a b <= 1)%Q.
Proof.
  pose proof (matches_bounds a b) as (B0 & Ba & Bb & _).
  destruct (similarity_fraction a b) as [Hz Hp]. cbn zeta in Hz, Hp.
  destruct (decide (Z.of_nat (length a) + Z.of_nat (length b) = 0)) as [E|E].
  - rewrite (Hz E). split; [discriminate|apply Qle_refl].
  - rewrite (Hp ltac:(lia)). unfold Qle. cbn [Qnum Qden].
    rewrite Z2Pos.id by lia. lia.
Qed.

Lemma similarity_one (a b : str) : (similarity a b == 1)%Q <-> a = b.
Proof.
  split; [|intros ->; rewrite similarity_self; reflexivity].
  intros H1.
  pose proof (matches_bounds a b) as (B0 & Ba & Bb & Heq).
  destruct (similarity_fraction a b) as [Hz Hp]. cbn zeta in Hz, Hp.
  destruct (decide (Z.of_nat (length a) + Z.of_nat (length b) = 0)) as [E|E].
  - destruct a, b; try reflexivity; cbn [length] in E; lia.
  - rewrite (Hp ltac:(lia)) in H1. unfold Qeq in H1. cbn [Qnum Qden] in H1.
    rewrite Z2Pos.id in H1 by lia. apply Heq; lia.
Qed.



(** C4 as stated fails: the scorer is not symmetric.  "tide" against
    "diet" scores 1/4, "diet" against "tide" 1/2. *)
Lemma similarity_not_symmetric :
  ¬ ((∀ a b : str, (similarity a b == similarity b a)%Q)
     ∧ (∀ a : str, a ≠ [] -> (similarity a a == 1)%Q)).
Proof.
  intros [Hsym _]. specialize (Hsym (py "tide") (py "diet")).
  vm_compute in Hsym. discriminate Hsym.
Qed.

(** C4, amended: the scorer is self-identical, and symmetric in its top
    score only.  For every non-empty string [a], [similarity a a] is 1;
    [similarity a b] is 1 exactly when [a = b], hence exactly when
    [similarity b a] is 1; every score lies between 0 and 1.  Other scores
    depend on the order of the arguments: "tide" against "diet" scores
    1/4, "diet" against "tide" 1/2. *)
Theorem similarity_self_identical :
  (∀ a : str, a ≠ [] -> similarity a a = 1%Q)
  ∧ (∀ a b : str, (similarity a b == 1)%Q <-> a = b)
  ∧ (∀ a b : str, (similarity a b == 1)%Q <-> (similarity b a == 1)%Q)
  ∧ (∀ a b : str, (0 <= similarity a b)%Q ∧ (similarity a b <= 1)%Q)
  ∧ similarity (py "tide") (py "diet") = (1 # 4)%Q
  ∧ similarity (py "diet") (py "tide") = (1 # 2)%Q.
Proof.
  split; [intros a _; apply similarity_self|].
  split; [apply similarity_one|].
  split; [intros a b; rewrite !similarity_one; split; congruence|].
  split; [apply similarity_range|].
  split; vm_compute; reflexivity.
Qed.

Lemma similarity_self_identical_witness :
  similarity (py "Straße") (py "Straße") = 1%Q.
Proof.
  apply (proj1 similarity_self_identical (py "Straße")).
  vm_compute. discriminate.
Defined.

(** ** Grader: the candidate loop *)



Section GradeLoop.

Context (tables : case_tables).
Hypothesis Hspace : keeps_space (to_lower_full tables).



Context (lang user : str).
Hypothesis Huser : strip user ≠ [].

Let u : str := normalize tables lang user.





End GradeLoop.






(** * Further properties *)

(** ** Grader: what the verdict depends on *)

Lemma is_close_enough_shape (tables : case_tables) (user correct lang : str) :
  let u := normalize tables lang user in
  let c := normalize tables lang correct in
  let r := is_close_enough tables user correct lang in
  ((u = [] ∨ c = []) ∧ r = (false, 0%Q))
  ∨ (u ≠ [] ∧ c ≠ [] ∧ u = c ∧ r = (true, 1%Q))
  ∨ (u ≠ [] ∧ c ≠ [] ∧ u ≠ c
     ∧ ((length u <= 3)%nat ∨ (length c <= 3)%nat)
     ∧ r = (false, similarity u c))
  ∨ (u ≠ [] ∧ c ≠ [] ∧ u ≠ c ∧ (3 < length u)%nat ∧ (3 < length c)%nat
     ∧ r = (Qle_bool FUZZY_THRESHOLD (similarity u c), similarity u c)).
Proof.
  cbn zeta. rewrite is_close_enough_eq. cbn zeta.
  set (u := normalize tables lang user).
  set (c := normalize tables lang correct).
  destruct (decide (u = [])) as [Hu|Hu].
  { left. rewrite (bool_decide_eq_true_2 _ Hu). split; [left; exact Hu|].
    reflexivity. }
  destruct (decide (c = [])) as [Hc|Hc].
  { left. rewrite (bool_decide_eq_true_2 _ Hc), orb_true_r.
    split; [right; exact Hc|reflexivity]. }
  rewrite (bool_decide_eq_false_2 _ Hu), (bool_decide_eq_false_2 _ Hc).
  cbn [orb]. right.
  destruct (decide (u = c)) as [E|Hne].
  { left. rewrite (bool_decide_eq_true_2 _ E). tauto. }
  rewrite (bool_decide_eq_false_2 _ Hne). right.
  destruct (Z.leb_spec (Z.of_nat (length u)) 3) as [Hlu|Hlu];
    [|destruct (Z.leb_spec (Z.of_nat (length c)) 3) as [Hlc|Hlc]];
    cbn [orb].
  - left. repeat (split; [assumption|]). split; [left; lia|reflexivity].
  - left. repeat (split; [assumption|]). split; [right; lia|reflexivity].
  - right. repeat (split; [assumption|]).
    split; [lia|]. split; [lia|reflexivity].
Qed.

(** Unequal strings of which one has at most three elements score below
    the threshold: at most 4/5. *)
Lemma similarity_short_unequal (a b : str) :
  a ≠ b -> (length a <= 3)%nat ∨ (length b <= 3)%nat ->
  (similarity a b < 88 # 100)%Q.
Proof.
  intros Hne Hshort.
  pose proof (matches_bounds a b) as (B0 & Ba & Bb & Heq).
  destruct (similarity_fraction a b) as [_ Hp]. cbn zeta in Hp.
  assert (0 < Z.of_nat (length a) + Z.of_nat (length b)) as HL.
  { destruct a, b; cbn [length]; try lia. congruence. }
  assert (¬ (matches a b = Z.of_nat (length a)
             ∧ matches a b = Z.of_nat (length b))) as Hboth.
  { intros [E1 E2]. apply Hne, Heq; assumption. }
  rewrite (Hp HL). unfold Qlt. cbn [Qnum Qden].
  rewrite Z2Pos.id by lia. lia.
Qed.

(** The test on the lengths in [is_close_enough] never changes a verdict:
    a candidate is accepted exactly when neither normalized string is
    empty and the two are equal or their similarity is at least 0.88.
    Unequal strings with a side of at most three characters never reach
    that similarity. *)
Theorem length_guard_never_decides (tables : case_tables)
    (user correct lang : str) :
  let u := normalize tables lang user in
  let c := normalize tables lang correct in
  (is_close_enough tables user correct lang).1 = true
  <-> u ≠ [] ∧ c ≠ [] ∧ (u = c ∨ (88 # 100 <= similarity u c)%Q).
Proof.
  cbn zeta.
  destruct (is_close_enough_shape tables user correct lang)
    as [[He ->]|[(Hu & Hc & E & ->)|[(Hu & Hc & Hne & Hlen & ->)
                                    |(Hu & Hc & Hne & _ & _ & ->)]]];
    cbn [fst].
  - split; [discriminate|]. intros (Hu & Hc & _). destruct He; contradiction.
  - split; [|reflexivity]. intros _. split; [exact Hu|].
    split; [exact Hc|left; exact E].
  - split; [discriminate|]. intros (_ & _ & [E|Hsim]); [contradiction|].
    exfalso. apply (Qlt_not_le _ _ (similarity_short_unequal _ _ Hne Hlen)).
    exact Hsim.
  - rewrite Qle_bool_iff. unfold FUZZY_THRESHOLD. split.
    + intros Hsim. split; [exact Hu|]. split; [exact Hc|right; exact Hsim].
    + intros (_ & _ & [E|Hsim]); [contradiction|exact Hsim].
Qed.

(** The confidence of [is_close_enough] lies between 0 and 1, is at least
    0.88 for an accepted candidate, and is 1 exactly when the normalized
    strings are equal and not empty. *)
Theorem confidence_range (tables : case_tables) (user correct lang : str) :
  let u := normalize tables lang user in
  let c := normalize tables lang correct in
  let r := is_close_enough tables user correct lang in
  (0 <= r.2)%Q ∧ (r.2 <= 1)%Q
  ∧ (r.1 = true -> (88 # 100 <= r.2)%Q)
  ∧ ((r.2 == 1)%Q <-> u ≠ [] ∧ u = c).
Proof.
  cbn zeta.
  destruct (is_close_enough_shape tables user correct lang)
    as [[He ->]|[(Hu & Hc & E & ->)|[(Hu & Hc & Hne & Hlen & ->)
                                    |(Hu & Hc & Hne & _ & _ & ->)]]];
    cbn [fst snd].
  - split; [apply Qle_refl|]. split; [discriminate|].
    split; [discriminate|]. split; [discriminate|].
    intros [Hu E]. destruct He as [He|He]; congruence.
  - split; [discriminate|]. split; [apply Qle_refl|].
    split; [intros _; discriminate|]. split; [tauto|reflexivity].
  - destruct (similarity_range (normalize tables lang user)
                (normalize tables lang correct)) as [H0 H1].
    split; [exact H0|]. split; [exact H1|]. split; [discriminate|].
    rewrite similarity_one. tauto.
  - destruct (similarity_range (normalize tables lang user)
                (normalize tables lang correct)) as [H0 H1].
    split; [exact H0|]. split; [exact H1|].
    split; [apply Qle_bool_iff|]. rewrite similarity_one. tauto.
Qed.

(** An accepted candidate has about the length of the answer: each of
    the two normalized strings has at least 11/14 of the length of the
    other. *)
Theorem accepted_lengths_close (tables : case_tables)
    (user correct lang : str) :
  let u := normalize tables lang user in
  let c := normalize tables lang correct in
  (is_close_enough tables user correct lang).1 = true ->
  (11 * length u <= 14 * length c)%nat ∧ (11 * length c <= 14 * length u)%nat.
Proof.
  cbn zeta.
  destruct (is_close_enough_shape tables user correct lang)
    as [[He ->]|[(Hu & Hc & E & ->)|[(Hu & Hc & Hne & Hlen & ->)
                                    |(Hu & Hc & Hne & Hlu & Hlc & ->)]]];
    cbn [fst]; try discriminate.
  - intros _. rewrite E. lia.
  - intros Hsim. apply Qle_bool_iff in Hsim.
    set (u := normalize tables lang user) in *.
    set (c := normalize tables lang correct) in *.
    pose proof (matches_bounds u c) as (B0 & Ba & Bb & _).
    destruct (similarity_fraction u c) as [_ Hp]. cbn zeta in Hp.
    rewrite (Hp ltac:(lia)) in Hsim.
    unfold Qle, FUZZY_THRESHOLD in Hsim. cbn [Qnum Qden] in Hsim.
    rewrite Z2Pos.id in Hsim by lia. lia.
Qed.

Lemma accepted_lengths_close_witness :
  let u := normalize latin_tables (py "de") (py "gehn") in
  let c := normalize latin_tables (py "de") (py "gehen") in
  (11 * length u <= 14 * length c)%nat ∧ (11 * length c <= 14 * length u)%nat.
Proof.
  apply (accepted_lengths_close latin_tables (py "gehn") (py "gehen")
           (py "de")).
  vm_compute. reflexivity.
Defined.

(** ** The play handler: every answer *)




(** One answered question, whatever the answer. *)
Lemma play_question_step (tables : case_tables) (now1 now2 : Z)
    (rnd_mode : str) (d : db) (g : game) (id : Z) (w : word)
    (answer : option str) :
  get_current_word d g = Some (id, w) ->
  ∃ was_correct fb,
    play_question tables now1 now2 rnd_mode d (Some g) answer
    = to_play_question
        (update_after_answer now1 now2 d id was_correct (box w)).1
        (advance_game (set_feedback g fb) was_correct)
    ∧ (was_correct = true <-> fb.1 = ok).
Proof.
  intros Hcur. unfold play_question. rewrite Hcur.
  destruct (question_of g rnd_mode w (get_translations d id))
    as [correct_list answer_lang].
  case_bool_decide as Hempty.
  - exists false, (warn, Pas correct_list 1). split; [reflexivity|].
    split; discriminate.
  - destruct (grade_loop _ _ _ _ _) as [matched [best_sim best_target]].
    destruct matched.
    + eexists true, (ok, _). split; [reflexivity|]. split; reflexivity.
    + eexists false, (bad, _). split; [reflexivity|]. split; discriminate.
Qed.

(** Every answered question moves the game on by one word and books the
    answer once, in the game and in the word table alike: the score goes
    up by one exactly when the word's count of correct answers does, and
    otherwise the count of wrong answers goes up and the word falls to
    box 1; the queue, the other words and the translations stay. *)
Theorem play_question_bookkeeping (tables : case_tables) (now1 now2 : Z)
    (rnd_mode : str) (d : db) (g : game) (answer : option str)
    (d' : db) (g' : game) :
  play_question tables now1 now2 rnd_mode d (Some g) answer
  = to_play_question d' g' ->
  ∃ id w w',
    get_current_word d g = Some (id, w)
    ∧ words d' !! id = Some w'
    ∧ (∀ id', id' ≠ id -> words d' !! id' = words d !! id')
    ∧ translations d' = translations d
    ∧ idx g' = idx g + 1 ∧ queue g' = queue g ∧ total g' = total g
    ∧ mode g' = mode g ∧ pool g' = pool g
    ∧ german w' = german w ∧ last_seen_at w' = Some now1
    ∧ ((score g' = score g + 1
        ∧ correct_count w' = correct_count w + 1
        ∧ wrong_count w' = wrong_count w
        ∧ box w' = Z.min 5 (box w + 1)
        ∧ ∃ m, last_feedback g' = Some (ok, m))
       ∨ (score g' = score g
          ∧ correct_count w' = correct_count w
          ∧ wrong_count w' = wrong_count w + 1
          ∧ box w' = 1 ∧ next_due_at w' = now2
          ∧ ∃ k m, last_feedback g' = Some (k, m) ∧ k ≠ ok)).
Proof.
  intros Hrun.
  destruct (get_current_word d g) as [[id w]|] eqn:Hcur.
  2:{ unfold play_question in Hrun. rewrite Hcur in Hrun. discriminate. }
  destruct (play_question_step tables now1 now2 rnd_mode d g id w answer Hcur)
    as (was_correct & [k m] & Hstep & Hkind).
  rewrite Hstep in Hrun. injection Hrun as <- <-.
  pose proof (get_current_word_stored d g id w Hcur) as Hw.
  exists id, w, (review_row was_correct
                   (if was_correct then Z.min 5 (box w + 1) else 1) now1
                   (schedule_next now2
                      (if was_correct then Z.min 5 (box w + 1) else 1)) w).
  unfold update_after_answer. cbn [fst words translations].
  split; [reflexivity|]. split.
  { rewrite lookup_alter_eq, Hw. reflexivity. }
  split.
  { intros id' Hne. apply lookup_alter_ne. congruence. }
  do 8 (split; [reflexivity|]).
  cbn [fst] in Hkind. destruct was_correct; cbn.
  - left. do 4 (split; [reflexivity|]). exists m.
    rewrite (proj1 Hkind eq_refl). reflexivity.
  - right. do 4 (split; [reflexivity|]).
    split; [apply schedule_next_box1|]. exists k, m.
    split; [reflexivity|]. intros E. apply Hkind in E. discriminate.
Qed.

Lemma play_question_bookkeeping_witness :
  ∃ id w w',
    get_current_word demo_db demo_game = Some (id, w)
    ∧ words (update_after_answer 100 100 demo_db 1 true 1).1 !! id = Some w'
    ∧ box w' = 2 ∧ correct_count w' = 1.
Proof.
  destruct (play_question_bookkeeping latin_tables 100 100 (py "de->tr")
              demo_db demo_game (Some (py "ELMA"))
              (update_after_answer 100 100 demo_db 1 true 1).1
              (advance_game
                 (set_feedback demo_game
                    (ok, Dogru true 1%Q [py "elma"] 2)) true))
    as (id & w & w' & Hcur & Hw' & _ & _ & _ & _ & _ & _ & _ & _ & _ & Hcase).
  - vm_compute. reflexivity.
  - exists id, w, w'. split; [exact Hcur|]. split; [exact Hw'|].
    assert (get_current_word demo_db demo_game = Some (1, demo_word)) as E
      by (vm_compute; reflexivity).
    rewrite E in Hcur. injection Hcur as <- <-.
    destruct Hcase as [(_ & Hc & _ & Hb & _)|(Hs & _)].
    + split; [exact Hb|exact Hc].
    + vm_compute in Hs. discriminate Hs.
Defined.

(** [start_game]: [ids] are the ids of the rows that [get_due_words] or
    [get_random_words] returned. *)
Definition start_game (mode pool : str) (ids : list Z) : game :=
  {| mode := mode; pool := pool; queue := ids; idx := 0; score := 0;
     total := Z.of_nat (length ids); last_feedback := None |}.

(** A run of the game: one [POST] to [/play/q] for every answer, each with
    its own clock readings and random choice. *)
Fixpoint play_all (tables : case_tables) (d : db) (g : game)
    (posts : list (Z * Z * str * option str)) : option (db * game) :=
  match posts with
  | [] => Some (d, g)
  | (now1, now2, rnd_mode, answer) :: posts' =>
    match play_question tables now1 now2 rnd_mode d (Some g) answer with
    | to_play_question d' g' => play_all tables d' g' posts'
    | _ => None
    end
  end.

Lemma play_all_invariant (tables : case_tables) (d : db) (g : game)
    (posts : list (Z * Z * str * option str)) :
  0 <= idx g ->
  Z.of_nat (length posts) + idx g <= Z.of_nat (length (queue g)) ->
  (∀ id, id ∈ queue g -> is_Some (words d !! id)) ->
  ∃ d' g',
    play_all tables d g posts = Some (d', g')
    ∧ idx g' = idx g + Z.of_nat (length posts)
    ∧ score g <= score g' <= score g + Z.of_nat (length posts)
    ∧ queue g' = queue g ∧ total g' = total g
    ∧ translations d' = translations d
    ∧ (∀ id, is_Some (words d' !! id) <-> is_Some (words d !! id)).
Proof.
  revert d g. induction posts as [|[[[now1 now2] rnd_mode] answer] posts IH];
    intros d g Hidx Hlen Hex.
  - exists d, g. cbn. split; [reflexivity|]. split; [lia|]. split; [lia|].
    repeat (split; try reflexivity).
  - cbn [length] in Hlen.
    assert (∃ id w, get_current_word d g = Some (id, w)) as (id & w & Hcur).
    { unfold get_current_word.
      destruct (Z.leb_spec (Z.of_nat (length (queue g))) (idx g)); [lia|].
      destruct (lookup_lt_is_Some_2 (queue g) (Z.to_nat (idx g))
                  ltac:(lia)) as [id Hid].
      rewrite Hid.
      destruct (Hex id) as [w Hw]; [eapply list_elem_of_lookup_2, Hid|].
      rewrite Hw. exists id, w. reflexivity. }
    destruct (play_question_step tables now1 now2 rnd_mode d g id w answer
                Hcur) as (was_correct & fb & Hstep & _).
    cbn [play_all]. rewrite Hstep.
    set (d1 := (update_after_answer now1 now2 d id was_correct (box w)).1).
    set (g1 := advance_game (set_feedback g fb) was_correct).
    assert (∀ id', is_Some (words d1 !! id') <-> is_Some (words d !! id'))
      as Hdom.
    { intros id'. subst d1. unfold update_after_answer. cbn [fst words].
      destruct (decide (id' = id)) as [->|Hne].
      - rewrite lookup_alter_eq, fmap_is_Some. reflexivity.
      - rewrite lookup_alter_ne by congruence. reflexivity. }
    destruct (IH d1 g1) as (d' & g' & Hrun & Hi & Hs & Hq & Ht & Htr & Hd).
    + subst g1. cbn. lia.
    + subst g1. cbn. lia.
    + intros id' Hid'. apply Hdom. apply Hex. exact Hid'.
    + exists d', g'. split; [exact Hrun|].
      subst g1. cbn [advance_game set_feedback idx score queue total] in *.
      cbn [length]. split; [lia|]. split; [destruct was_correct; lia|].
      split; [exact Hq|]. split; [exact Ht|]. split; [exact Htr|].
      intros id'. rewrite Hd. apply Hdom.
Qed.

(** A game over [n] stored words takes exactly [n] answers: every one of
    the first [n] posts is answered with the next question, whatever the
    answers are, and after them the handler sends to the page of the
    result; the score is between 0 and [total = n], and no word or
    translation was added or removed on the way. *)
Theorem game_takes_total_answers (tables : case_tables) (d : db)
    (mode_ pool_ : str) (ids : list Z)
    (posts : list (Z * Z * str * option str)) :
  (∀ id, id ∈ ids -> is_Some (words d !! id)) ->
  length posts = length ids ->
  ∃ d' g',
    play_all tables d (start_game mode_ pool_ ids) posts = Some (d', g')
    ∧ (∀ now1 now2 rnd_mode answer,
         play_question tables now1 now2 rnd_mode d' (Some g') answer
         = to_play_done)
    ∧ idx g' = total g' ∧ total g' = Z.of_nat (length ids)
    ∧ 0 <= score g' <= total g'
    ∧ translations d' = translations d
    ∧ (∀ id, is_Some (words d' !! id) <-> is_Some (words d !! id)).
Proof.
  intros Hex Hlen.
  destruct (play_all_invariant tables d (start_game mode_ pool_ ids) posts)
    as (d' & g' & Hrun & Hi & Hs & Hq & Ht & Htr & Hd).
  - cbn. lia.
  - cbn. lia.
  - exact Hex.
  - exists d', g'. cbn in Hi, Hs, Hq, Ht.
    split; [exact Hrun|]. split.
    + intros now1 now2 rnd_mode answer. unfold play_question, get_current_word.
      rewrite Hq.
      destruct (Z.leb_spec (Z.of_nat (length ids)) (idx g')); [reflexivity|].
      lia.
    + split; [lia|]. split; [exact Ht|]. split; [lia|].
      split; [exact Htr|exact Hd].
Qed.

Lemma game_takes_total_answers_witness :
  ∃ d' g',
    play_all latin_tables demo_db (start_game (py "mixed") (py "due") [1; 1])
      [(10, 10, py "tr->de", Some (py "apfel"));
       (20, 20, py "de->tr", Some (py "Elma"))]
    = Some (d', g')
    ∧ (∀ now1 now2 rnd_mode answer,
         play_question latin_tables now1 now2 rnd_mode d' (Some g') answer
         = to_play_done)
    ∧ idx g' = total g' ∧ total g' = 2
    ∧ 0 <= score g' <= total g'
    ∧ translations d' = translations demo_db
    ∧ (∀ id, is_Some (words d' !! id) <-> is_Some (words demo_db !! id)).
Proof.
  apply (game_takes_total_answers latin_tables demo_db (py "mixed")
           (py "due") [1; 1]).
  - intros id Hid. apply list_elem_of_In in Hid.
    destruct Hid as [<-|[<-|[]]]; vm_compute; eauto.
  - reflexivity.
Defined.

(** ** Translation-list parsing: the entries and the edit form *)

Lemma spec_split_no_sep (cur s : str) :
  Forall (fun c => is_sep c = false) cur ->
  Forall (Forall (fun c => is_sep c = false)) (spec_split cur s).
Proof.
  revert cur. induction s as [|c s IH]; intros cur Hcur; cbn.
  - constructor; [exact Hcur|constructor].
  - destruct (is_sep c) eqn:Hc.
    + constructor; [exact Hcur|]. apply IH. constructor.
    + apply IH. apply Forall_app. split; [exact Hcur|].
      constructor; [exact Hc|constructor].
Qed.

Lemma parse_translations_entries (tables : case_tables) (raw : option str)
    (t : str) :
  t ∈ parse_translations tables raw ->
  t ≠ [] ∧ strip t = t ∧ Forall (fun c => is_sep c = false) t.
Proof.
  rewrite parse_translations_refines. unfold spec_parse. intros Ht.
  apply spec_first_seen_elem in Ht.
  apply list_elem_of_filter in Ht as [Hne Ht].
  apply list_elem_of_fmap in Ht as (p & -> & Hp).
  split; [exact Hne|]. split; [apply strip_idemp|].
  apply rstrip_Forall, lstrip_Forall.
  pose proof (spec_split_no_sep [] (default [] raw) (Forall_nil_2 _)) as Hall.
  rewrite Forall_forall in Hall. apply Hall. exact Hp.
Qed.

(** Every parsed entry is a translation as written: not empty, without
    whitespace at its ends and without any of the separators; there are
    at most as many entries as separators in the input, plus one. *)
Theorem parse_translations_clean (tables : case_tables) (raw : option str) :
  Forall (fun t => t ≠ [] ∧ strip t = t
                   ∧ Forall (fun c => is_sep c = false) t)
         (parse_translations tables raw)
  ∧ (length (parse_translations tables raw)
     <= S (length (filter (fun c => is_sep c = true) (default [] raw))))%nat.
Proof.
  split.
  - apply Forall_forall. intros t Ht.
    exact (parse_translations_entries tables raw t Ht).
  - rewrite parse_translations_refines. unfold spec_parse.
    set (s := default [] raw).
    assert (∀ key (l : list str),
              (length (spec_first_seen key l) <= length l)%nat) as Hfs.
    { intros key l. induction l as [|x l IH]; [reflexivity|].
      cbn [spec_first_seen length].
      pose proof (length_filter (fun t' => key t' ≠ key x)
                    (spec_first_seen key l)). lia. }
    assert (∀ cur, length (spec_split cur s)
                   = S (length (filter (fun c => is_sep c = true) s))) as Hsp.
    { induction s as [|c s IH]; intros cur; [reflexivity|].
      cbn [spec_split]. rewrite filter_cons.
      destruct (is_sep c) eqn:Hc.
      - rewrite decide_True by reflexivity. cbn [length]. rewrite IH.
        reflexivity.
      - rewrite decide_False by discriminate. apply IH. }
    etransitivity; [apply Hfs|].
    etransitivity; [apply length_filter|].
    rewrite length_fmap, Hsp. reflexivity.
Qed.

(** [", ".join(l)], the value the edit form shows for the translations *)
Fixpoint join_comma (l : list str) : str :=
  match l with
  | [] => []
  | t :: l' =>
    match l' with
    | [] => t
    | _ => t ++ 44%N :: 32%N :: join_comma l'
    end
  end.

Lemma spec_split_app (cur t s : str) :
  Forall (fun c => is_sep c = false) t ->
  spec_split cur (t ++ s) = spec_split (cur ++ t) s.
Proof.
  intros Ht. revert cur. induction Ht as [|c t Hc _ IH]; intros cur.
  - rewrite app_nil_r. reflexivity.
  - cbn [app spec_split]. rewrite Hc, IH, <- app_assoc. reflexivity.
Qed.

Lemma strip_cons_space (c : char) (s : str) :
  is_space c = true -> strip (c :: s) = strip s.
Proof. intros Hc. unfold strip. cbn [lstrip]. rewrite Hc. reflexivity. Qed.

Lemma spec_split_join (cur t : str) (l : list str) :
  Forall (Forall (fun c => is_sep c = false)) (t :: l) ->
  Forall (fun x => strip x = x) l ->
  strip <$> spec_split cur (join_comma (t :: l)) = strip (cur ++ t) :: l.
Proof.
  revert cur t. induction l as [|t2 l IH]; intros cur t Hsep Hstr.
  - cbn [join_comma]. rewrite <- (app_nil_r t) at 1.
    rewrite spec_split_app by (inversion Hsep; assumption). reflexivity.
  - apply Forall_cons in Hsep as [Ht Hsep].
    apply Forall_cons in Hstr as [Ht2 Hstr].
    change (join_comma (t :: t2 :: l))
      with (t ++ 44%N :: 32%N :: join_comma (t2 :: l)).
    rewrite spec_split_app by exact Ht.
    change (spec_split (cur ++ t) (44%N :: 32%N :: join_comma (t2 :: l)))
      with ((cur ++ t) :: spec_split [32%N] (join_comma (t2 :: l))).
    rewrite fmap_cons, (IH [32%N] t2 Hsep Hstr).
    cbn [app]. rewrite strip_cons_space by reflexivity. rewrite Ht2.
    reflexivity.
Qed.

Lemma filter_Forall_id {A} (P : A -> Prop) `{!∀ x, Decision (P x)}
    (l : list A) :
  Forall P l -> filter P l = l.
Proof.
  induction 1 as [|x l Hx _ IH]; [reflexivity|].
  rewrite filter_cons_True by exact Hx. f_equal. exact IH.
Qed.

Lemma spec_first_seen_distinct (key : str -> str) (l : list str) :
  NoDup (key <$> l) -> spec_first_seen key l = l.
Proof.
  induction l as [|t l IH]; [reflexivity|]. rewrite fmap_cons.
  intros Hnd. apply NoDup_cons in Hnd as [Hnot Hnd].
  cbn [spec_first_seen]. rewrite (IH Hnd). f_equal.
  apply filter_Forall_id.
  apply Forall_forall. intros t' Ht' E. apply Hnot.
  rewrite <- E. apply list_elem_of_fmap. exists t'. split; [reflexivity|exact Ht'].
Qed.

(** The edit form shows the stored translations joined with a comma and a
    space; parsing that text gives the same list back, so saving the form
    untouched keeps the translations that the parser produced, in their
    order. *)
Theorem parse_translations_join (tables : case_tables) (raw : option str) :
  parse_translations tables
    (Some (join_comma (parse_translations tables raw)))
  = parse_translations tables raw.
Proof.
  assert (Forall (fun t => t ≠ [] ∧ strip t = t
                           ∧ Forall (fun c => is_sep c = false) t)
                 (parse_translations tables raw)) as Hclean.
  { apply Forall_forall. intros t Ht.
    exact (parse_translations_entries tables raw t Ht). }
  assert (NoDup (tr_normalize tables <$> parse_translations tables raw))
    as Hnd.
  { rewrite parse_translations_refines. apply spec_first_seen_NoDup. }
  set (l := parse_translations tables raw) in *.
  rewrite parse_translations_refines. unfold spec_parse.
  cbn [default from_option id].
  destruct l as [|t l']; [reflexivity|].
  rewrite (spec_split_join [] t l').
  - apply Forall_cons in Hclean as [(Hne & Hstr & _) Hclean].
    cbn [app]. rewrite Hstr.
    rewrite filter_Forall_id.
    + apply spec_first_seen_distinct. exact Hnd.
    + constructor; [exact Hne|].
      eapply Forall_impl; [exact Hclean|]. cbn. tauto.
  - eapply Forall_impl; [exact Hclean|]. cbn. tauto.
  - apply Forall_cons in Hclean as [_ Hclean].
    eapply Forall_impl; [exact Hclean|]. cbn. tauto.
Qed.

(** ** The word table: creating, editing and deleting *)

(** How a function of the store ends when it does not return: with a
    [ValueError] of its own, an error of the parameter binding, or a
    violated constraint that nothing catches.  Nothing is committed
    then. *)
Inductive failure :=
| ValueError (msg : str)
| BindError (e : exn)
| IntegrityError.

Inductive result (A : Type) :=
| Ok (a : A)
| Fail (f : failure).
Arguments Ok {A} a.
Arguments Fail {A} f.

Definition text_error (t : option str) : option exn :=
  match t with
  | Some t => if existsb is_surrogate t then Some UnicodeEncodeError else None
  | None => None
  end.

Definition int_error (z : Z) : option exn :=
  if fits_int64 z then None else Some OverflowError.

(** The parameters are bound in order: the first that fails decides. *)
Fixpoint first_error (l : list (option exn)) : option exn :=
  match l with
  | [] => None
  | Some e :: _ => Some e
  | None :: l' => first_error l'
  end.

(** One [INSERT INTO translations] outside any [try]. *)
Definition insert_strict (ts id : Z) (d : db) (t : str) : result db :=
  match bind_error id t with
  | Some e => Fail (BindError e)
  | None =>
    if bool_decide (is_Some (words d !! id))
       && bool_decide (Forall (fun r => ¬ (word_id r = id ∧ turkish r = t))
                              (translations d))
    then Ok {| words := words d;
               translations := translations d
                 ++ [{| word_id := id; turkish := t; tr_created_at := ts |}] |}
    else Fail IntegrityError
  end.

Fixpoint insert_strict_all (ts id : Z) (d : db) (trs : list str)
    : result db :=
  match trs with
  | [] => Ok d
  | t :: trs' =>
    match insert_strict ts id d t with
    | Ok d' => insert_strict_all ts id d' trs'
    | Fail f => Fail f
    end
  end.

(** [UPDATE words SET german = ?, example = ?, notes = ?, updated_at = ?] *)
Definition edit_row (german : str) (example notes : option str) (ts : Z)
    (w : word) : word :=
  {| german := german; example := example; notes := notes;
     box := box w; correct_count := correct_count w;
     wrong_count := wrong_count w; created_at := created_at w;
     updated_at := ts; last_seen_at := last_seen_at w;
     next_due_at := next_due_at w |}.

(** [update_word] *)
Definition update_word (tables : case_tables) (now : Z) (d : db) (id : Z)
    (german translations_raw example notes : option str) : result db :=
  let german := strip (default [] german) in
  if bool_decide (german = [])
  then Fail (ValueError (py "Almanca boş olamaz."))
  else
    let translations_ := parse_translations tables translations_raw in
    if bool_decide (translations_ = [])
    then Fail (ValueError (py "En az bir Türkçe karşılık gerekli."))
    else
      let ts := now in
      match first_error [text_error (Some german); text_error example;
                         text_error notes; int_error id] with
      | Some e => Fail (BindError e)
      | None =>
        match words d !! id with
        | None => Fail (ValueError (py "Kelime bulunamadı."))
        | Some w =>
          let d :=
            {| words := <[id := edit_row german example notes ts w]> (words d);
               translations :=
                 filter (fun r => word_id r ≠ id) (translations d) |} in
          insert_strict_all ts id d translations_
        end
      end.

(** [delete_word]; the rows of [translations] that refer to the word go
    with it ([ON DELETE CASCADE], foreign keys being on). *)
Definition delete_word (d : db) (id : Z) : outcome db :=
  match int_error id with
  | Some e => Raised e
  | None =>
    Done {| words := delete id (words d);
            translations :=
              filter (fun r => word_id r ≠ id) (translations d) |}
  end.

(** The row that [create_word] inserts. *)
Definition new_word (german : str) (example notes : option str)
    (ts due : Z) : word :=
  {| german := german; example := example; notes := notes; box := 1;
     correct_count := 0; wrong_count := 0; created_at := ts;
     updated_at := ts; last_seen_at := None; next_due_at := due |}.

(** [create_word]; [lastrowid] is the id that the table gives the new
    row, [now_ts] and [now_due] are the two readings of the clock. *)
Definition create_word (now_ts now_due lastrowid : Z) (d : db)
    (german : option str) (translations_ : list str)
    (example notes : option str) : result (db * Z) :=
  let german := strip (default [] german) in
  if bool_decide (german = [])
  then Fail (ValueError (py "Almanca boş olamaz."))
  else if bool_decide (translations_ = [])
  then Fail (ValueError (py "En az bir Türkçe karşılık gir."))
  else
    let ts := now_ts in
    match first_error [text_error (Some german); text_error example;
                       text_error notes] with
    | Some e => Fail (BindError e)
    | None =>
      let word_id_ := lastrowid in
      let d :=
        {| words := <[word_id_ := new_word german example notes ts
                                    (schedule_next now_due 1)]> (words d);
           translations := translations d |} in
      match insert_all ts word_id_ d (strip <$> translations_) with
      | Done d' => Ok (d', word_id_)
      | Raised e => Fail (BindError e)
      end
    end.

(** Every translation belongs to a stored word. *)
Definition db_fk (d : db) : Prop :=
  Forall (fun r => is_Some (words d !! word_id r)) (translations d).

Lemma filter_none {A} (P : A -> Prop) `{!∀ x, Decision (P x)} (l : list A) :
  Forall (fun x => ¬ P x) l -> filter P l = [].
Proof.
  induction 1 as [|x l Hx _ IH]; [reflexivity|].
  rewrite filter_cons_False by exact Hx. exact IH.
Qed.

Lemma get_translations_filter_ne (d : db) (ws : gmap Z word) (id id' : Z) :
  get_translations
    {| words := ws;
       translations := filter (fun r => word_id r ≠ id) (translations d) |} id'
  = if bool_decide (id' = id) then [] else get_translations d id'.
Proof.
  unfold get_translations. cbn [translations]. rewrite list_filter_filter.
  case_bool_decide as E.
  - subst id'. rewrite filter_none; [reflexivity|].
    apply Forall_forall. intros r _ [H1 H2]. contradiction.
  - f_equal. apply list_filter_iff. intros r. split; [tauto|].
    intros H. split; [exact H|]. congruence.
Qed.

Lemma get_translations_other_rows (d : db) (ts id id' : Z) (l : list str) :
  get_translations
    {| words := words d;
       translations := translations d ++ (new_row ts id <$> l) |} id'
  = get_translations d id' ++ (if bool_decide (id' = id) then l else []).
Proof.
  rewrite get_translations_app. f_equal. case_bool_decide as E.
  - subst id'. rewrite filter_new_rows, <- list_fmap_compose.
    apply list_fmap_id.
  - rewrite filter_none; [reflexivity|].
    apply Forall_forall. intros r Hr.
    apply list_elem_of_fmap in Hr as (t & -> & _). cbn. congruence.
Qed.

Lemma db_fk_unused (d : db) (id : Z) :
  db_fk d -> words d !! id = None -> get_translations d id = [].
Proof.
  unfold db_fk, get_translations. intros Hfk Hid.
  rewrite filter_none; [reflexivity|].
  eapply Forall_impl; [exact Hfk|]. cbn. intros r [w Hw] E.
  rewrite E in Hw. congruence.
Qed.

Lemma insert_strict_all_fresh (ts id : Z) (trs : list str) (d : db) :
  is_Some (words d !! id) -> NoDup trs ->
  (∀ t, t ∈ trs -> t ∉ get_translations d id) ->
  insert_strict_all ts id d trs ≠ Fail IntegrityError
  ∧ (fits_int64 id = true ->
     Forall (Forall (fun c => is_surrogate c = false)) trs ->
     insert_strict_all ts id d trs
     = Ok {| words := words d;
             translations := translations d ++ (new_row ts id <$> trs) |}).
Proof.
  revert d. induction trs as [|t trs IH]; intros d Hex Hnd Hfresh.
  - split; [discriminate|]. intros _ _. cbn. rewrite app_nil_r, db_eta.
    reflexivity.
  - apply NoDup_cons in Hnd as [Hnotin Hnd].
    cbn [insert_strict_all]. unfold insert_strict.
    destruct (bind_error id t) as [e|] eqn:Hb.
    { split; [discriminate|]. intros Hid Hsur.
      apply Forall_cons in Hsur as [Ht _].
      rewrite (proj2 (bind_error_none id t) (conj Hid Ht)) in Hb.
      discriminate. }
    pose proof (proj2 (not_stored_iff d id t) (Hfresh t ltac:(left)))
      as Hnew.
    rewrite (bool_decide_eq_true_2 (is_Some (words d !! id)) Hex).
    rewrite (bool_decide_eq_true_2 (Forall _ (translations d)) Hnew).
    cbn [andb]. fold (new_row ts id t).
    destruct (IH {| words := words d;
                    translations := translations d ++ [new_row ts id t] |})
      as [Hni Hok].
    + exact Hex.
    + exact Hnd.
    + intros t' Ht'. change [new_row ts id t] with (new_row ts id <$> [t]).
      rewrite (get_translations_other_rows d ts id id [t]).
      rewrite bool_decide_eq_true_2 by reflexivity.
      rewrite not_elem_of_app, not_elem_of_cons.
      split; [apply Hfresh; right; exact Ht'|].
      split; [intros ->; contradiction|apply not_elem_of_nil].
    + split; [exact Hni|]. intros Hid Hsur.
      apply Forall_cons in Hsur as [_ Hsur].
      rewrite (Hok Hid Hsur). cbn [words translations].
      rewrite <- app_assoc. reflexivity.
Qed.

Lemma insert_strict_all_fk (ts id : Z) (trs : list str) (d d' : db) :
  insert_strict_all ts id d trs = Ok d' -> db_fk d -> db_fk d'.
Proof.
  revert d. induction trs as [|t trs IH]; intros d Hrun Hfk.
  - injection Hrun as <-. exact Hfk.
  - cbn [insert_strict_all] in Hrun. unfold insert_strict in Hrun.
    destruct (bind_error id t); [discriminate|].
    destruct (bool_decide (is_Some (words d !! id))) eqn:Hex;
      [|discriminate].
    destruct (bool_decide (Forall _ _)); [|discriminate].
    cbn [andb] in Hrun. apply (IH _ Hrun).
    unfold db_fk. cbn [words translations]. apply Forall_app.
    split; [exact Hfk|]. constructor; [|constructor].
    cbn. apply bool_decide_eq_true_1 in Hex. exact Hex.
Qed.

Lemma insert_all_fk (ts id : Z) (trs : list str) (d d' : db) :
  insert_all ts id d trs = Done d' -> db_fk d -> db_fk d'.
Proof.
  revert d. induction trs as [|t trs IH]; intros d Hrun Hfk.
  - injection Hrun as <-. exact Hfk.
  - cbn [insert_all] in Hrun. unfold insert_translation in Hrun.
    destruct (bind_error id t); [discriminate|].
    apply (IH _ Hrun).
    destruct (bool_decide (is_Some (words d !! id))) eqn:Hex;
      [|exact Hfk].
    destruct (bool_decide (Forall _ _)); [|exact Hfk]. cbn [andb].
    unfold db_fk. cbn [words translations]. apply Forall_app.
    split; [exact Hfk|]. constructor; [|constructor].
    cbn. apply bool_decide_eq_true_1 in Hex. exact Hex.
Qed.

Lemma db_fk_more_words (ws : gmap Z word) (d : db)
    (rows : list translation) :
  db_fk d ->
  (∀ id, is_Some (words d !! id) -> is_Some (ws !! id)) ->
  sublist rows (translations d) ->
  db_fk {| words := ws; translations := rows |}.
Proof.
  unfold db_fk. cbn [words translations]. intros Hfk Hws Hsub.
  apply Forall_forall. intros r Hr. apply Hws.
  rewrite Forall_forall in Hfk. apply Hfk.
  exact (sublist_subseteq _ _ Hsub r Hr).
Qed.

(** Texts that can be bound *)
Definition bindable (t : option str) : Prop :=
  Forall (fun c => is_surrogate c = false) (default [] t).

Lemma text_error_bindable (t : option str) :
  bindable t -> text_error t = None.
Proof.
  unfold bindable. destruct t as [t|]; [|reflexivity]. cbn. intros Ht.
  rewrite (proj2 (existsb_surrogate_false t) Ht). reflexivity.
Qed.

(** [update_word] refuses an empty German word and an empty list of
    translations with a [ValueError], and a word that is not stored
    likewise; otherwise it rewrites the word's text fields and replaces
    its translations by the parsed list, in order, leaving the
    translations of every other word alone.  Its inserts are outside any
    [try], but they never violate a constraint: the parsed entries are
    pairwise different and the old rows of the word are gone. *)
Theorem update_word_replaces (tables : case_tables) (now : Z) (d : db)
    (id : Z) (german translations_raw example notes : option str) :
  let g := strip (default [] german) in
  let trs := parse_translations tables translations_raw in
  let r := update_word tables now d id german translations_raw example notes in
  (g = [] -> r = Fail (ValueError (py "Almanca boş olamaz.")))
  ∧ (g ≠ [] -> trs = [] ->
     r = Fail (ValueError (py "En az bir Türkçe karşılık gerekli.")))
  ∧ r ≠ Fail IntegrityError
  ∧ (g ≠ [] -> trs ≠ [] ->
     bindable german -> bindable example -> bindable notes ->
     bindable translations_raw -> fits_int64 id = true ->
     match words d !! id with
     | None => r = Fail (ValueError (py "Kelime bulunamadı."))
     | Some w =>
       ∃ d', r = Ok d'
             ∧ words d' = <[id := edit_row g example notes now w]> (words d)
             ∧ get_translations d' id = trs
             ∧ ∀ id', id' ≠ id ->
                 get_translations d' id' = get_translations d id'
     end).
Proof.
  intros g trs r. subst r. unfold update_word. fold g trs.
  pose proof (parse_translations_NoDup tables translations_raw) as Hnd.
  fold trs in Hnd.
  split; [intros ->; reflexivity|].
  split; [intros Hg ->; rewrite (bool_decide_eq_false_2 _ Hg); reflexivity|].
  assert (∀ w,
     let d1 := {| words := <[id := edit_row g example notes now w]> (words d);
                  translations :=
                    filter (fun r => word_id r ≠ id) (translations d) |} in
     insert_strict_all now id d1 trs ≠ Fail IntegrityError
     ∧ (fits_int64 id = true ->
        Forall (Forall (fun c => is_surrogate c = false)) trs ->
        insert_strict_all now id d1 trs
        = Ok {| words := words d1;
                translations := translations d1 ++ (new_row now id <$> trs) |}))
    as Hins.
  { intros w d1. apply insert_strict_all_fresh.
    - subst d1. cbn [words]. rewrite lookup_insert_eq. eauto.
    - exact Hnd.
    - intros t _. subst d1. rewrite get_translations_filter_ne.
      rewrite bool_decide_eq_true_2 by reflexivity. apply not_elem_of_nil. }
  split.
  - case_bool_decide; [discriminate|]. case_bool_decide; [discriminate|].
    destruct (first_error _); [discriminate|].
    destruct (words d !! id) as [w|]; [|discriminate].
    apply (Hins w).
  - intros Hg Htrs Bg Be Bn Br Hid.
    rewrite (bool_decide_eq_false_2 _ Hg), (bool_decide_eq_false_2 _ Htrs).
    assert (bindable (Some g)) as Bg'.
    { unfold bindable. change (default [] (Some g)) with g.
      apply rstrip_Forall, lstrip_Forall. exact Bg. }
    cbn [first_error].
    rewrite (text_error_bindable _ Bg'), (text_error_bindable _ Be),
      (text_error_bindable _ Bn).
    unfold int_error. rewrite Hid.
    destruct (words d !! id) as [w|] eqn:Hw; [|reflexivity].
    destruct (Hins w) as [_ Hok]. cbn zeta in Hok.
    rewrite (Hok Hid (parse_translations_Forall tables _ _ Br)).
    eexists. split; [reflexivity|]. cbn [words]. split; [reflexivity|].
    set (d1 := {| words := <[id := edit_row g example notes now w]> (words d);
                  translations :=
                    filter (fun r => word_id r ≠ id) (translations d) |}).
    change (<[id := edit_row g example notes now w]> (words d))
      with (words d1).
    change (filter (fun r => word_id r ≠ id) (translations d))
      with (translations d1).
    split.
    + rewrite (get_translations_other_rows d1 now id id trs).
      rewrite bool_decide_eq_true_2 by reflexivity.
      subst d1. rewrite get_translations_filter_ne.
      rewrite bool_decide_eq_true_2 by reflexivity. reflexivity.
    + intros id' Hne.
      rewrite (get_translations_other_rows d1 now id id' trs).
      rewrite bool_decide_eq_false_2 by exact Hne. rewrite app_nil_r.
      subst d1. rewrite get_translations_filter_ne.
      rewrite bool_decide_eq_false_2 by exact Hne. reflexivity.
Qed.

Lemma update_word_replaces_witness :
  ∃ d', update_word latin_tables 7 demo_db 1 (Some (py " der Apfel "))
          (Some (py "Elma; elma ağacı, ELMA")) None (Some (py "isim"))
        = Ok d'
        ∧ words d'
          = <[1 := edit_row (py "der Apfel") None (Some (py "isim")) 7
                     demo_word]> (words demo_db)
        ∧ get_translations d' 1 = [py "Elma"; py "elma ağacı"]
        ∧ ∀ id', id' ≠ 1 ->
            get_translations d' id' = get_translations demo_db id'.
Proof.
  pose proof (update_word_replaces latin_tables 7 demo_db 1
                (Some (py " der Apfel "))
                (Some (py "Elma; elma ağacı, ELMA")) None (Some (py "isim")))
    as H.
  cbn zeta in H. destruct H as (_ & _ & _ & H).
  assert (words demo_db !! 1 = Some demo_word) as Hw by reflexivity.
  rewrite Hw in H.
  assert (parse_translations latin_tables (Some (py "Elma; elma ağacı, ELMA"))
          = [py "Elma"; py "elma ağacı"]) as Hp by (vm_compute; reflexivity).
  assert (strip (default [] (Some (py " der Apfel "))) = py "der Apfel") as Hg
    by (vm_compute; reflexivity).
  rewrite Hp, Hg in H. apply H.
  - vm_compute. discriminate.
  - discriminate.
  - vm_compute. repeat constructor.
  - constructor.
  - vm_compute. repeat constructor.
  - vm_compute. repeat constructor.
  - reflexivity.
Defined.

(** Deleting a word deletes its translations with it and nothing else;
    deleting a word that is not stored changes nothing; an id outside 64
    bits is not looked up but raises [OverflowError]. *)
Theorem delete_word_cascades (d : db) (id : Z) :
  (fits_int64 id = false -> delete_word d id = Raised OverflowError)
  ∧ (fits_int64 id = true ->
     ∃ d', delete_word d id = Done d'
           ∧ words d' !! id = None
           ∧ get_translations d' id = []
           ∧ (∀ id', id' ≠ id ->
                words d' !! id' = words d !! id'
                ∧ get_translations d' id' = get_translations d id')
           ∧ (db_fk d -> words d !! id = None -> d' = d)).
Proof.
  unfold delete_word, int_error. split; intros Hid; rewrite Hid;
    [reflexivity|].
  eexists. split; [reflexivity|]. cbn [words].
  split; [apply lookup_delete_eq|]. split.
  { rewrite get_translations_filter_ne.
    rewrite bool_decide_eq_true_2 by reflexivity. reflexivity. }
  split.
  - intros id' Hne. split; [apply lookup_delete_ne; congruence|].
    rewrite get_translations_filter_ne.
    rewrite bool_decide_eq_false_2 by exact Hne. reflexivity.
  - intros Hfk Hw. rewrite delete_id by exact Hw.
    rewrite filter_Forall_id; [apply db_eta|].
    eapply Forall_impl; [exact Hfk|]. cbn. intros r [w Hr] E.
    rewrite E in Hr. congruence.
Qed.

Lemma delete_word_cascades_witness :
  ∃ d', delete_word demo_db 1 = Done d'
        ∧ words d' !! 1 = None
        ∧ get_translations d' 1 = []
        ∧ (∀ id', id' ≠ 1 ->
             words d' !! id' = words demo_db !! id'
             ∧ get_translations d' id' = get_translations demo_db id')
        ∧ (db_fk demo_db -> words demo_db !! 1 = None -> d' = demo_db).
Proof.
  apply (proj2 (delete_word_cascades demo_db 1)). reflexivity.
Defined.

(** The add page: [create_word] on the parsed input.  With a German word
    that is not empty, a parsed list that is not empty and texts that can
    be bound, the new word is stored under the id the table gives it, in
    box 1, due at once, with no answers counted, and its translations are
    the parsed entries, all of them and in order; the other words and
    their translations stay.  An empty German word or an empty list is
    refused with a [ValueError]. *)
Theorem create_word_stores_parsed (tables : case_tables)
    (now_ts now_due lastrowid : Z) (d : db)
    (german turkish_raw example notes : option str) :
  let g := strip (default [] german) in
  let trs := parse_translations tables turkish_raw in
  let r := create_word now_ts now_due lastrowid d german trs example notes in
  (g = [] -> r = Fail (ValueError (py "Almanca boş olamaz.")))
  ∧ (g ≠ [] -> trs = [] ->
     r = Fail (ValueError (py "En az bir Türkçe karşılık gir.")))
  ∧ (g ≠ [] -> trs ≠ [] ->
     db_fk d -> words d !! lastrowid = None -> fits_int64 lastrowid = true ->
     bindable german -> bindable example -> bindable notes ->
     bindable turkish_raw ->
     ∃ d', r = Ok (d', lastrowid)
           ∧ words d'
             = <[lastrowid := new_word g example notes now_ts now_due]>
                 (words d)
           ∧ get_translations d' lastrowid = trs
           ∧ ∀ id', id' ≠ lastrowid ->
               get_translations d' id' = get_translations d id').
Proof.
  intros g trs r. subst r. unfold create_word. fold g.
  split; [intros ->; reflexivity|].
  split; [intros Hg ->; rewrite (bool_decide_eq_false_2 _ Hg); reflexivity|].
  intros Hg Htrs Hfk Hfresh Hid Bg Be Bn Br.
  rewrite (bool_decide_eq_false_2 _ Hg), (bool_decide_eq_false_2 _ Htrs).
  assert (bindable (Some g)) as Bg'.
  { unfold bindable. change (default [] (Some g)) with g.
    apply rstrip_Forall, lstrip_Forall. exact Bg. }
  cbn [first_error].
  rewrite (text_error_bindable _ Bg'), (text_error_bindable _ Be),
    (text_error_bindable _ Bn).
  rewrite schedule_next_box1.
  assert (strip <$> trs = trs) as ->.
  { clear -trs. assert (∀ t, t ∈ trs -> strip t = t) as Hall.
    { intros t Ht. apply (parse_translations_entries tables turkish_raw t Ht). }
    induction trs as [|t l IH]; [reflexivity|]. rewrite fmap_cons.
    rewrite (Hall t ltac:(left)), IH; [reflexivity|].
    intros t' Ht'. apply Hall. right. exact Ht'. }
  set (d1 := {| words := <[lastrowid := new_word g example notes now_ts
                                          now_due]> (words d);
                translations := translations d |}).
  rewrite (insert_all_spec now_ts lastrowid trs d1 Hid
             (parse_translations_Forall tables _ _ Br)
             (parse_translations_NoDup tables turkish_raw)).
  assert (is_Some (words d1 !! lastrowid)) as Hex.
  { subst d1. cbn [words]. rewrite lookup_insert_eq. eauto. }
  rewrite (bool_decide_eq_true_2 _ Hex).
  assert (get_translations d1 lastrowid = []) as Hnone.
  { subst d1. unfold get_translations. cbn [translations].
    exact (db_fk_unused d lastrowid Hfk Hfresh). }
  rewrite filter_Forall_id.
  2:{ apply Forall_forall. intros t _. rewrite Hnone. apply not_elem_of_nil. }
  eexists. split; [reflexivity|]. split; [reflexivity|]. split.
  - rewrite (get_translations_other_rows d1 now_ts lastrowid lastrowid trs).
    rewrite bool_decide_eq_true_2 by reflexivity. rewrite Hnone.
    reflexivity.
  - intros id' Hne.
    rewrite (get_translations_other_rows d1 now_ts lastrowid id' trs).
    rewrite bool_decide_eq_false_2 by exact Hne. rewrite app_nil_r.
    reflexivity.
Qed.

Lemma create_word_stores_parsed_witness :
  ∃ d', create_word 5 6 2 demo_db (Some (py "gehen "))
          (parse_translations latin_tables (Some (py "gitmek, yürümek")))
          (Some (py "Wir gehen nach Hause.")) None
        = Ok (d', 2)
        ∧ words d'
          = <[2 := new_word (py "gehen") (Some (py "Wir gehen nach Hause."))
                     None 5 6]> (words demo_db)
        ∧ get_translations d' 2 = [py "gitmek"; py "yürümek"]
        ∧ ∀ id', id' ≠ 2 ->
            get_translations d' id' = get_translations demo_db id'.
Proof.
  pose proof (create_word_stores_parsed latin_tables 5 6 2 demo_db
                (Some (py "gehen ")) (Some (py "gitmek, yürümek"))
                (Some (py "Wir gehen nach Hause.")) None) as H.
  cbn zeta in H. destruct H as (_ & _ & H).
  assert (parse_translations latin_tables (Some (py "gitmek, yürümek"))
          = [py "gitmek"; py "yürümek"]) as Hp by (vm_compute; reflexivity).
  assert (strip (default [] (Some (py "gehen "))) = py "gehen") as Hg
    by (vm_compute; reflexivity).
  rewrite Hp, Hg in H. rewrite Hp. apply H.
  - vm_compute. discriminate.
  - discriminate.
  - repeat constructor. vm_compute. eauto.
  - reflexivity.
  - reflexivity.
  - vm_compute. repeat constructor.
  - vm_compute. repeat constructor.
  - constructor.
  - vm_compute. repeat constructor.
Defined.

(** Every function that writes to the store keeps the translations
    attached to stored words: when every translation belongs to a stored
    word before, so it does after adding translations, booking an answer,
    deleting a word, editing a word and creating one. *)
Theorem foreign_keys_kept (d : db) :
  db_fk d ->
  (∀ tables now id raw d',
     add_translation tables now d id raw = Done d' -> db_fk d')
  ∧ (∀ now1 now2 id was_correct current_box,
       db_fk (update_after_answer now1 now2 d id was_correct current_box).1)
  ∧ (∀ id d', delete_word d id = Done d' -> db_fk d')
  ∧ (∀ tables now id german raw example notes d',
       update_word tables now d id german raw example notes = Ok d' ->
       db_fk d')
  ∧ (∀ now1 now2 lastrowid german trs example notes d' id',
       create_word now1 now2 lastrowid d german trs example notes
       = Ok (d', id') ->
       db_fk d').
Proof.
  intros Hfk. split; [|split; [|split; [|split]]].
  - intros tables now id raw d' Hrun. unfold add_translation in Hrun.
    destruct (bool_decide _); [injection Hrun as <-; exact Hfk|].
    exact (insert_all_fk _ _ _ _ _ Hrun Hfk).
  - intros now1 now2 id was_correct current_box.
    unfold update_after_answer. cbn [fst].
    apply (db_fk_more_words _ d); [exact Hfk| |reflexivity].
    intros id' Hid'. destruct (decide (id' = id)) as [->|Hne].
    + rewrite lookup_alter_eq. apply fmap_is_Some. exact Hid'.
    + rewrite lookup_alter_ne by congruence. exact Hid'.
  - intros id d' Hrun. unfold delete_word in Hrun.
    destruct (int_error id); [discriminate|]. injection Hrun as <-.
    unfold db_fk in *. cbn [words translations].
    apply Forall_forall. intros r Hr.
    apply list_elem_of_filter in Hr as [Hne Hr].
    rewrite lookup_delete_ne by congruence.
    rewrite Forall_forall in Hfk. apply Hfk. exact Hr.
  - intros tables now id german raw example notes d' Hrun.
    unfold update_word in Hrun.
    destruct (bool_decide _); [discriminate|].
    destruct (bool_decide _); [discriminate|].
    destruct (first_error _); [discriminate|].
    destruct (words d !! id) as [w|] eqn:Hw; [|discriminate].
    apply (insert_strict_all_fk _ _ _ _ _ Hrun).
    apply (db_fk_more_words _ d); [exact Hfk| |apply sublist_filter].
    intros id' Hid'. destruct (decide (id' = id)) as [->|Hne].
    + rewrite lookup_insert_eq. eauto.
    + rewrite lookup_insert_ne by congruence. exact Hid'.
  - intros now1 now2 lastrowid german trs example notes d' id' Hrun.
    unfold create_word in Hrun.
    destruct (bool_decide _); [discriminate|].
    destruct (bool_decide _); [discriminate|].
    destruct (first_error _); [discriminate|].
    destruct (insert_all _ _ _ _) as [d2|e] eqn:Hins; [|discriminate].
    injection Hrun as <- _.
    apply (insert_all_fk _ _ _ _ _ Hins).
    apply (db_fk_more_words _ d); [exact Hfk| |reflexivity].
    intros id'' Hid''. destruct (decide (id'' = lastrowid)) as [->|Hne].
    + rewrite lookup_insert_eq. eauto.
    + rewrite lookup_insert_ne by congruence. exact Hid''.
Qed.

Lemma foreign_keys_kept_witness :
  db_fk (update_after_answer 100 100 demo_db 1 true 1).1.
Proof.
  apply (foreign_keys_kept demo_db).
  repeat constructor. vm_compute. eauto.
Defined.

(** ** Normalizer: the shape of a normalized text *)

Lemma sub_ws_shape (b : bool) (s : str) :
  let r := sub_ws b s in
  Forall (fun c => is_space c = true -> c = 32%N) r
  ∧ (∀ i, r !! i = Some 32%N -> r !! S i ≠ Some 32%N)
  ∧ (b = true -> head r ≠ Some 32%N).
Proof.
  cbn zeta. revert b. induction s as [|c s IH]; intros b.
  - cbn. split; [constructor|]. split; [intros i H; discriminate H|].
    intros _. discriminate.
  - cbn [sub_ws]. destruct (is_space c) eqn:Hc.
    + destruct b; [apply IH|].
      destruct (IH true) as (Hall & Hadj & Hhead).
      split; [constructor; [reflexivity|exact Hall]|].
      split; [|discriminate].
      intros [|i] Hi.
      * cbn. specialize (Hhead eq_refl).
        destruct (sub_ws true s); [discriminate|]. cbn in *. exact Hhead.
      * cbn in *. apply Hadj. exact Hi.
    + destruct (IH false) as (Hall & Hadj & _).
      assert (c ≠ 32%N) as Hne by (intros ->; discriminate Hc).
      split; [constructor; [congruence|exact Hall]|].
      split; [|intros _; cbn; congruence].
      intros [|i] Hi; [cbn in Hi; congruence|].
      cbn in *. apply Hadj. exact Hi.
Qed.

(** A normalized text has no whitespace at its ends, no whitespace other
    than the space, and no two spaces in a row; a text normalized as
    German has none of the letters ß, ä, ö, ü either. *)
Theorem normalized_text_shape (tables : case_tables) (lang x : str) :
  keeps_space (to_lower_full tables) ->
  let s := normalize tables lang x in
  strip s = s
  ∧ Forall (fun c => is_space c = true -> c = 32%N) s
  ∧ (∀ i, s !! i = Some 32%N -> s !! S i ≠ Some 32%N)
  ∧ (lang = py "de" -> Forall (fun c => c ∉ s) [223; 228; 246; 252]%N).
Proof.
  intros Hsp s.
  assert (strip s = s ∧ sub_ws false s = s) as [Hstrip Hsub].
  { subst s. unfold normalize. case_bool_decide.
    - rewrite de_normalize_eq. split.
      + rewrite (fold_umlauts_keeps strip)
          by (intros; apply strip_flat_map; assumption).
        rewrite (tr_normalize_stripped tables Hsp). reflexivity.
      + rewrite (fold_umlauts_keeps (sub_ws false))
          by (intros; apply sub_ws_flat_map; assumption).
        unfold tr_normalize. fold (collapse_ws (collapse_ws
                                      (lower tables (strip x)))).
        rewrite collapse_ws_idemp. reflexivity.
    - split; [apply (tr_normalize_stripped tables Hsp)|].
      unfold tr_normalize. apply collapse_ws_idemp. }
  destruct (sub_ws_shape false s) as (Hall & Hadj & _). cbn zeta in *.
  rewrite Hsub in Hall, Hadj.
  split; [exact Hstrip|]. split; [exact Hall|]. split; [exact Hadj|].
  intros ->. subst s. unfold normalize.
  rewrite bool_decide_eq_true_2 by reflexivity. rewrite de_normalize_eq.
  apply fold_umlauts_clean.
Qed.

Lemma normalized_text_shape_witness :
  let s := normalize latin_tables (py "de") (py "  Grüß   Gott ") in
  strip s = s
  ∧ Forall (fun c => is_space c = true -> c = 32%N) s
  ∧ (∀ i, s !! i = Some 32%N -> s !! S i ≠ Some 32%N)
  ∧ (py "de" = py "de" -> Forall (fun c => c ∉ s) [223; 228; 246; 252]%N).
Proof.
  apply (normalized_text_shape latin_tables (py "de") (py "  Grüß   Gott ")
           latin_keeps_space).
Defined.

(** ** Scheduler: the intervals grow with the box *)

(** A word is never due before the clock reading and never later than 14
    days after it, whatever its box; among the boxes 1 to 5 a higher box
    is due strictly later. *)
Theorem schedule_next_monotone (now : Z) :
  (∀ box, now <= schedule_next now box <= now + 14 * 86400)
  ∧ (∀ b1 b2, 1 <= b1 -> b1 < b2 -> b2 <= 5 ->
       schedule_next now b1 < schedule_next now b2).
Proof.
  assert (∀ box, 1 <= box <= 5 ->
            schedule_next now box
            = now + (if box =? 1 then 0 else if box =? 2 then 1
                     else if box =? 3 then 3 else if box =? 4 then 7
                     else 14) * 86400) as Hin.
  { intros box Hb.
    assert (box = 1 ∨ box = 2 ∨ box = 3 ∨ box = 4 ∨ box = 5) as Hc by lia.
    destruct Hc as [->|[->|[->|[->| ->]]]]; reflexivity. }
  split.
  - intros box. destruct (decide (1 <= box <= 5)) as [Hb|Hb].
    + rewrite (Hin box Hb).
      repeat match goal with
             | |- context [?x =? ?y] => destruct (Z.eqb_spec x y)
             end; lia.
    + unfold schedule_next, add_days_iso.
      rewrite (intervals_lookup_outside box Hb). cbn. lia.
  - intros b1 b2 H1 H12 H2.
    rewrite (Hin b1) by lia. rewrite (Hin b2) by lia.
    repeat match goal with
           | |- context [?x =? ?y] => destruct (Z.eqb_spec x y)
           end; lia.
Qed.

Lemma schedule_next_monotone_witness :
  schedule_next 1000 2 < schedule_next 1000 4.
Proof.
  apply (proj2 (schedule_next_monotone 1000) 2 4); lia.
Defined.
